(** * A shallow embedding of the crossword CSP solver (generate.py)

    The development follows [CrosswordCreator]: node consistency, [revise],
    AC-3 propagation, the two ordering heuristics, the assignment checker and
    the backtracking search.

    Conventions of the embedding.
    - A Python [set] of words is a list in iteration order; a [dict] is an
      association list in insertion order.  Copying keeps that order.
    - A Python exception is the result [Raise e]; nothing in generate.py
      catches exceptions, so an exception ends the run.
    - [self.domains] is a reference to a dict object.  The objects live in a
      heap and [self.domains = copy_domains] rebinds the reference, so two
      names may denote one object. *)

From Stdlib Require Import List String Ascii Arith Bool Lia PeanoNat Permutation Sorted.
Import ListNotations.
Local Open Scope string_scope.
Local Open Scope list_scope.

Set Implicit Arguments.

(** ** Results of Python computations *)

Inductive exn : Type := IndexError | KeyError | ValueError | TypeError.

Inductive result (A : Type) : Type :=
| Ok (a : A)
| Raise (e : exn)
| OutOfFuel.

Arguments Ok {A} a.
Arguments Raise {A} e.
Arguments OutOfFuel {A}.

Definition bind {A B : Type} (m : result A) (k : A -> result B) : result B :=
  match m with
  | Ok a => k a
  | Raise e => Raise e
  | OutOfFuel => OutOfFuel
  end.

Arguments bind {A B} !m k /.

Declare Scope py_scope.
Delimit Scope py_scope with py.
Notation "x <- m ;; k" := (bind m (fun x => k))
  (at level 61, m at next level, right associativity) : py_scope.
Notation "' pat <- m ;; k" := (bind m (fun pat => k))
  (at level 61, pat pattern, m at next level, right associativity) : py_scope.
Local Open Scope py_scope.

(** ** Slots (class Variable of crossword.py) *)

Inductive Direction : Type := ACROSS | DOWN.

Record Var : Type := mkVar {
  var_i : nat;
  var_j : nat;
  var_direction : Direction;
  var_length : nat
}.

Definition direction_eqb (a b : Direction) : bool :=
  match a, b with
  | ACROSS, ACROSS | DOWN, DOWN => true
  | _, _ => false
  end.

(** [Variable.__eq__]: equality of the four attributes. *)
Definition var_eqb (a b : Var) : bool :=
  Nat.eqb (var_i a) (var_i b) && Nat.eqb (var_j a) (var_j b)
  && direction_eqb (var_direction a) (var_direction b)
  && Nat.eqb (var_length a) (var_length b).

Definition arc : Type := (Var * Var)%type.

Definition arc_eqb (a b : arc) : bool :=
  var_eqb (fst a) (fst b) && var_eqb (snd a) (snd b).

(** ** Dictionaries keyed by slots *)

Section Dict.
Variable V : Type.

Definition dict : Type := list (Var * V).

Fixpoint dict_get (k : Var) (d : dict) : option V :=
  match d with
  | [] => None
  | (k', v) :: d' => if var_eqb k k' then Some v else dict_get k d'
  end.

(** [d[k]]: a missing key raises KeyError. *)
Definition dict_item (k : Var) (d : dict) : result V :=
  match dict_get k d with
  | Some v => Ok v
  | None => Raise KeyError
  end.

(** [k in d] *)
Definition dict_mem (k : Var) (d : dict) : bool :=
  existsb (fun kv => var_eqb k (fst kv)) d.

(** [d[k] = v]: an existing key keeps its position, a new key is appended. *)
Fixpoint dict_set (k : Var) (v : V) (d : dict) : dict :=
  match d with
  | [] => [(k, v)]
  | (k', v') :: d' =>
      if var_eqb k k' then (k', v) :: d' else (k', v') :: dict_set k v d'
  end.

(** [d.pop(k)]: a missing key raises KeyError. *)
Fixpoint dict_pop (k : Var) (d : dict) : result dict :=
  match d with
  | [] => Raise KeyError
  | (k', v') :: d' =>
      if var_eqb k k' then Ok d'
      else d'' <- dict_pop k d' ;; Ok ((k', v') :: d'')
  end.

Definition keys (d : dict) : list Var := map fst d.
Definition values (d : dict) : list V := map snd d.
End Dict.

(** ** Sets of words *)

Abbreviation wordset := (list string).

(** [w in s] *)
Definition set_mem (w : string) (s : wordset) : bool :=
  existsb (String.eqb w) s.

(** [s.add(w)] *)
Definition set_add (w : string) (s : wordset) : wordset :=
  if set_mem w s then s else s ++ [w].

(** [s.remove(w)]: raises KeyError when [w] is not a member. *)
Definition set_remove (w : string) (s : wordset) : result wordset :=
  if set_mem w s
  then Ok (filter (fun v => negb (String.eqb v w)) s)
  else Raise KeyError.

(** [word[n]] *)
Definition str_index (word : string) (n : nat) : result ascii :=
  match String.get n word with
  | Some ch => Ok ch
  | None => Raise IndexError
  end.

(** ** The puzzle (class Crossword of crossword.py)

    crossword.py is not among the sources.  generate.py reads three
    attributes of the puzzle object: [variables], [words] and the dict
    [overlaps], which are taken as they are.  *)

Record Crossword : Type := mkCrossword {
  variables : list Var;
  words : wordset;
  overlaps : list (arc * option (nat * nat))
}.

Fixpoint overlaps_get (a : arc) (o : list (arc * option (nat * nat)))
  : option (option (nat * nat)) :=
  match o with
  | [] => None
  | (a', v) :: o' => if arc_eqb a a' then Some v else overlaps_get a o'
  end.

(** [self.crossword.overlaps[x, y]] *)
Definition overlaps_item (c : Crossword) (x y : Var) : result (option (nat * nat)) :=
  match overlaps_get (x, y) (overlaps c) with
  | Some v => Ok v
  | None => Raise KeyError
  end.

(** Modelled from the spec: the method [Crossword.neighbors] of crossword.py,
    which is not among the sources.  The neighbours of a slot are the other
    slots of the puzzle that have an overlap with it. *)
Definition neighbors (c : Crossword) (var : Var) : list Var :=
  filter (fun v =>
            negb (var_eqb v var)
            && match overlaps_get (v, var) (overlaps c) with
               | Some (Some _) => true
               | _ => false
               end)
         (variables c).

(** ** The domain store *)

Definition Domains : Type := dict wordset.
Definition Assignment : Type := dict string.

(** [CrosswordCreator.__init__] *)
Definition init_domains (c : Crossword) : Domains :=
  map (fun var => (var, words c)) (variables c).

(** ** enforce_node_consistency *)

Fixpoint remove_all (remove_words : list string) (s : wordset) : result wordset :=
  match remove_words with
  | [] => Ok s
  | word :: rest => s' <- set_remove word s ;; remove_all rest s'
  end.

Definition wrong_length (var : Var) (domain : wordset) : list string :=
  filter (fun word => negb (Nat.eqb (String.length word) (var_length var))) domain.

(** The loop over [self.domains.items()]; [todo] is the part of the dict still
    to be visited and [d] the dict object being mutated. *)
Fixpoint enforce_items (todo : Domains) (d : Domains) : result Domains :=
  match todo with
  | [] => Ok d
  | (var, domain) :: todo' =>
      domain' <- remove_all (wrong_length var domain) domain ;;
      enforce_items todo' (dict_set var domain' d)
  end.

Definition enforce_node_consistency (d : Domains) : result Domains :=
  enforce_items d d.

(** ** revise *)

(** The inner loop over [self.domains[y]]: [count] mismatches so far, stopping
    at the first word of [y] that agrees with [word_x]. *)
Fixpoint revise_scan (word_x : string) (overlap : nat * nat)
         (y_words : wordset) (count : nat) : result nat :=
  match y_words with
  | [] => Ok count
  | word_y :: rest =>
      cx <- str_index word_x (fst overlap) ;;
      cy <- str_index word_y (snd overlap) ;;
      if Ascii.eqb cx cy then Ok count
      else revise_scan word_x overlap rest (S count)
  end.

(** The outer loop over [x_words]; returns [remove_words] and [revised]. *)
Fixpoint revise_words (d : Domains) (y : Var) (overlap : nat * nat)
         (x_words : list string) (remove_words : wordset) (revised : bool)
  : result (wordset * bool) :=
  match x_words with
  | [] => Ok (remove_words, revised)
  | word_x :: rest =>
      dy <- dict_item y d ;;
      count <- revise_scan word_x overlap dy 0 ;;
      if Nat.eqb count (List.length dy)
      then revise_words d y overlap rest (set_add word_x remove_words) true
      else revise_words d y overlap rest remove_words revised
  end.

Definition revise (c : Crossword) (x y : Var) (d : Domains)
  : result (bool * Domains) :=
  o <- overlaps_item c x y ;;
  match o with
  | None => Ok (false, d)
  | Some overlap =>
      x_words <- dict_item x d ;;
      '(remove_words, revised) <- revise_words d y overlap x_words [] false ;;
      match remove_words with
      | [] => Ok (revised, d)
      | _ =>
          dx <- dict_item x d ;;
          dx' <- remove_all remove_words dx ;;
          Ok (revised, dict_set x dx' d)
      end
  end.

(** ** ac3 *)

Definition domains_size (d : Domains) : nat :=
  fold_right (fun kv n => List.length (snd kv) + n) 0 d.

(** The [while queue] loop.  [fuel] bounds the number of iterations;
    [ac3_fuel_enough] shows that the bound chosen by [ac3] is never reached. *)
Fixpoint ac3_loop (c : Crossword) (fuel : nat) (queue : list arc) (d : Domains)
  : result (bool * Domains) :=
  match queue with
  | [] => Ok (true, d)
  | (x, y) :: queue' =>
      match fuel with
      | 0 => OutOfFuel
      | S fuel' =>
          '(revised, d') <- revise c x y d ;;
          if (revised : bool) then
            dx <- dict_item x d' ;;
            match dx with
            | [] => Ok (false, d')
            | _ =>
                ac3_loop c fuel'
                  (queue' ++ map (fun neighbor => (neighbor, x))
                                 (filter (fun neighbor => negb (var_eqb neighbor y))
                                         (neighbors c x)))
                  d'
            end
          else ac3_loop c fuel' queue' d'
      end
  end.

Definition ac3_fuel (c : Crossword) (queue : list arc) (d : Domains) : nat :=
  S (List.length queue + List.length (variables c) * domains_size d).

(** [arcs = None] is the call [self.ac3()]: the queue starts with every key
    of the [overlaps] dict (a key is a tuple and never [None]). *)
Definition ac3 (c : Crossword) (arcs : option (list arc)) (d : Domains)
  : result (bool * Domains) :=
  let queue := match arcs with
               | None => map fst (overlaps c)
               | Some l => l
               end in
  ac3_loop c (ac3_fuel c queue d) queue d.

(** ** assignment_complete and consistent *)

Definition assignment_complete (assignment : Assignment) (d : Domains) : bool :=
  Nat.eqb (List.length (keys assignment)) (List.length (keys d)).

Fixpoint consistent_neighbors (c : Crossword) (assignment : Assignment)
         (var_1 : Var) (ns : list Var) : result bool :=
  match ns with
  | [] => Ok true
  | var_2 :: rest =>
      if dict_mem var_2 assignment then
        overlap <- overlaps_item c var_1 var_2 ;;
        w1 <- dict_item var_1 assignment ;;
        match overlap with
        | None => Raise TypeError
        | Some ov =>
            c1 <- str_index w1 (fst ov) ;;
            w2 <- dict_item var_2 assignment ;;
            c2 <- str_index w2 (snd ov) ;;
            if Ascii.eqb c1 c2
            then consistent_neighbors c assignment var_1 rest
            else Ok false
        end
      else consistent_neighbors c assignment var_1 rest
  end.

Fixpoint consistent_items (c : Crossword) (assignment : Assignment)
         (items : Assignment) : result bool :=
  match items with
  | [] => Ok true
  | (var_1, _) :: rest =>
      ok <- consistent_neighbors c assignment var_1 (neighbors c var_1) ;;
      if (ok : bool) then consistent_items c assignment rest else Ok false
  end.

Definition consistent (c : Crossword) (assignment : Assignment) : result bool :=
  if negb (Nat.eqb (List.length (values assignment))
                   (List.length (nodup string_dec (values assignment))))
  then Ok false
  else consistent_items c assignment assignment.

(** ** order_domain_values *)

(** [word in assignment] tests the keys of the dict.  The keys are Variable
    objects and [word] is a str; a str is never equal to a Variable. *)
Definition str_eq_var (word : string) (k : Var) : bool := false.

Definition word_in_assignment (word : string) (assignment : Assignment) : bool :=
  existsb (fun kv => str_eq_var word (fst kv)) assignment.

(** The loop [for w in self.domains[neighbor]]. *)
Fixpoint lcv_conflicts (word : string) (overlap : option (nat * nat))
         (ws : wordset) (count : nat) : result nat :=
  match ws with
  | [] => Ok count
  | w :: rest =>
      match overlap with
      | None => Raise TypeError
      | Some ov =>
          a <- str_index word (fst ov) ;;
          b <- str_index w (snd ov) ;;
          lcv_conflicts word overlap rest (if Ascii.eqb a b then count else S count)
      end
  end.

(** The loop [for neighbor in neighbors]. *)
Fixpoint lcv_neighbors (c : Crossword) (d : Domains) (var : Var) (word : string)
         (ns : list Var) (count : nat) : result nat :=
  match ns with
  | [] => Ok count
  | neighbor :: rest =>
      overlap <- overlaps_item c var neighbor ;;
      dn <- dict_item neighbor d ;;
      count' <- lcv_conflicts word overlap dn
                  (if set_mem word dn then S count else count) ;;
      lcv_neighbors c d var word rest count'
  end.

(** [values[word] = count] on the dict of costs. *)
Fixpoint values_set (word : string) (count : nat) (vs : list (string * nat))
  : list (string * nat) :=
  match vs with
  | [] => [(word, count)]
  | (w, n) :: vs' =>
      if String.eqb word w then (w, count) :: vs'
      else (w, n) :: values_set word count vs'
  end.

(** The loop [for word in words]. *)
Fixpoint lcv_words (c : Crossword) (d : Domains) (var : Var)
         (assignment : Assignment) (ws : list string)
         (vs : list (string * nat)) : result (list (string * nat)) :=
  match ws with
  | [] => Ok vs
  | word :: rest =>
      if word_in_assignment word assignment
      then lcv_words c d var assignment rest vs
      else
        count <- lcv_neighbors c d var word (neighbors c var) 0 ;;
        lcv_words c d var assignment rest (values_set word count vs)
  end.

(** [sorted(values, key=...)]: a stable sort of the keys by their cost. *)
Fixpoint insert_by_cost (x : string * nat) (l : list (string * nat))
  : list (string * nat) :=
  match l with
  | [] => [x]
  | y :: l' =>
      if Nat.leb (snd x) (snd y) then x :: l else y :: insert_by_cost x l'
  end.

Definition sorted_by_cost (vs : list (string * nat)) : list string :=
  map fst (fold_right insert_by_cost [] vs).

Definition order_domain_values (c : Crossword) (var : Var)
           (assignment : Assignment) (d : Domains) : result (list string) :=
  ws <- dict_item var d ;;
  vs <- lcv_words c d var assignment ws [] ;;
  Ok (sorted_by_cost vs).

(** ** select_unassigned_variable *)

(** Python's [min] and [max] keep the first of several extremal elements. *)
Fixpoint first_min {A : Type} (key : A -> nat) (best : A) (l : list A) : A :=
  match l with
  | [] => best
  | x :: l' => first_min key (if Nat.ltb (key x) (key best) then x else best) l'
  end.

Fixpoint first_max {A : Type} (key : A -> nat) (best : A) (l : list A) : A :=
  match l with
  | [] => best
  | x :: l' => first_max key (if Nat.ltb (key best) (key x) then x else best) l'
  end.

Definition py_min {A : Type} (key : A -> nat) (l : list A) : result A :=
  match l with
  | [] => Raise ValueError
  | x :: l' => Ok (first_min key x l')
  end.

Definition py_max {A : Type} (key : A -> nat) (l : list A) : result A :=
  match l with
  | [] => Raise ValueError
  | x :: l' => Ok (first_max key x l')
  end.

Definition select_unassigned_variable (c : Crossword) (assignment : Assignment)
           (d : Domains) : result Var :=
  let unassigned_variables :=
    filter (fun kv => negb (dict_mem (fst kv) assignment)) d in
  lowest_count <- py_min (fun kv => List.length (snd kv)) unassigned_variables ;;
  let unassigned_variables :=
    filter (fun kv => Nat.eqb (List.length (snd kv))
                              (List.length (snd (lowest_count : Var * wordset))))
           unassigned_variables in
  py_max (fun k => List.length (neighbors c k)) (keys unassigned_variables).

(** ** get_arcs *)

Definition get_arcs (c : Crossword) (var : Var) (assignment : Assignment)
  : list arc :=
  map (fun neighbor => (neighbor, var))
      (filter (fun neighbor => negb (dict_mem neighbor assignment))
              (neighbors c var)).

(** ** The state of a CrosswordCreator during the search *)

(** What the search did, noted for the statements about its control flow:
    - [Enter a d]: [backtrack] went past the completeness test with
      assignment [a], the domains being [d];
    - [Try a var word d]: in the node entered with [a], the loop starts the
      candidate [word] for [var], the domains being [d];
    - [Descend a ok]: the recursive call on [a] is made, [ok] being what the
      preceding [self.ac3(arcs)] returned. *)
Inductive event : Type :=
| Enter (assignment : Assignment) (domains : Domains)
| Try (assignment : Assignment) (var : Var) (word : string) (domains : Domains)
| Descend (assignment : Assignment) (ok : bool).

Record State : Type := mkState {
  heap : list Domains;      (* the dict objects, by address *)
  self_domains : nat;       (* the address [self.domains] refers to *)
  history : list event
}.

Definition deref (st : State) : Domains := nth (self_domains st) (heap st) [].

Fixpoint list_set {A : Type} (n : nat) (a : A) (l : list A) : list A :=
  match l, n with
  | [], _ => []
  | _ :: l', 0 => a :: l'
  | b :: l', S n' => b :: list_set n' a l'
  end.

(** Mutation of the object [self.domains] refers to. *)
Definition store (d : Domains) (st : State) : State :=
  mkState (list_set (self_domains st) d (heap st)) (self_domains st) (history st).

(** [deepcopy(self.domains)]: a new object; returns its address. *)
Definition deepcopy (st : State) : nat * State :=
  (List.length (heap st),
   mkState (heap st ++ [deref st]) (self_domains st) (history st)).

(** [self.domains = copy_domains]: the reference is rebound, nothing is copied. *)
Definition rebind (copy_domains : nat) (st : State) : State :=
  mkState (heap st) copy_domains (history st).

Definition note (e : event) (st : State) : State :=
  mkState (heap st) (self_domains st) (history st ++ [e]).

(** ** backtrack *)

Definition search_result : Type := (option Assignment * Assignment * State)%type.

Section Search.
Variable c : Crossword.
(** The recursive call [self.backtrack(assignment)]. *)
Variable rec : State -> Assignment -> result search_result.

(** The loop [for word in var_words].  [assignment] is the content of the
    dict passed to [backtrack], which the loop mutates. *)
Fixpoint try_words (copy_domains : nat) (var : Var) (var_words : list string)
         (st : State) (assignment : Assignment) : result search_result :=
  match var_words with
  | [] => Ok (None, assignment, st)
  | word :: rest =>
      let st := note (Try assignment var word (deref st)) st in
      let assignment := dict_set var word assignment in
      let st := store (dict_set var [word] (deref st)) st in
      let arcs := get_arcs c var assignment in
      '(ok, d) <- ac3 c (Some arcs) (deref st) ;;
      let st := store d st in
      is_consistent <- consistent c assignment ;;
      '(result, assignment, st) <-
          (if (is_consistent : bool)
           then rec (note (Descend assignment ok) st) assignment
           else Ok (None, assignment, st)) ;;
      match result with
      | Some r => Ok (Some r, assignment, st)
      | None =>
          let st := rebind copy_domains st in
          assignment <- dict_pop var assignment ;;
          try_words copy_domains var rest st assignment
      end
  end.
End Search.

Fixpoint backtrack (c : Crossword) (fuel : nat) (st : State)
         (assignment : Assignment) : result search_result :=
  match fuel with
  | 0 => OutOfFuel
  | S fuel' =>
      if assignment_complete assignment (deref st)
      then Ok (Some assignment, assignment, st)
      else
        let st := note (Enter assignment (deref st)) st in
        let '(copy_domains, st) := deepcopy st in
        var <- select_unassigned_variable c assignment (deref st) ;;
        var_words <- order_domain_values c var assignment (deref st) ;;
        try_words c (backtrack c fuel') copy_domains var var_words st assignment
  end.

(** ** solve *)

Definition initial_state (d : Domains) : State := mkState [d] 0 [].

Definition solve (c : Crossword) : result (option Assignment * State) :=
  d <- enforce_node_consistency (init_domains c) ;;
  '(ok, d) <- ac3 c None d ;;
  if negb ok then Ok (None, initial_state d)
  else
    '(result, _, st) <-
        backtrack c (S (List.length (variables c))) (initial_state d) [] ;;
    Ok (result, st).

(** ** letter_grid

    [self.crossword.width] and [self.crossword.height] are attributes of the
    puzzle object of crossword.py; they are parameters here. *)

Definition grid : Type := list (list (option ascii)).

(** [[[None for _ in range(width)] for _ in range(height)]] *)
Definition blank_grid (width height : nat) : grid :=
  repeat (repeat None width) height.

(** [letters[i][j]], as a read. *)
Definition grid_get (letters : grid) (p : nat * nat) : option (option ascii) :=
  match nth_error letters (fst p) with
  | Some row => nth_error row (snd p)
  | None => None
  end.

(** [letters[i][j] = ch]: IndexError when the row or the column is missing. *)
Definition grid_set (p : nat * nat) (ch : ascii) (letters : grid) : result grid :=
  match nth_error letters (fst p) with
  | None => Raise IndexError
  | Some row =>
      if Nat.ltb (snd p) (List.length row)
      then Ok (list_set (fst p) (list_set (snd p) (Some ch) row) letters)
      else Raise IndexError
  end.

(** The cell of the [k]-th letter of a slot. *)
Definition cell (variable : Var) (k : nat) : nat * nat :=
  (var_i variable + match var_direction variable with DOWN => k | ACROSS => 0 end,
   var_j variable + match var_direction variable with ACROSS => k | DOWN => 0 end).

(** The loop [for k in range(len(word))], over the indices [ks]. *)
Fixpoint place_letters (variable : Var) (word : string) (ks : list nat)
         (letters : grid) : result grid :=
  match ks with
  | [] => Ok letters
  | k :: ks' =>
      ch <- str_index word k ;;
      letters' <- grid_set (cell variable k) ch letters ;;
      place_letters variable word ks' letters'
  end.

(** The loop [for variable, word in assignment.items()]. *)
Fixpoint place_words (items : Assignment) (letters : grid) : result grid :=
  match items with
  | [] => Ok letters
  | (variable, word) :: items' =>
      letters' <- place_letters variable word (seq 0 (String.length word)) letters ;;
      place_words items' letters'
  end.

Definition letter_grid (width height : nat) (assignment : Assignment)
  : result grid :=
  place_words assignment (blank_grid width height).

(** * Notions used in the statements *)

(** The overlap equality [wx[overlap[0]] == wy[overlap[1]]]. *)
Definition agree (overlap : nat * nat) (wx wy : string) : Prop :=
  exists ch, String.get (fst overlap) wx = Some ch
             /\ String.get (snd overlap) wy = Some ch.

Definition agreeb (overlap : nat * nat) (wx wy : string) : bool :=
  match String.get (fst overlap) wx, String.get (snd overlap) wy with
  | Some a, Some b => Ascii.eqb a b
  | _, _ => false
  end.

(** Some word of [dy] satisfies the overlap equality with [wx]. *)
Definition supported (overlap : nat * nat) (dy : wordset) (wx : string) : Prop :=
  exists wy, In wy dy /\ agree overlap wx wy.

Definition supportedb (overlap : nat * nat) (dy : wordset) (wx : string) : bool :=
  existsb (agreeb overlap wx) dy.

(** Every dict object of the heap has the slots of the puzzle as its keys,
    and [self.domains] refers to one of them. *)
Definition heap_ok (c : Crossword) (st : State) : Prop :=
  Forall (fun d : Domains => keys d = variables c) (heap st)
  /\ self_domains st < List.length (heap st).

(** A complete assignment that passes the assignment checker. *)
Definition solution (c : Crossword) (a : Assignment) : Prop :=
  NoDup (keys a)
  /\ incl (keys a) (variables c)
  /\ List.length (keys a) = List.length (variables c)
  /\ consistent c a = Ok true.

(** What a call of [backtrack] started in state [st] leaves behind. *)
Definition search_post (c : Crossword) (st : State) (a : Assignment)
           (out : search_result) : Prop :=
  let '(r, a', st') := out in
  heap_ok c st'
  /\ List.length (heap st) <= List.length (heap st')
  /\ match r with
     | None => a' = a
     | Some res => res = a' /\ solution c res
     end.

(** The shape of the [overlaps] dict that crossword.py builds: its keys are
    pairs of distinct slots of the puzzle, and the entry of [(y, x)] is the
    entry of [(x, y)] with the two offsets exchanged. *)
Definition well_formed (c : Crossword) : Prop :=
  (forall x y o, overlaps_get (x, y) (overlaps c) = Some o ->
                 In x (variables c) /\ In y (variables c) /\ x <> y)
  /\ (forall x y ov, overlaps_get (x, y) (overlaps c) = Some (Some ov) ->
                     overlaps_get (y, x) (overlaps c) = Some (Some (snd ov, fst ov))).

Definition overlap_eqb (a b : option (nat * nat)) : bool :=
  match a, b with
  | None, None => true
  | Some (a1, a2), Some (b1, b2) => Nat.eqb a1 b1 && Nat.eqb a2 b2
  | _, _ => false
  end.

Definition well_formedb (c : Crossword) : bool :=
  forallb (fun e : arc * option (nat * nat) =>
             let '((x, y), o) := e in
             existsb (var_eqb x) (variables c)
             && existsb (var_eqb y) (variables c)
             && negb (var_eqb x y)
             && match overlaps_get (y, x) (overlaps c) with
                | Some o' =>
                    overlap_eqb o' (match o with
                                    | Some ov => Some (snd ov, fst ov)
                                    | None => None
                                    end)
                | None => false
                end)
          (overlaps c).

(** Every word of the domain of [x] agrees, at the overlap, with some word
    of the domain of [y]. *)
Definition arc_consistent (d : Domains) (x y : Var) (ov : nat * nat) : Prop :=
  exists dx dy,
    dict_get x d = Some dx /\ dict_get y d = Some dy
    /\ forall wx, In wx dx -> supported ov dy wx.

(** The invariant of the [while queue] loop of [ac3]: an arc of the puzzle
    that is not waiting in the queue is consistent. *)
Definition ac3_inv (c : Crossword) (queue : list arc) (d : Domains) : Prop :=
  forall x y ov,
    overlaps_get (x, y) (overlaps c) = Some (Some ov) ->
    In (x, y) queue \/ arc_consistent d x y ov.

(** The queue holds keys of the [overlaps] dict only. *)
Definition queue_ok (c : Crossword) (queue : list arc) : Prop :=
  forall x y, In (x, y) queue ->
              exists o, overlaps_get (x, y) (overlaps c) = Some o.

(** The number of slots of the puzzle without a word in the assignment. *)
Definition unassigned (c : Crossword) (a : Assignment) : nat :=
  List.length (filter (fun v => negb (dict_mem v a)) (variables c)).

(** The number of words of [dn] that differ from [word] at the overlap. *)
Definition conflicts (ov : nat * nat) (word : string) (dn : wordset) : nat :=
  List.length (filter (fun w => negb (agreeb ov word w)) dn).

(** What one neighbour adds to the cost of [word] for [var]. *)
Definition neighbor_cost (c : Crossword) (d : Domains) (var : Var)
           (word : string) (neighbor : Var) : nat :=
  match dict_get neighbor d with
  | Some dn =>
      (if set_mem word dn then 1 else 0)
      + match overlaps_get (var, neighbor) (overlaps c) with
        | Some (Some ov) => conflicts ov word dn
        | _ => 0
        end
  | None => 0
  end.

(** Every word of every domain is a word of the vocabulary that has the
    length of its slot. *)
Definition node_consistent (c : Crossword) (d : Domains) : Prop :=
  forall v dv, dict_get v d = Some dv ->
    forall w, In w dv -> In w (words c) /\ String.length w = var_length v.

(** Every assigned word is a word of the vocabulary that has the length of
    its slot. *)
Definition fits (c : Crossword) (a : Assignment) : Prop :=
  forall v w, In (v, w) a -> In w (words c) /\ String.length w = var_length v.

(** The offsets of every overlap lie inside the two slots. *)
Definition offsets_ok (c : Crossword) : Prop :=
  forall x y ov, overlaps_get (x, y) (overlaps c) = Some (Some ov) ->
                 fst ov < var_length x /\ snd ov < var_length y.

Definition offsets_okb (c : Crossword) : bool :=
  forallb (fun e : arc * option (nat * nat) =>
             match e with
             | ((x, y), Some ov) =>
                 Nat.ltb (fst ov) (var_length x) && Nat.ltb (snd ov) (var_length y)
             | (_, None) => true
             end)
          (overlaps c).

(** Every row of the grid has [width] cells and there are [height] rows. *)
Definition rectangular (width height : nat) (g : grid) : Prop :=
  List.length g = height /\ forall row, In row g -> List.length row = width.

(** Some assigned word has the letter [ch] at the cell [p]. *)
Definition lettered (a : Assignment) (p : nat * nat) (ch : ascii) : Prop :=
  exists v word k,
    In (v, word) a /\ String.get k word = Some ch /\ cell v k = p.

(** The cells of [g] that differ from [g0] hold letters taken from [S]. *)
Definition painted (g0 g : grid) (S : nat * nat -> ascii -> Prop) : Prop :=
  forall p,
    (grid_get g p = grid_get g0 p /\ forall ch, ~ S p ch)
    \/ (exists ch, S p ch /\ grid_get g p = Some (Some ch)).

(** * Example puzzles *)

(** One slot of length 3 and a vocabulary without a word of that length. *)
Definition lone_slot : Var := mkVar 0 0 ACROSS 3.
Definition lone_puzzle : Crossword := mkCrossword [lone_slot] ["AB"] [].

(** Three slots of length 3 on a 3x3 grid whose cells (1,1) and (1,2) are
    blocked: [top] is row 0, [left] is column 0 and [bottom] is row 2.
    [left] crosses [top] in cell (0,0) and [bottom] in cell (2,0). *)
Definition top : Var := mkVar 0 0 ACROSS 3.
Definition left : Var := mkVar 0 0 DOWN 3.
Definition bottom : Var := mkVar 2 0 ACROSS 3.

Definition chain_overlaps : list (arc * option (nat * nat)) :=
  [ ((top, left), Some (0, 0)); ((top, bottom), None);
    ((left, top), Some (0, 0)); ((left, bottom), Some (2, 0));
    ((bottom, top), None); ((bottom, left), Some (0, 2)) ].

Definition chain_puzzle : Crossword :=
  mkCrossword [top; left; bottom] ["ABA"; "ACD"; "EFE"; "EGH"; "DIJ"]
              chain_overlaps.

(** The domains of [chain_puzzle] once [left] is narrowed to one word, and
    once it is emptied. *)
Definition chain_narrowed : Domains :=
  dict_set left ["ABA"] (init_domains chain_puzzle).
Definition chain_emptied : Domains :=
  dict_set left [] (init_domains chain_puzzle).

(** The domains of [chain_puzzle] when [solve] starts the search. *)
Definition chain_domains : Domains :=
  [ (top, ["ABA"; "ACD"; "EFE"; "EGH"]);
    (left, ["ABA"; "ACD"; "EFE"]);
    (bottom, ["ABA"; "ACD"; "EFE"; "EGH"; "DIJ"]) ].

(** Two crossing slots, [top] and [left], sharing the cell (0,0). *)
Definition cross_puzzle : Crossword :=
  mkCrossword [top; left] ["CAT"; "COW"; "DOG"]
              [ ((top, left), Some (0, 0)); ((left, top), Some (0, 0)) ].

(** The same two slots with a vocabulary that has no word of length 3. *)
Definition short_puzzle : Crossword :=
  mkCrossword [top; left] ["AB"]
              [ ((top, left), Some (0, 0)); ((left, top), Some (0, 0)) ].

(** A complete assignment of [chain_puzzle]. *)
Definition chain_solution : Assignment :=
  [ (left, "ACD"); (top, "ABA"); (bottom, "DIJ") ].

(** What the snapshot of the root node of the search on [chain_puzzle] holds
    when the third candidate is started. *)
Definition chain_spoiled : Domains :=
  [ (top, ["EGH"]); (left, ["EFE"]); (bottom, ["EGH"]) ].

(** Four slots around a ring, on a grid of 6 rows and 4 columns: [north] is
    row 0 (columns 0 to 2), [south] is row 2 (columns 0 to 3), [west] is
    column 0 (rows 0 to 4) and [east] is column 2 (rows 0 to 5).  Each row
    crosses each column. *)
Definition north : Var := mkVar 0 0 ACROSS 3.
Definition south : Var := mkVar 2 0 ACROSS 4.
Definition west : Var := mkVar 0 0 DOWN 5.
Definition east : Var := mkVar 0 2 DOWN 6.

Definition ring_overlaps : list (arc * option (nat * nat)) :=
  [ ((north, south), None); ((north, west), Some (0, 0));
    ((north, east), Some (2, 0));
    ((south, north), None); ((south, west), Some (0, 2));
    ((south, east), Some (2, 2));
    ((west, north), Some (0, 0)); ((west, south), Some (2, 0));
    ((west, east), None);
    ((east, north), Some (0, 2)); ((east, south), Some (2, 2));
    ((east, west), None) ].

Definition ring_puzzle : Crossword :=
  mkCrossword [north; south; west; east]
    ["AXB"; "CXD"; "EXHX"; "FXGX"; "AXEXX"; "CXFXX"; "BXGXXX"; "DXHXXX"]
    ring_overlaps.

(** The domains of [ring_puzzle] when [solve] starts the search. *)
Definition ring_domains : Domains :=
  [ (north, ["AXB"; "CXD"]); (south, ["EXHX"; "FXGX"]);
    (west, ["AXEXX"; "CXFXX"]); (east, ["BXGXXX"; "DXHXXX"]) ].

(** ** Iteration orders

    The order in which Python iterates over a set is not fixed by the
    program.  [perms l] lists every order of [l]. *)

Fixpoint insert_everywhere {A : Type} (a : A) (l : list A) : list (list A) :=
  match l with
  | [] => [[a]]
  | b :: l' => (a :: l) :: map (cons b) (insert_everywhere a l')
  end.

Fixpoint perms {A : Type} (l : list A) : list (list A) :=
  match l with
  | [] => [[]]
  | a :: l' => flat_map (insert_everywhere a) (perms l')
  end.

Definition reports_no_solution (c : Crossword) : bool :=
  match solve c with
  | Ok (None, _) => true
  | _ => false
  end.

(** * Properties *)

(** ** Equality of slots and arcs *)

Lemma direction_eqb_eq (a b : Direction) : direction_eqb a b = true <-> a = b.
Proof. destruct a, b; simpl; split; congruence. Qed.

Lemma var_eqb_eq (a b : Var) : var_eqb a b = true <-> a = b.
Proof.
  destruct a as [ai aj ad al], b as [bi bj bd bl]; unfold var_eqb; simpl.
  rewrite !andb_true_iff, !Nat.eqb_eq, direction_eqb_eq.
  split.
  - intros [[[-> ->] ->] ->]; reflexivity.
  - intros H; injection H; auto.
Qed.

Lemma var_eqb_refl (a : Var) : var_eqb a a = true.
Proof. apply var_eqb_eq; reflexivity. Qed.

Lemma var_eqb_neq (a b : Var) : var_eqb a b = false <-> a <> b.
Proof.
  rewrite <- var_eqb_eq. destruct (var_eqb a b); split; congruence.
Qed.

Lemma var_eqb_sym (a b : Var) : var_eqb a b = var_eqb b a.
Proof.
  destruct (var_eqb a b) eqn:E.
  - apply var_eqb_eq in E; subst; symmetry; apply var_eqb_refl.
  - apply var_eqb_neq in E. symmetry; apply var_eqb_neq; congruence.
Qed.

Lemma Var_eq_dec (a b : Var) : {a = b} + {a <> b}.
Proof.
  destruct (var_eqb a b) eqn:E.
  - left; apply var_eqb_eq; exact E.
  - right; apply var_eqb_neq; exact E.
Defined.

Lemma arc_eqb_eq (a b : arc) : arc_eqb a b = true <-> a = b.
Proof.
  destruct a as [a1 a2], b as [b1 b2]; unfold arc_eqb; simpl.
  rewrite andb_true_iff, !var_eqb_eq. split.
  - intros [-> ->]; reflexivity.
  - intros H; injection H; auto.
Qed.

Ltac var_cases a b :=
  let E := fresh "E" in
  destruct (var_eqb a b) eqn:E;
  [apply var_eqb_eq in E; try subst | apply var_eqb_neq in E].

(** ** Dictionaries *)

Section DictFacts.
Variable V : Type.
Implicit Types (d : dict V) (k : Var) (v : V).

Lemma dict_get_set_same k v d : dict_get k (dict_set k v d) = Some v.
Proof.
  induction d as [|[k' v'] d IH]; simpl.
  - rewrite var_eqb_refl; reflexivity.
  - destruct (var_eqb k k') eqn:E; simpl; rewrite E; auto.
Qed.

Lemma dict_get_set_other k k0 v d :
  k0 <> k -> dict_get k0 (dict_set k v d) = dict_get k0 d.
Proof.
  intros N. induction d as [|[k' v'] d IH]; simpl.
  - apply var_eqb_neq in N; rewrite N; reflexivity.
  - destruct (var_eqb k k') eqn:E; simpl.
    + apply var_eqb_eq in E; subst k'.
      apply var_eqb_neq in N; rewrite N; reflexivity.
    + rewrite IH; reflexivity.
Qed.

Lemma keys_dict_set_mem k v d :
  dict_mem k d = true -> keys (dict_set k v d) = keys d.
Proof.
  unfold keys, dict_mem.
  induction d as [|[k' v'] d IH]; simpl; [discriminate|].
  destruct (var_eqb k k') eqn:E; simpl; intros H; [reflexivity|].
  rewrite IH; auto.
Qed.

Lemma dict_set_fresh k v d :
  dict_mem k d = false -> dict_set k v d = d ++ [(k, v)].
Proof.
  unfold dict_mem.
  induction d as [|[k' v'] d IH]; simpl; [reflexivity|].
  destruct (var_eqb k k') eqn:E; simpl; [discriminate|].
  intros H; rewrite IH; auto.
Qed.

Lemma dict_pop_fresh k v d :
  dict_mem k d = false -> dict_pop k (d ++ [(k, v)]) = Ok d.
Proof.
  unfold dict_mem.
  induction d as [|[k' v'] d IH]; simpl.
  - rewrite var_eqb_refl; reflexivity.
  - destruct (var_eqb k k') eqn:E; simpl; [discriminate|].
    intros H; rewrite IH; auto.
Qed.

Lemma dict_mem_get k d : dict_mem k d = true <-> exists v, dict_get k d = Some v.
Proof.
  unfold dict_mem.
  induction d as [|[k' v'] d IH]; simpl.
  - split; [discriminate | intros [v H]; discriminate].
  - destruct (var_eqb k k'); simpl.
    + split; eauto.
    + exact IH.
Qed.

Lemma dict_mem_keys k d : dict_mem k d = true <-> In k (keys d).
Proof.
  unfold dict_mem, keys. rewrite existsb_exists, in_map_iff. split.
  - intros [[k' v] [I E]]; simpl in E. apply var_eqb_eq in E; subst.
    exists (k', v); auto.
  - intros [[k' v] [E I]]; simpl in E; subst.
    exists (k, v); split; auto. apply var_eqb_refl.
Qed.

Lemma dict_mem_false_keys k d : dict_mem k d = false <-> ~ In k (keys d).
Proof.
  rewrite <- dict_mem_keys. destruct (dict_mem k d); split; congruence.
Qed.

Lemma dict_get_in k v d : dict_get k d = Some v -> In (k, v) d.
Proof.
  induction d as [|[k' v'] d IH]; simpl; [discriminate|].
  var_cases k k'.
  - intros H; injection H as ->; auto.
  - auto.
Qed.

Lemma in_dict_get k v d : NoDup (keys d) -> In (k, v) d -> dict_get k d = Some v.
Proof.
  unfold keys.
  induction d as [|[k' v'] d IH]; simpl; [tauto|].
  intros ND [H|H].
  - injection H as -> ->. rewrite var_eqb_refl; reflexivity.
  - inversion ND as [|? ? NI ND']; subst.
    var_cases k k'.
    + exfalso; apply NI. apply in_map_iff. exists (k', v); auto.
    + auto.
Qed.
End DictFacts.

(** ** Word sets *)

Lemma set_mem_In (w : string) (s : wordset) : set_mem w s = true <-> In w s.
Proof.
  unfold set_mem. rewrite existsb_exists. split.
  - intros [v [I E]]. apply String.eqb_eq in E; subst; auto.
  - intros I; exists w; split; auto. apply String.eqb_refl.
Qed.

Lemma set_mem_false (w : string) (s : wordset) : set_mem w s = false <-> ~ In w s.
Proof.
  rewrite <- set_mem_In. destruct (set_mem w s); split; congruence.
Qed.

Lemma set_add_In (w v : string) (s : wordset) :
  In v (set_add w s) <-> v = w \/ In v s.
Proof.
  unfold set_add. destruct (set_mem w s) eqn:E.
  - apply set_mem_In in E. split; [auto|]. intros [->|H]; auto.
  - rewrite in_app_iff; simpl. split.
    + intros [H|[H|[]]]; auto.
    + intros [H|H]; auto.
Qed.

Lemma set_add_NoDup (w : string) (s : wordset) : NoDup s -> NoDup (set_add w s).
Proof.
  unfold set_add. destruct (set_mem w s) eqn:E; auto.
  apply set_mem_false in E. intros ND.
  apply NoDup_app; auto.
  - constructor; [simpl; tauto | constructor].
  - intros v Iv [<-|[]]. auto.
Qed.

Lemma remove_all_filter (rw : list string) (s s' : wordset) :
  remove_all rw s = Ok s' ->
  s' = filter (fun v => negb (set_mem v rw)) s.
Proof.
  revert s. induction rw as [|w rw IH]; simpl; intros s H.
  - injection H as <-. induction s; simpl; congruence.
  - unfold set_remove in H. destruct (set_mem w s); simpl in H; [|discriminate].
    apply IH in H. subst s'.
    clear. induction s as [|a s IHs]; simpl; [reflexivity|].
    destruct (String.eqb a w) eqn:E; simpl; [exact IHs|].
    destruct (set_mem a rw); simpl; [exact IHs | rewrite IHs; reflexivity].
Qed.

Lemma remove_all_ok (rw : list string) (s : wordset) :
  NoDup rw -> (forall w, In w rw -> In w s) ->
  exists s', remove_all rw s = Ok s'.
Proof.
  revert s. induction rw as [|w rw IH]; simpl; intros s ND Sub.
  - eauto.
  - inversion ND as [|? ? NI ND']; subst.
    unfold set_remove.
    destruct (set_mem w s) eqn:E.
    + simpl. apply IH; auto.
      intros v Iv. apply filter_In. split; [apply Sub; auto|].
      apply negb_true_iff. apply String.eqb_neq. intros ->; auto.
    + apply set_mem_false in E. exfalso; apply E, Sub; auto.
Qed.

(** ** revise *)

Lemma agreeb_agree (ov : nat * nat) (wx wy : string) :
  agreeb ov wx wy = true <-> agree ov wx wy.
Proof.
  unfold agreeb, agree.
  destruct (String.get (fst ov) wx) as [a|], (String.get (snd ov) wy) as [b|];
    split; try discriminate; try (intros [ch [H1 H2]]; discriminate).
  - intros E. apply Ascii.eqb_eq in E; subst; eauto.
  - intros [ch [H1 H2]]. apply Ascii.eqb_eq. congruence.
Qed.

Lemma supportedb_supported (ov : nat * nat) (dy : wordset) (wx : string) :
  supportedb ov dy wx = true <-> supported ov dy wx.
Proof.
  unfold supportedb, supported. rewrite existsb_exists.
  split; intros [wy [I A]]; exists wy; split; auto; apply agreeb_agree; auto.
Qed.

Lemma supportedb_not_supported (ov : nat * nat) (dy : wordset) (wx : string) :
  supportedb ov dy wx = false <-> ~ supported ov dy wx.
Proof.
  rewrite <- supportedb_supported.
  destruct (supportedb ov dy wx); split; congruence.
Qed.

Lemma revise_scan_count (wx : string) (ov : nat * nat) (ys : wordset) (n m : nat) :
  revise_scan wx ov ys n = Ok m ->
  if supportedb ov ys wx then m < n + List.length ys else m = n + List.length ys.
Proof.
  revert n. induction ys as [|wy ys IH]; simpl; intros n H.
  - injection H as <-. lia.
  - unfold str_index, agreeb in *.
    destruct (String.get (fst ov) wx) as [a|]; simpl in H; [|discriminate].
    destruct (String.get (snd ov) wy) as [b|]; simpl in H; [|discriminate].
    destruct (Ascii.eqb a b); simpl.
    + injection H as <-. lia.
    + apply IH in H. fold (supportedb ov ys wx).
      destruct (supportedb ov ys wx); lia.
Qed.

Lemma revise_scan_eqb (wx : string) (ov : nat * nat) (ys : wordset) (m : nat) :
  revise_scan wx ov ys 0 = Ok m ->
  Nat.eqb m (List.length ys) = negb (supportedb ov ys wx).
Proof.
  intros H. apply revise_scan_count in H.
  destruct (supportedb ov ys wx); simpl.
  - apply Nat.eqb_neq. lia.
  - apply Nat.eqb_eq. lia.
Qed.

(** What the outer loop of [revise] leaves in [remove_words] and [revised]. *)
Lemma revise_words_spec (d : Domains) (y : Var) (ov : nat * nat) (dy : wordset)
      (xs : list string) (rw rw' : wordset) (rv rv' : bool) :
  dict_get y d = Some dy ->
  revise_words d y ov xs rw rv = Ok (rw', rv') ->
  (forall w, In w rw' <-> In w rw \/ (In w xs /\ supportedb ov dy w = false))
  /\ rv' = rv || existsb (fun w => negb (supportedb ov dy w)) xs
  /\ (NoDup rw -> NoDup rw').
Proof.
  intros Hy. revert rw rv.
  induction xs as [|wx xs IH]; simpl; intros rw rv H.
  - injection H as <- <-. rewrite orb_false_r. repeat split; auto.
    + intros [?|[[] _]]; auto.
  - unfold dict_item in H. rewrite Hy in H; simpl in H.
    destruct (revise_scan wx ov dy 0) as [m| |] eqn:Es; simpl in H; try discriminate.
    apply revise_scan_eqb in Es. rewrite Es in H.
    destruct (supportedb ov dy wx) eqn:Esup; simpl in H.
    + apply IH in H. destruct H as (H1 & H2 & H3).
      repeat split; auto.
      * intros I. apply H1 in I. destruct I as [I|[I S]]; auto.
      * intros [I|[[<-|I] S]]; apply H1; auto. congruence.
    + apply IH in H. destruct H as (H1 & H2 & H3).
      repeat split.
      * intros I. apply H1 in I. destruct I as [I|[I S]]; auto.
        apply set_add_In in I. destruct I as [->|I]; auto.
      * intros [I|[[<-|I] S]]; apply H1; auto;
          left; apply set_add_In; auto.
      * rewrite H2. simpl. rewrite orb_true_r. reflexivity.
      * intros ND. apply H3, set_add_NoDup, ND.
Qed.

Lemma filter_all {A : Type} (f : A -> bool) (l : list A) :
  (forall a, In a l -> f a = true) -> filter f l = l.
Proof.
  induction l as [|a l IH]; simpl; intros H; [reflexivity|].
  rewrite (H a) by auto. rewrite IH; auto.
Qed.

(** The result of [revise], whenever it returns. *)
Lemma revise_spec (c : Crossword) (x y : Var) (d d' : Domains) (revised : bool)
      (dx dy : wordset) :
  revise c x y d = Ok (revised, d') ->
  dict_get x d = Some dx -> dict_get y d = Some dy ->
  match overlaps_get (x, y) (overlaps c) with
  | Some (Some ov) =>
      let dx' := filter (supportedb ov dy) dx in
      revised = existsb (fun w => negb (supportedb ov dy w)) dx
      /\ (d' = d /\ dx' = dx \/ d' = dict_set x dx' d /\ dx' <> dx)
  | _ => revised = false /\ d' = d
  end.
Proof.
  unfold revise, overlaps_item. intros H Hx Hy.
  destruct (overlaps_get (x, y) (overlaps c)) as [[ov|]|]; simpl in H;
    try discriminate.
  2:{ injection H as <- <-; auto. }
  unfold dict_item in H. rewrite Hx in H; simpl in H.
  destruct (revise_words d y ov dx [] false) as [[rw rv]| |] eqn:Ew;
    simpl in H; try discriminate.
  destruct (revise_words_spec _ _ _ _ _ _ Hy Ew) as (H1 & H2 & H3).
  simpl in H2. subst rv.
  destruct rw as [|w0 rw].
  - injection H as <- <-. split; [reflexivity|]. left; split; auto.
    apply filter_all. intros a Ia.
    destruct (supportedb ov dy a) eqn:E; auto.
    exfalso. apply (proj2 (H1 a)). right; auto.
  - destruct (remove_all (w0 :: rw) dx) as [dx'| |] eqn:Er; simpl in H;
      try discriminate.
    injection H as <- <-. split; [reflexivity|].
    apply remove_all_filter in Er.
    assert (Eq : dx' = filter (supportedb ov dy) dx).
    { subst dx'. apply filter_ext_in. intros a Ia.
      destruct (set_mem a (w0 :: rw)) eqn:Em.
      - apply set_mem_In in Em. apply H1 in Em.
        destruct Em as [[]|[_ S]]. rewrite S; reflexivity.
      - apply set_mem_false in Em.
        destruct (supportedb ov dy a) eqn:S; auto.
        exfalso; apply Em, H1; auto. }
    right. rewrite <- Eq. split; auto.
    intros ->.
    assert (I0 : In w0 (w0 :: rw)) by (left; reflexivity).
    apply H1 in I0. destruct I0 as [[]|[I0 S0]].
    rewrite Eq in I0 at 1. apply filter_In in I0. destruct I0; congruence.
Qed.

(** C7. Contract of [revise x y] on distinct slots, whenever it returns: the
    words left in the domain of [x] are exactly the words it had that agree
    with some word of the domain of [y] at the overlap; the result is [True]
    exactly when a word was removed; without an overlap nothing changes and
    the result is [False]; the domain of [y] and of every slot other than
    [x] is unchanged. *)
Theorem revise_contract (c : Crossword) (x y : Var) (d d' : Domains)
        (revised : bool) (dx dy : wordset) :
  x <> y ->
  dict_get x d = Some dx -> dict_get y d = Some dy ->
  revise c x y d = Ok (revised, d') ->
  exists dx',
    dict_get x d' = Some dx'
    /\ dict_get y d' = Some dy
    /\ (forall z, z <> x -> dict_get z d' = dict_get z d)
    /\ (revised = true <-> exists w, In w dx /\ ~ In w dx')
    /\ match overlaps_get (x, y) (overlaps c) with
       | Some (Some ov) => forall w, In w dx' <-> In w dx /\ supported ov dy w
       | _ => d' = d /\ revised = false
       end.
Proof.
  intros Nxy Hx Hy H.
  pose proof (revise_spec _ _ _ _ H Hx Hy) as S.
  destruct (overlaps_get (x, y) (overlaps c)) as [[ov|]|].
  - cbv zeta in S. destruct S as [Hr Hd].
    exists (filter (supportedb ov dy) dx).
    assert (Hx' : dict_get x d' = Some (filter (supportedb ov dy) dx)).
    { destruct Hd as [[-> ->]|[-> _]]; auto using dict_get_set_same. }
    assert (Hz : forall z, z <> x -> dict_get z d' = dict_get z d).
    { intros z Nz. destruct Hd as [[-> _]|[-> _]]; auto using dict_get_set_other. }
    split; [exact Hx'|]. split; [rewrite Hz; auto|]. split; [exact Hz|].
    split.
    + rewrite Hr, existsb_exists. split.
      * intros [w [I S]].
        exists w; split; auto. rewrite filter_In. intros [_ S'].
        rewrite S' in S; discriminate.
      * intros [w [I NI]].
        exists w; split; auto. rewrite filter_In in NI.
        destruct (supportedb ov dy w); auto; exfalso; auto.
    + intros w. rewrite filter_In, supportedb_supported. tauto.
  - destruct S as [-> ->]. exists dx.
    split; [exact Hx|]. split; [exact Hy|]. split; [reflexivity|].
    split; [|auto]. split; [discriminate|].
    intros [w [I NI]]; contradiction.
  - destruct S as [-> ->]. exists dx.
    split; [exact Hx|]. split; [exact Hy|]. split; [reflexivity|].
    split; [|auto]. split; [discriminate|].
    intros [w [I NI]]; contradiction.
Qed.

Lemma revise_contract_witness :
  revise chain_puzzle top left chain_narrowed
  = Ok (true, dict_set top ["ABA"; "ACD"] chain_narrowed)
  /\ exists dx',
      dict_get top (dict_set top ["ABA"; "ACD"] chain_narrowed) = Some dx'
      /\ dict_get left (dict_set top ["ABA"; "ACD"] chain_narrowed) = Some ["ABA"]
      /\ (forall z, z <> top ->
                    dict_get z (dict_set top ["ABA"; "ACD"] chain_narrowed)
                    = dict_get z chain_narrowed)
      /\ (true = true <->
          exists w, In w ["ABA"; "ACD"; "EFE"; "EGH"; "DIJ"] /\ ~ In w dx')
      /\ (forall w, In w dx' <->
                    In w ["ABA"; "ACD"; "EFE"; "EGH"; "DIJ"]
                    /\ supported (0, 0) ["ABA"] w).
Proof.
  split; [vm_compute; reflexivity|].
  apply (@revise_contract chain_puzzle top left chain_narrowed
           (dict_set top ["ABA"; "ACD"] chain_narrowed) true
           ["ABA"; "ACD"; "EFE"; "EGH"; "DIJ"] ["ABA"]).
  - discriminate.
  - reflexivity.
  - reflexivity.
  - vm_compute. reflexivity.
Defined.

(** C9. For slots [x], [y] with an overlap, an empty domain of [y] and a
    non-empty domain of [x], [revise x y] empties the domain of [x] and
    returns [True]. *)
Theorem revise_empty_neighbor (c : Crossword) (x y : Var) (d : Domains)
        (ov : nat * nat) (dx : wordset) :
  overlaps_get (x, y) (overlaps c) = Some (Some ov) ->
  dict_get y d = Some [] ->
  dict_get x d = Some dx -> dx <> [] ->
  exists d', revise c x y d = Ok (true, d') /\ dict_get x d' = Some [].
Proof.
  intros Ho Hy Hx Ne.
  assert (W : forall xs rw rv,
             revise_words d y ov xs rw rv
             = Ok (fold_left (fun acc w => set_add w acc) xs rw,
                   match xs with [] => rv | _ => true end)).
  { induction xs as [|w xs IH]; simpl; intros rw rv; [reflexivity|].
    unfold dict_item. rewrite Hy. simpl. rewrite IH.
    destruct xs; reflexivity. }
  unfold revise, overlaps_item. rewrite Ho. simpl.
  unfold dict_item. rewrite Hx. simpl. rewrite W. simpl.
  set (rw := fold_left (fun acc w => set_add w acc) dx []).
  assert (Hin : forall xs rw0 w,
             In w (fold_left (fun acc w => set_add w acc) xs rw0)
             <-> In w rw0 \/ In w xs).
  { induction xs as [|a xs IH]; simpl; intros rw0 w; [tauto|].
    rewrite IH, set_add_In. intuition auto. }
  assert (Hnd : forall xs rw0,
             NoDup rw0 -> NoDup (fold_left (fun acc w => set_add w acc) xs rw0)).
  { induction xs as [|a xs IH]; simpl; intros rw0 ND; auto.
    apply IH, set_add_NoDup, ND. }
  assert (Hrw : forall w, In w rw <-> In w dx).
  { intros w. unfold rw. rewrite Hin. simpl. tauto. }
  destruct (@remove_all_ok rw dx) as [dx' Er].
  { apply Hnd. constructor. }
  { intros w; apply Hrw. }
  assert (E' : dx' = []).
  { apply remove_all_filter in Er. subst dx'.
    destruct (filter (fun v => negb (set_mem v rw)) dx) as [|a l] eqn:F; auto.
    assert (I : In a (a :: l)) by (left; reflexivity).
    rewrite <- F in I. apply filter_In in I. destruct I as [I M].
    apply negb_true_iff, set_mem_false in M. exfalso; apply M, Hrw, I. }
  subst dx'.
  destruct rw as [|w0 rw0] eqn:Erw.
  - destruct dx as [|a dx]; [congruence|].
    exfalso. apply (proj2 (Hrw a)). left; reflexivity.
  - rewrite Er. simpl. destruct dx as [|a dx]; [congruence|].
    eexists; split; [reflexivity|]. apply dict_get_set_same.
Qed.

Lemma revise_empty_neighbor_witness :
  exists d',
    revise chain_puzzle top left chain_emptied = Ok (true, d')
    /\ dict_get top d' = Some [].
Proof.
  apply (@revise_empty_neighbor chain_puzzle top left chain_emptied (0, 0)
           ["ABA"; "ACD"; "EFE"; "EGH"; "DIJ"]).
  - reflexivity.
  - reflexivity.
  - reflexivity.
  - discriminate.
Defined.

(** ** select_unassigned_variable *)

Lemma first_min_spec {A : Type} (key : A -> nat) (l : list A) (best : A) :
  In (first_min key best l) (best :: l)
  /\ forall a, In a (best :: l) -> key (first_min key best l) <= key a.
Proof.
  revert best. induction l as [|x l IH]; simpl; intros best.
  - split; [auto|]. intros a [<-|[]]; lia.
  - destruct (IH (if Nat.ltb (key x) (key best) then x else best)) as [I M].
    split.
    + destruct I as [I|I]; auto.
      destruct (Nat.ltb (key x) (key best)); auto.
    + intros a Ia.
      assert (Hb : key (first_min key (if Nat.ltb (key x) (key best) then x else best) l)
                   <= key (if Nat.ltb (key x) (key best) then x else best))
        by (apply M; left; reflexivity).
      destruct Ia as [<-|[<-|Ia]].
      * destruct (Nat.ltb_spec (key x) (key best)); lia.
      * destruct (Nat.ltb_spec (key x) (key best)); lia.
      * apply M; right; exact Ia.
Qed.

Lemma first_max_spec {A : Type} (key : A -> nat) (l : list A) (best : A) :
  In (first_max key best l) (best :: l)
  /\ forall a, In a (best :: l) -> key a <= key (first_max key best l).
Proof.
  revert best. induction l as [|x l IH]; simpl; intros best.
  - split; [auto|]. intros a [<-|[]]; lia.
  - destruct (IH (if Nat.ltb (key best) (key x) then x else best)) as [I M].
    split.
    + destruct I as [I|I]; auto.
      destruct (Nat.ltb (key best) (key x)); auto.
    + intros a Ia.
      assert (Hb : key (if Nat.ltb (key best) (key x) then x else best)
                   <= key (first_max key (if Nat.ltb (key best) (key x) then x else best) l))
        by (apply M; left; reflexivity).
      destruct Ia as [<-|[<-|Ia]].
      * destruct (Nat.ltb_spec (key best) (key x)); lia.
      * destruct (Nat.ltb_spec (key best) (key x)); lia.
      * apply M; right; exact Ia.
Qed.

Lemma py_min_spec {A : Type} (key : A -> nat) (l : list A) (m : A) :
  py_min key l = Ok m -> In m l /\ forall a, In a l -> key m <= key a.
Proof.
  destruct l as [|x l]; simpl; [discriminate|].
  intros H; injection H as <-. apply first_min_spec.
Qed.

Lemma py_max_spec {A : Type} (key : A -> nat) (l : list A) (m : A) :
  py_max key l = Ok m -> In m l /\ forall a, In a l -> key a <= key m.
Proof.
  destruct l as [|x l]; simpl; [discriminate|].
  intros H; injection H as <-. apply first_max_spec.
Qed.

(** What [select_unassigned_variable] returns, whenever it returns. *)
Lemma select_unassigned_variable_spec (c : Crossword) (a : Assignment)
      (d : Domains) (var : Var) :
  select_unassigned_variable c a d = Ok var ->
  exists dv,
    In (var, dv) d
    /\ dict_mem var a = false
    /\ (forall u du, In (u, du) d -> dict_mem u a = false ->
                     List.length dv <= List.length du)
    /\ (forall u du, In (u, du) d -> dict_mem u a = false ->
                     List.length du = List.length dv ->
                     List.length (neighbors c u) <= List.length (neighbors c var)).
Proof.
  unfold select_unassigned_variable.
  set (un := filter (fun kv => negb (dict_mem (fst kv) a)) d).
  destruct (py_min (fun kv => List.length (snd kv)) un) as [lowest| |] eqn:Em;
    simpl; try discriminate.
  apply py_min_spec in Em. destruct Em as [Il Ml].
  set (un' := filter (fun kv => Nat.eqb (List.length (snd kv))
                                        (List.length (snd lowest))) un).
  intros Hmax. apply py_max_spec in Hmax. destruct Hmax as [Iv Mv].
  unfold keys in Iv. apply in_map_iff in Iv.
  destruct Iv as [[var' dv] [Ev Iv]]. simpl in Ev. subst var'.
  apply filter_In in Iv. destruct Iv as [Iv Lv]. simpl in Lv.
  apply Nat.eqb_eq in Lv.
  apply filter_In in Iv. destruct Iv as [Iv Av]. simpl in Av.
  apply negb_true_iff in Av.
  exists dv. split; [exact Iv|]. split; [exact Av|]. split.
  - intros u du Iu Au. rewrite Lv.
    apply (Ml (u, du)). apply filter_In. split; auto.
    simpl. rewrite Au. reflexivity.
  - intros u du Iu Au Lu.
    apply (Mv u). unfold keys. apply in_map_iff.
    exists (u, du). split; [reflexivity|].
    apply filter_In. split.
    + apply filter_In. split; auto. simpl. rewrite Au. reflexivity.
    + simpl. apply Nat.eqb_eq. congruence.
Qed.

Lemma select_unassigned_variable_returns (c : Crossword) (a : Assignment)
      (d : Domains) (v : Var) :
  In v (keys d) -> dict_mem v a = false ->
  exists var, select_unassigned_variable c a d = Ok var.
Proof.
  intros Iv Av.
  unfold select_unassigned_variable.
  set (un := filter (fun kv => negb (dict_mem (fst kv) a)) d).
  assert (Hne : un <> []).
  { unfold keys in Iv. apply in_map_iff in Iv. destruct Iv as [[v' dv] [E I]].
    simpl in E; subst v'.
    assert (In (v, dv) un).
    { apply filter_In. split; auto. simpl. rewrite Av. reflexivity. }
    intros E; rewrite E in H; contradiction. }
  destruct (py_min (fun kv => List.length (snd kv)) un) as [lowest| |] eqn:Em.
  - simpl. apply py_min_spec in Em. destruct Em as [Il _].
    match goal with |- context [py_max _ (keys ?l)] => set (un' := l) end.
    assert (I' : In lowest un').
    { apply filter_In. split; auto. apply Nat.eqb_refl. }
    destruct (keys un') as [|k ks] eqn:Ek.
    + unfold keys in Ek. destruct un'; [contradiction|discriminate].
    + simpl. eauto.
  - destruct un; [congruence|discriminate].
  - destruct un; discriminate.
Qed.

(** C8. For an incomplete assignment, [select_unassigned_variable] returns a
    slot that is not assigned, whose domain is no larger than the domain of
    any unassigned slot and, among the unassigned slots whose domain has that
    least size, has the most neighbours. *)
Theorem select_unassigned_variable_mrv_degree (c : Crossword) (a : Assignment)
        (d : Domains) :
  NoDup (keys d) ->
  (exists v, In v (keys d) /\ dict_mem v a = false) ->
  exists var dv,
    select_unassigned_variable c a d = Ok var
    /\ dict_mem var a = false
    /\ dict_get var d = Some dv
    /\ (forall u du, dict_get u d = Some du -> dict_mem u a = false ->
                     List.length dv <= List.length du)
    /\ (forall u du, dict_get u d = Some du -> dict_mem u a = false ->
                     List.length du = List.length dv ->
                     List.length (neighbors c u) <= List.length (neighbors c var)).
Proof.
  intros ND [v [Iv Av]].
  destruct (select_unassigned_variable_returns c a d v Iv Av) as [var Hs].
  destruct (select_unassigned_variable_spec _ _ _ Hs) as (dv & I & A & M & G).
  exists var, dv. split; [exact Hs|]. split; [exact A|].
  split; [apply in_dict_get; auto|]. split.
  - intros u du Hu Au. apply (M u du); auto using dict_get_in.
  - intros u du Hu Au Lu. apply (G u du); auto using dict_get_in.
Qed.

Lemma select_unassigned_variable_mrv_degree_witness :
  exists var dv,
    select_unassigned_variable chain_puzzle [] chain_domains = Ok var
    /\ dict_mem var ([] : Assignment) = false
    /\ dict_get var chain_domains = Some dv
    /\ (forall u du, dict_get u chain_domains = Some du ->
                     dict_mem u ([] : Assignment) = false ->
                     List.length dv <= List.length du)
    /\ (forall u du, dict_get u chain_domains = Some du ->
                     dict_mem u ([] : Assignment) = false ->
                     List.length du = List.length dv ->
                     List.length (neighbors chain_puzzle u)
                     <= List.length (neighbors chain_puzzle var)).
Proof.
  apply (@select_unassigned_variable_mrv_degree chain_puzzle [] chain_domains).
  - repeat constructor; simpl; intuition discriminate.
  - exists top. split; [left; reflexivity | reflexivity].
Defined.

(** ** Keys of the domain store *)

Ltac bind_case H :=
  match type of H with
  | bind ?m _ = _ =>
      let E := fresh "E" in
      destruct m eqn:E; simpl in H; try discriminate
  end.

Lemma revise_keys (c : Crossword) (x y : Var) (d d' : Domains) (revised : bool) :
  revise c x y d = Ok (revised, d') -> keys d' = keys d.
Proof.
  unfold revise. intros H.
  bind_case H. destruct a as [ov|]; [|injection H as _ <-; reflexivity].
  bind_case H. bind_case H. destruct a0 as [rw rv].
  destruct rw as [|w rw]; [injection H as _ <-; reflexivity|].
  bind_case H. injection H as _ <-.
  apply keys_dict_set_mem. apply dict_mem_get.
  unfold dict_item in E0. destruct (dict_get x d); [eauto|discriminate].
Qed.

Lemma ac3_loop_keys (c : Crossword) (fuel : nat) (queue : list arc)
      (d d' : Domains) (ok : bool) :
  ac3_loop c fuel queue d = Ok (ok, d') -> keys d' = keys d.
Proof.
  revert queue d. induction fuel as [|fuel IH]; intros queue d H.
  - destruct queue as [|[x y] q]; simpl in H; [|discriminate].
    injection H as _ <-; reflexivity.
  - destruct queue as [|[x y] q]; simpl in H.
    + injection H as _ <-; reflexivity.
    + bind_case H. destruct a as [revised d1].
      apply revise_keys in E.
      destruct revised.
      * bind_case H. destruct a as [|w dx].
        -- injection H as _ <-; exact E.
        -- apply IH in H. congruence.
      * apply IH in H. congruence.
Qed.

Lemma ac3_keys (c : Crossword) (arcs : option (list arc)) (d d' : Domains)
      (ok : bool) :
  ac3 c arcs d = Ok (ok, d') -> keys d' = keys d.
Proof. unfold ac3. apply ac3_loop_keys. Qed.

Lemma enforce_items_keys (todo d d' : Domains) :
  incl (keys todo) (keys d) ->
  enforce_items todo d = Ok d' -> keys d' = keys d.
Proof.
  revert d. induction todo as [|[var domain] todo IH]; simpl; intros d Sub H.
  - injection H as <-; reflexivity.
  - bind_case H.
    assert (K : keys (dict_set var a d) = keys d).
    { apply keys_dict_set_mem, dict_mem_keys, Sub. left; reflexivity. }
    apply IH in H.
    + congruence.
    + rewrite K. intros k Ik. apply Sub. right; exact Ik.
Qed.

Lemma enforce_node_consistency_keys (d d' : Domains) :
  enforce_node_consistency d = Ok d' -> keys d' = keys d.
Proof. apply enforce_items_keys. apply incl_refl. Qed.

(** ** The heap *)

Lemma list_set_length {A : Type} (n : nat) (a : A) (l : list A) :
  List.length (list_set n a l) = List.length l.
Proof.
  revert n. induction l as [|b l IH]; intros [|n]; simpl; auto.
Qed.

Lemma list_set_Forall {A : Type} (P : A -> Prop) (n : nat) (a : A) (l : list A) :
  P a -> Forall P l -> Forall P (list_set n a l).
Proof.
  intros Pa F. revert n. induction F as [|b l Pb F IH]; intros [|n]; simpl; auto.
Qed.

Lemma nth_list_set {A : Type} (n : nat) (a dflt : A) (l : list A) :
  n < List.length l -> nth n (list_set n a l) dflt = a.
Proof.
  revert n. induction l as [|b l IH]; intros [|n]; simpl; intros L;
    try lia; auto. apply IH; lia.
Qed.

Lemma heap_ok_deref (c : Crossword) (st : State) :
  heap_ok c st -> keys (deref st) = variables c.
Proof.
  intros [F L]. unfold deref.
  rewrite Forall_forall in F. apply F. apply nth_In. exact L.
Qed.

Lemma heap_ok_note (c : Crossword) (e : event) (st : State) :
  heap_ok c st -> heap_ok c (note e st).
Proof. intros [F L]; split; simpl; auto. Qed.

Lemma heap_ok_store (c : Crossword) (d : Domains) (st : State) :
  keys d = variables c -> heap_ok c st -> heap_ok c (store d st).
Proof.
  intros K [F L]; split; simpl.
  - apply list_set_Forall; auto.
  - rewrite list_set_length; exact L.
Qed.

Lemma deref_store (d : Domains) (st : State) :
  self_domains st < List.length (heap st) -> deref (store d st) = d.
Proof. intros L. unfold deref, store; simpl. apply nth_list_set; exact L. Qed.

Lemma heap_ok_deepcopy (c : Crossword) (st : State) :
  heap_ok c st -> heap_ok c (snd (deepcopy st)).
Proof.
  intros H. pose proof (heap_ok_deref H) as K. destruct H as [F L].
  split; simpl.
  - apply Forall_app; split; auto.
  - rewrite length_app; simpl; lia.
Qed.

Lemma deref_deepcopy (st : State) :
  self_domains st < List.length (heap st) ->
  deref (snd (deepcopy st)) = deref st.
Proof. intros L. unfold deref; simpl. apply app_nth1; exact L. Qed.

Lemma heap_ok_rebind (c : Crossword) (copy_domains : nat) (st : State) :
  copy_domains < List.length (heap st) ->
  heap_ok c st -> heap_ok c (rebind copy_domains st).
Proof. intros L [F _]; split; simpl; auto. Qed.

(** ** The assignment checker *)

Lemma nodup_length_le (l : list string) :
  List.length (nodup string_dec l) <= List.length l.
Proof.
  induction l as [|a l IH]; simpl; [lia|].
  destruct (in_dec string_dec a l); simpl; lia.
Qed.

Lemma nodup_length_NoDup (l : list string) :
  List.length (nodup string_dec l) = List.length l -> NoDup l.
Proof.
  induction l as [|a l IH]; simpl; intros H; [constructor|].
  pose proof (nodup_length_le l) as Le.
  destruct (in_dec string_dec a l) as [I|NI]; simpl in H; [lia|].
  constructor; auto.
Qed.

Lemma consistent_neighbors_spec (c : Crossword) (a : Assignment) (v1 : Var)
      (ns : list Var) :
  consistent_neighbors c a v1 ns = Ok true ->
  forall v2, In v2 ns -> dict_mem v2 a = true ->
    exists ov w1 w2,
      overlaps_get (v1, v2) (overlaps c) = Some (Some ov)
      /\ dict_get v1 a = Some w1 /\ dict_get v2 a = Some w2
      /\ agree ov w1 w2.
Proof.
  induction ns as [|n ns IH]; simpl; intros H v2 I M; [contradiction|].
  destruct (dict_mem n a) eqn:Mn.
  - unfold overlaps_item, dict_item, str_index in H.
    destruct (overlaps_get (v1, n) (overlaps c)) as [o|] eqn:Eo;
      simpl in H; [|discriminate].
    destruct (dict_get v1 a) as [w1|] eqn:E1; simpl in H; [|discriminate].
    destruct o as [ov|]; [|discriminate].
    destruct (String.get (fst ov) w1) as [c1|] eqn:G1; simpl in H; [|discriminate].
    destruct (dict_get n a) as [w2|] eqn:E2; simpl in H; [|discriminate].
    destruct (String.get (snd ov) w2) as [c2|] eqn:G2; simpl in H; [|discriminate].
    destruct (Ascii.eqb c1 c2) eqn:Ec; [|discriminate].
    destruct I as [<-|I]; [|auto].
    exists ov, w1, w2. repeat split; auto.
    exists c1. apply Ascii.eqb_eq in Ec. subst; auto.
  - destruct I as [<-|I]; [congruence | auto].
Qed.

Lemma consistent_items_spec (c : Crossword) (a items : Assignment) :
  consistent_items c a items = Ok true ->
  forall v1 w, In (v1, w) items ->
    consistent_neighbors c a v1 (neighbors c v1) = Ok true.
Proof.
  induction items as [|[k w0] items IH]; simpl; intros H v1 w I; [contradiction|].
  destruct (consistent_neighbors c a k (neighbors c k)) as [b| |] eqn:E;
    simpl in H; try discriminate.
  destruct b; [|discriminate].
  destruct I as [I|I]; [injection I as <- <-; exact E | eauto].
Qed.

(** What a passed check guarantees. *)
Lemma consistent_spec (c : Crossword) (a : Assignment) :
  consistent c a = Ok true ->
  NoDup (values a)
  /\ forall v1 v2, dict_mem v1 a = true -> In v2 (neighbors c v1) ->
       dict_mem v2 a = true ->
       exists ov w1 w2,
         overlaps_get (v1, v2) (overlaps c) = Some (Some ov)
         /\ dict_get v1 a = Some w1 /\ dict_get v2 a = Some w2
         /\ agree ov w1 w2.
Proof.
  unfold consistent. intros H.
  destruct (Nat.eqb (List.length (values a))
                    (List.length (nodup string_dec (values a)))) eqn:El;
    simpl in H; [|discriminate].
  apply Nat.eqb_eq in El. split.
  - apply nodup_length_NoDup. auto.
  - intros v1 v2 M1 I M2.
    apply dict_mem_get in M1. destruct M1 as [w1 G1].
    apply dict_get_in in G1.
    eapply consistent_neighbors_spec; eauto.
    eapply consistent_items_spec; eauto.
Qed.

Lemma NoDup_values_key (a : Assignment) (v1 v2 : Var) (w : string) :
  NoDup (values a) -> In (v1, w) a -> In (v2, w) a -> v1 = v2.
Proof.
  unfold values. induction a as [|[k w0] a IH]; simpl; intros ND I1 I2;
    [contradiction|].
  inversion ND as [|? ? NI ND']; subst.
  destruct I1 as [I1|I1], I2 as [I2|I2].
  - congruence.
  - injection I1 as <- <-. exfalso; apply NI.
    apply in_map_iff. exists (v2, w0); auto.
  - injection I2 as <- <-. exfalso; apply NI.
    apply in_map_iff. exists (v1, w0); auto.
  - auto.
Qed.

(** ** The search *)

Lemma try_words_rollback (c : Crossword)
      (rec : State -> Assignment -> result search_result)
      (copy_domains : nat) (var : Var) (var_words : list string) :
  (forall st a a' st', rec st a = Ok (None, a', st') -> a' = a) ->
  forall st a a' st',
    dict_mem var a = false ->
    try_words c rec copy_domains var var_words st a = Ok (None, a', st') ->
    a' = a.
Proof.
  intros Hrec. induction var_words as [|word rest IH]; intros st a a' st' Fr H.
  - simpl in H. injection H as <- _. reflexivity.
  - simpl in H.
    bind_case H. destruct a0 as [ok d].
    bind_case H.
    bind_case H. destruct a1 as [[r a2] st2].
    assert (E2 : r = None -> a2 = dict_set var word a).
    { intros ->. destruct a0.
      - apply Hrec in E1. exact E1.
      - injection E1 as <- _. reflexivity. }
    destruct r as [res|]; [discriminate|].
    rewrite (E2 eq_refl) in H.
    rewrite dict_set_fresh in H by exact Fr.
    rewrite dict_pop_fresh in H by exact Fr.
    simpl in H. eapply IH; eauto.
Qed.

(** C10. When [backtrack] returns [None], the assignment dict holds exactly
    the entries it held on entry. *)
Theorem backtrack_failure_restores_assignment (c : Crossword) (fuel : nat)
        (st st' : State) (a a' : Assignment) :
  backtrack c fuel st a = Ok (None, a', st') -> a' = a.
Proof.
  revert st st' a a'. induction fuel as [|fuel IH]; intros st st' a a' H.
  - discriminate.
  - simpl in H.
    destruct (assignment_complete a (deref st)); [discriminate|].
    bind_case H. bind_case H.
    apply select_unassigned_variable_spec in E.
    destruct E as (dv & _ & Fr & _).
    eapply try_words_rollback; eauto.
Qed.

Lemma backtrack_failure_restores_assignment_witness :
  exists a' st',
    backtrack chain_puzzle 4 (initial_state chain_domains) [] = Ok (None, a', st')
    /\ a' = [].
Proof.
  eexists. eexists. split.
  - vm_compute. reflexivity.
  - eapply (@backtrack_failure_restores_assignment chain_puzzle 4
              (initial_state chain_domains)).
    vm_compute. reflexivity.
Defined.

Lemma keys_app {V : Type} (d1 d2 : dict V) : keys (d1 ++ d2) = keys d1 ++ keys d2.
Proof. unfold keys. apply map_app. Qed.

Lemma try_words_post (c : Crossword)
      (rec : State -> Assignment -> result search_result)
      (copy_domains : nat) (var : Var) (var_words : list string) :
  (forall st a out,
      heap_ok c st -> NoDup (keys a) -> incl (keys a) (variables c) ->
      consistent c a = Ok true ->
      rec st a = Ok out -> search_post c st a out) ->
  In var (variables c) ->
  forall st a out,
    heap_ok c st -> copy_domains < List.length (heap st) ->
    NoDup (keys a) -> incl (keys a) (variables c) ->
    dict_mem var a = false ->
    try_words c rec copy_domains var var_words st a = Ok out ->
    search_post c st a out.
Proof.
  intros Hrec Iv.
  induction var_words as [|word rest IH]; intros st a out Hst Hc ND Sub Fr H.
  - simpl in H. injection H as <-. simpl.
    split; [exact Hst|]. split; [lia | reflexivity].
  - simpl in H.
    set (st1 := note (Try a var word (deref st)) st) in *.
    set (st2 := store (dict_set var [word] (deref st1)) st1) in *.
    assert (Hst1 : heap_ok c st1) by (apply heap_ok_note; exact Hst).
    assert (K1 : keys (dict_set var [word] (deref st1)) = variables c).
    { rewrite keys_dict_set_mem; [apply heap_ok_deref; exact Hst1|].
      apply dict_mem_keys. rewrite (heap_ok_deref Hst1). exact Iv. }
    assert (Hst2 : heap_ok c st2) by (apply heap_ok_store; auto).
    bind_case H. destruct a0 as [ok d].
    assert (K2 : keys d = variables c).
    { apply ac3_keys in E. rewrite E. unfold st2.
      rewrite deref_store; [exact K1 | apply Hst1]. }
    set (st3 := store d st2) in *.
    assert (Hst3 : heap_ok c st3) by (apply heap_ok_store; auto).
    assert (L3 : List.length (heap st3) = List.length (heap st)).
    { unfold st3, st2, st1; simpl. rewrite !list_set_length. reflexivity. }
    rewrite dict_set_fresh in * by exact Fr.
    assert (ND1 : NoDup (keys (a ++ [(var, word)]))).
    { rewrite keys_app. apply NoDup_app; auto.
      - simpl. constructor; [simpl; tauto | constructor].
      - intros k Ik [<-|[]]. apply dict_mem_false_keys in Fr. auto. }
    assert (Sub1 : incl (keys (a ++ [(var, word)])) (variables c)).
    { rewrite keys_app. apply incl_app; auto.
      intros k [<-|[]]. exact Iv. }
    bind_case H. rename a0 into is_consistent.
    bind_case H. destruct a0 as [[r a2] st4].
    assert (P : heap_ok c st4
                /\ List.length (heap st) <= List.length (heap st4)
                /\ match r with
                   | None => a2 = a ++ [(var, word)]
                   | Some res => res = a2 /\ solution c res
                   end).
    { destruct is_consistent.
      - apply Hrec in E1; auto using heap_ok_note.
        simpl in E1. destruct E1 as (A & B & C).
        split; [exact A|]. split; [|exact C].
        change (List.length (heap st3) <= List.length (heap st4)) in B. lia.
      - injection E1 as <- <- <-. split; [exact Hst3|]. split; [lia | reflexivity]. }
    destruct P as (Hst4 & L4 & Pr).
    destruct r as [res|].
    + injection H as <-. simpl. auto.
    + subst a2. rewrite dict_pop_fresh in H by exact Fr. simpl in H.
      apply IH in H; auto.
      * destruct out as [[r' a'] st']. simpl in *.
        destruct H as (A & B & C). split; [exact A|]. split; [lia | exact C].
      * apply heap_ok_rebind; [lia | exact Hst4].
      * simpl. lia.
Qed.

Lemma backtrack_S (c : Crossword) (fuel : nat) (st : State) (a : Assignment) :
  backtrack c (S fuel) st a
  = if assignment_complete a (deref st)
    then Ok (Some a, a, st)
    else
      let st1 := note (Enter a (deref st)) st in
      let st2 := snd (deepcopy st1) in
      var <- select_unassigned_variable c a (deref st2) ;;
      var_words <- order_domain_values c var a (deref st2) ;;
      try_words c (backtrack c fuel) (fst (deepcopy st1)) var var_words st2 a.
Proof. reflexivity. Qed.

Lemma backtrack_post (c : Crossword) (fuel : nat) :
  forall st a out,
    heap_ok c st -> NoDup (keys a) -> incl (keys a) (variables c) ->
    consistent c a = Ok true ->
    backtrack c fuel st a = Ok out -> search_post c st a out.
Proof.
  induction fuel as [|fuel IH]; intros st a out Hst ND Sub Co H.
  - discriminate.
  - rewrite backtrack_S in H.
    destruct (assignment_complete a (deref st)) eqn:Ec.
    + injection H as <-. simpl. split; [exact Hst|]. split; [lia|].
      split; [reflexivity|]. repeat split; auto.
      unfold assignment_complete in Ec. apply Nat.eqb_eq in Ec.
      rewrite Ec, (heap_ok_deref Hst). reflexivity.
    + cbv zeta in H.
      set (st1 := note (Enter a (deref st)) st) in *.
      assert (Hst1 : heap_ok c st1) by (apply heap_ok_note; exact Hst).
      pose proof (heap_ok_deepcopy Hst1) as Hst2.
      assert (L2 : List.length (heap (snd (deepcopy st1)))
                   = S (List.length (heap st))).
      { simpl. rewrite length_app. simpl. lia. }
      assert (Lc : fst (deepcopy st1) = List.length (heap st)) by reflexivity.
      set (st2 := snd (deepcopy st1)) in *.
      set (copy_domains := fst (deepcopy st1)) in *.
      bind_case H. rename a0 into var.
      bind_case H. rename a0 into var_words.
      apply select_unassigned_variable_spec in E.
      destruct E as (dv & Iv & Fr & _).
      assert (Iv' : In var (variables c)).
      { rewrite <- (heap_ok_deref Hst2). unfold keys.
        apply in_map_iff. exists (var, dv). auto. }
      assert (Lt : copy_domains < List.length (heap st2)) by lia.
      pose proof (@try_words_post c (backtrack c fuel) copy_domains var
                    var_words IH Iv' st2 a out Hst2 Lt ND Sub Fr H) as P.
      destruct out as [[r a'] st']. unfold search_post in P |- *.
      destruct P as (A & B & C). split; [exact A|]. split; [lia | exact C].
Qed.

Lemma consistent_nil (c : Crossword) : consistent c [] = Ok true.
Proof. reflexivity. Qed.

Lemma solve_solution (c : Crossword) (a : Assignment) (st : State) :
  solve c = Ok (Some a, st) -> solution c a.
Proof.
  unfold solve. intros H.
  destruct (enforce_node_consistency (init_domains c)) as [d1| |] eqn:E;
    cbn [bind] in H; try discriminate.
  destruct (ac3 c None d1) as [[ok d2]| |] eqn:E0;
    cbn [bind] in H; try discriminate.
  destruct ok; cbn [negb] in H; [|discriminate].
  destruct (backtrack c (S (List.length (variables c))) (initial_state d2) [])
    as [[[r a'] st']| |] eqn:E1; cbn [bind] in H; try discriminate.
  injection H as -> <-.
  apply backtrack_post in E1.
  - unfold search_post in E1. destruct E1 as (_ & _ & _ & S). exact S.
  - split; simpl; [|lia]. constructor; [|constructor].
    apply ac3_keys in E0. apply enforce_node_consistency_keys in E.
    rewrite E0, E. unfold init_domains, keys. rewrite map_map. simpl.
    apply map_id.
  - constructor.
  - intros k [].
  - apply consistent_nil.
Qed.

(** C1. An assignment returned by [solve] is complete (every slot of the
    puzzle has a word), uses no word twice, and agrees at the overlap of every
    pair of neighbouring slots. *)
Theorem solve_returns_valid_assignment (c : Crossword) (a : Assignment)
        (st : State) :
  solve c = Ok (Some a, st) ->
  (forall v, In v (variables c) -> exists w, dict_get v a = Some w)
  /\ (forall v1 v2 w, dict_get v1 a = Some w -> dict_get v2 a = Some w -> v1 = v2)
  /\ (forall v1 v2 w1 w2,
         In v2 (neighbors c v1) ->
         dict_get v1 a = Some w1 -> dict_get v2 a = Some w2 ->
         exists ov, overlaps_get (v1, v2) (overlaps c) = Some (Some ov)
                    /\ agree ov w1 w2).
Proof.
  intros H. apply solve_solution in H.
  destruct H as (ND & Sub & Len & Co).
  apply consistent_spec in Co. destruct Co as [NDv Ov].
  split; [|split].
  - intros v Iv. apply dict_mem_get. apply dict_mem_keys.
    apply (@NoDup_length_incl Var (keys a) (variables c)); auto. lia.
  - intros v1 v2 w G1 G2.
    eapply NoDup_values_key; eauto using dict_get_in.
  - intros v1 v2 w1 w2 I G1 G2.
    destruct (Ov v1 v2) as (ov & w1' & w2' & Eo & G1' & G2' & A); auto.
    + apply dict_mem_get; eauto.
    + apply dict_mem_get; eauto.
    + exists ov. split; auto. congruence.
Qed.

Lemma solve_returns_valid_assignment_witness :
  exists a st,
    solve cross_puzzle = Ok (Some a, st)
    /\ (forall v, In v (variables cross_puzzle) -> exists w, dict_get v a = Some w)
    /\ (forall v1 v2 w,
           dict_get v1 a = Some w -> dict_get v2 a = Some w -> v1 = v2)
    /\ (forall v1 v2 w1 w2,
           In v2 (neighbors cross_puzzle v1) ->
           dict_get v1 a = Some w1 -> dict_get v2 a = Some w2 ->
           exists ov, overlaps_get (v1, v2) (overlaps cross_puzzle) = Some (Some ov)
                      /\ agree ov w1 w2).
Proof.
  eexists. eexists. split.
  - vm_compute. reflexivity.
  - eapply (@solve_returns_valid_assignment cross_puzzle).
    vm_compute. reflexivity.
Defined.

(** ** ac3 *)

Lemma overlaps_get_in (a : arc) (o : list (arc * option (nat * nat)))
      (v : option (nat * nat)) :
  overlaps_get a o = Some v -> In (a, v) o.
Proof.
  induction o as [|[a' v'] o IH]; simpl; [discriminate|].
  destruct (arc_eqb a a') eqn:E.
  - apply arc_eqb_eq in E. subst. intros H; injection H as ->. auto.
  - auto.
Qed.

Lemma well_formedb_sound (c : Crossword) : well_formedb c = true -> well_formed c.
Proof.
  unfold well_formedb. rewrite forallb_forall. intros H. split.
  - intros x y o G. apply overlaps_get_in in G. apply H in G.
    rewrite !andb_true_iff in G. destruct G as [[[Hx Hy] N] _].
    apply existsb_exists in Hx. destruct Hx as [x' [Ix Ex]].
    apply existsb_exists in Hy. destruct Hy as [y' [Iy Ey]].
    apply var_eqb_eq in Ex, Ey. subst.
    apply negb_true_iff, var_eqb_neq in N. auto.
  - intros x y ov G. apply overlaps_get_in in G. apply H in G.
    rewrite !andb_true_iff in G. destruct G as [_ S].
    destruct (overlaps_get (y, x) (overlaps c)) as [o'|]; [|discriminate].
    destruct o' as [[a b]|]; simpl in S; [|discriminate].
    apply andb_true_iff in S. destruct S as [S1 S2].
    apply Nat.eqb_eq in S1, S2. subst. reflexivity.
Qed.

Lemma in_neighbors (c : Crossword) (x n : Var) :
  In n (neighbors c x) <->
  In n (variables c) /\ n <> x
  /\ exists ov, overlaps_get (n, x) (overlaps c) = Some (Some ov).
Proof.
  unfold neighbors. rewrite filter_In, andb_true_iff, negb_true_iff, var_eqb_neq.
  split.
  - intros (I & N & O). repeat split; auto.
    destruct (overlaps_get (n, x) (overlaps c)) as [[ov|]|]; try discriminate.
    eauto.
  - intros (I & N & [ov O]). rewrite O. auto.
Qed.

Lemma agree_swap (ov : nat * nat) (w1 w2 : string) :
  agree (snd ov, fst ov) w1 w2 -> agree ov w2 w1.
Proof. intros [ch [H1 H2]]. exists ch. simpl in *. auto. Qed.

(** One step of [revise] on an arc with an overlap. *)
Lemma revise_step (c : Crossword) (x y : Var) (d d1 : Domains) (revised : bool)
      (dx dy : wordset) (ov : nat * nat) :
  dict_get x d = Some dx -> dict_get y d = Some dy ->
  overlaps_get (x, y) (overlaps c) = Some (Some ov) ->
  revise c x y d = Ok (revised, d1) ->
  dict_get x d1 = Some (filter (supportedb ov dy) dx)
  /\ (forall z, z <> x -> dict_get z d1 = dict_get z d)
  /\ revised = existsb (fun w => negb (supportedb ov dy w)) dx.
Proof.
  intros Hx Hy Ho H.
  pose proof (revise_spec _ _ _ _ H Hx Hy) as S. rewrite Ho in S.
  cbv zeta in S. destruct S as [Hr Hd].
  destruct Hd as [[-> E]|[-> _]].
  - rewrite E. auto.
  - split; [apply dict_get_set_same|]. split; [|exact Hr].
    intros z Nz. apply dict_get_set_other; exact Nz.
Qed.

Lemma ac3_inv_step (c : Crossword) (x y : Var) (queue : list arc)
      (d d1 : Domains) (revised : bool) :
    well_formed c ->
    incl (variables c) (keys d) ->
    queue_ok c ((x, y) :: queue) ->
    ac3_inv c ((x, y) :: queue) d ->
    revise c x y d = Ok (revised, d1) ->
    ac3_inv c (if revised
             then queue ++ map (fun neighbor => (neighbor, x))
                               (filter (fun neighbor => negb (var_eqb neighbor y))
                                       (neighbors c x))
             else queue) d1.
  Proof.
    intros WF Hk Hq Inv Hr.
    destruct WF as [WF1 WF2].
    destruct (Hq x y (or_introl eq_refl)) as [o Ho].
    destruct (WF1 _ _ _ Ho) as (Vx & Vy & Nxy).
    assert (Gx : exists dx, dict_get x d = Some dx)
      by (apply dict_mem_get, dict_mem_keys, Hk, Vx).
    assert (Gy : exists dy, dict_get y d = Some dy)
      by (apply dict_mem_get, dict_mem_keys, Hk, Vy).
    destruct Gx as [dx Gx], Gy as [dy Gy].
    destruct o as [ov|].
    - destruct (@revise_step c x y d d1 revised dx dy ov Gx Gy Ho Hr)
        as (Gx1 & Gz & Er).
      assert (Cxy : arc_consistent d1 x y ov).
      { exists (filter (supportedb ov dy) dx), dy.
        split; [exact Gx1|]. split; [rewrite Gz; auto|].
        intros wx I. apply filter_In in I. apply supportedb_supported, I. }
      intros a b ov' Hab.
      destruct (WF1 _ _ _ Hab) as (Va & Vb & Nab).
      destruct (Inv a b ov' Hab) as [[E|I]|C].
      + injection E as <- <-. right.
        assert (ov' = ov) by congruence. subst. exact Cxy.
      + left. destruct revised; auto. apply in_or_app; auto.
      + destruct (Var_eq_dec b x) as [->|Nb].
        * (* the arc points at the revised slot *)
          destruct (Var_eq_dec a y) as [->|Na].
          -- right. destruct C as (dy' & dx' & Hy' & Hx' & S).
             assert (dy' = dy) by congruence.
             assert (dx' = dx) by congruence. subst.
             exists dy, (filter (supportedb ov dy) dx).
             split; [rewrite Gz; auto|]. split; [exact Gx1|].
             intros wy Iy. destruct (S wy Iy) as [wx [Ix A]].
             exists wx. split; [|exact A].
             apply filter_In. split; [exact Ix|].
             apply supportedb_supported. exists wy. split; [exact Iy|].
             apply agree_swap.
             assert (E' : ov' = (snd ov, fst ov)).
             { apply WF2 in Ho. congruence. }
             rewrite <- E'. exact A.
          -- destruct revised.
             ++ left. apply in_or_app. right.
                apply in_map_iff. exists a. split; [reflexivity|].
                apply filter_In. split.
                ** apply in_neighbors. eauto.
                ** apply negb_true_iff, var_eqb_neq. exact Na.
             ++ right. destruct C as (da & dx' & Ha & Hx' & S).
                assert (dx' = dx) by congruence. subst.
                exists da, (filter (supportedb ov dy) dx).
                split; [rewrite Gz; auto|]. split; [exact Gx1|].
                intros wa Ia. destruct (S wa Ia) as [wx [Ix A]].
                exists wx. split; [|exact A].
                apply filter_In. split; [exact Ix|].
                destruct (supportedb ov dy wx) eqn:Es; auto.
                exfalso.
                assert (E0 : existsb (fun w => negb (supportedb ov dy w)) dx = true).
                { apply existsb_exists. exists wx. rewrite Es. auto. }
                rewrite E0 in Er. discriminate.
        * right. destruct C as (da & db & Ha & Hb & S).
          destruct (Var_eq_dec a x) as [->|Na].
          -- assert (da = dx) by congruence. subst.
             exists (filter (supportedb ov dy) dx), db.
             split; [exact Gx1|]. split; [rewrite Gz; auto|].
             intros wx I. apply filter_In in I. apply S, I.
          -- exists da, db. rewrite !Gz; auto.
    - pose proof (revise_spec _ _ _ _ Hr Gx Gy) as S. rewrite Ho in S.
      destruct S as [-> ->].
      intros a b ov' Hab.
      destruct (Inv a b ov' Hab) as [[E|I]|C]; auto.
      injection E as <- <-. congruence.
  Qed.

Lemma in_keys_overlaps_get (a : arc) (o : list (arc * option (nat * nat))) :
  In a (map fst o) -> exists v, overlaps_get a o = Some v.
Proof.
  induction o as [|[a' v'] o IH]; simpl; [tauto|].
  intros [E|I].
  - subst a'. destruct (arc_eqb a a) eqn:E; eauto.
    assert (arc_eqb a a = true) by (apply arc_eqb_eq; reflexivity). congruence.
  - destruct (arc_eqb a a'); eauto.
Qed.

Lemma ac3_loop_sound (c : Crossword) (fuel : nat) :
  well_formed c ->
  forall queue d d',
    incl (variables c) (keys d) -> queue_ok c queue -> ac3_inv c queue d ->
    ac3_loop c fuel queue d = Ok (true, d') ->
    ac3_inv c [] d'.
Proof.
  intros WF. induction fuel as [|fuel IH]; intros queue d d' Hk Hq Inv H.
  - destruct queue as [|[x y] q]; simpl in H; [|discriminate].
    injection H as <-. exact Inv.
  - destruct queue as [|[x y] q]; simpl in H.
    + injection H as <-. exact Inv.
    + destruct (revise c x y d) as [[revised d1]| |] eqn:Er; simpl in H;
        try discriminate.
      pose proof (ac3_inv_step WF Hk Hq Inv Er) as Inv1.
      pose proof (revise_keys _ _ _ _ Er) as K1.
      assert (Hq' : queue_ok c q).
      { intros a b I. apply Hq. right; exact I. }
      destruct revised.
      * destruct (dict_item x d1) as [dx| |]; simpl in H; try discriminate.
        destruct dx as [|w dx]; [discriminate|].
        apply IH in H; auto.
        -- rewrite K1; exact Hk.
        -- intros a b I. apply in_app_or in I. destruct I as [I|I]; auto.
           apply in_map_iff in I. destruct I as [n [E I]].
           injection E as <- <-. apply filter_In in I. destruct I as [I _].
           apply in_neighbors in I. destruct I as (_ & _ & [ov O]). eauto.
      * apply IH in H; auto. rewrite K1; exact Hk.
Qed.

(** C4. When [ac3], called without an arc list, returns [True], every word
    left in the domain of a slot [x] agrees, at the overlap, with some word
    left in the domain of each neighbour [y] of [x]. *)
Theorem ac3_arc_consistency (c : Crossword) (d d' : Domains) :
  well_formed c ->
  incl (variables c) (keys d) ->
  ac3 c None d = Ok (true, d') ->
  forall x y,
    In x (variables c) -> In y (neighbors c x) ->
    exists ov dx dy,
      overlaps_get (x, y) (overlaps c) = Some (Some ov)
      /\ dict_get x d' = Some dx /\ dict_get y d' = Some dy
      /\ forall wx, In wx dx -> exists wy, In wy dy /\ agree ov wx wy.
Proof.
  intros WF Hk H x y Vx Ny.
  unfold ac3 in H.
  apply ac3_loop_sound in H; auto.
  - apply in_neighbors in Ny. destruct Ny as (Vy & Nyx & [ov0 O]).
    destruct WF as [_ WF2]. apply WF2 in O.
    destruct (H x y _ O) as [[]|(dx & dy & Gx & Gy & S)].
    exists (snd ov0, fst ov0), dx, dy. auto.
  - intros a b I. apply in_keys_overlaps_get. exact I.
  - intros a b ov O. left.
    apply overlaps_get_in in O.
    apply in_map_iff. exists ((a, b), Some ov). auto.
Qed.

Lemma ac3_arc_consistency_witness :
  ac3 chain_puzzle None (init_domains chain_puzzle) = Ok (true, chain_domains)
  /\ forall x y,
      In x (variables chain_puzzle) -> In y (neighbors chain_puzzle x) ->
      exists ov dx dy,
        overlaps_get (x, y) (overlaps chain_puzzle) = Some (Some ov)
        /\ dict_get x chain_domains = Some dx
        /\ dict_get y chain_domains = Some dy
        /\ forall wx, In wx dx -> exists wy, In wy dy /\ agree ov wx wy.
Proof.
  split; [vm_compute; reflexivity|].
  apply (@ac3_arc_consistency chain_puzzle (init_domains chain_puzzle)
           chain_domains).
  - apply well_formedb_sound. reflexivity.
  - intros v I. exact I.
  - vm_compute. reflexivity.
Defined.

(** ** Where the code departs from its documentation *)

Ltac in_list := repeat first [left; reflexivity | right].

(** [self.domains = copy_domains] makes the live store and the snapshot one
    object: a later mutation of the live store is a mutation of the snapshot. *)
Lemma store_after_rebind_changes_snapshot (copy_domains : nat) (d : Domains)
      (st : State) :
  copy_domains < List.length (heap st) ->
  nth copy_domains (heap (store d (rebind copy_domains st))) [] = d.
Proof. intros L. unfold store, rebind; simpl. apply nth_list_set; exact L. Qed.

(** C2. On [chain_puzzle] the root node of the search is entered with the
    domains [chain_domains].  Its second candidate still sees these domains,
    its third candidate sees [chain_spoiled]: the snapshot was mutated while
    the second candidate was explored.  The search then fails although
    [chain_solution] is a complete assignment that passes the checker. *)
Theorem backtrack_third_candidate_sees_mutated_domains :
  exists st,
    solve chain_puzzle = Ok (None, st)
    /\ In (Enter [] chain_domains) (history st)
    /\ In (Try [] left "EFE" chain_domains) (history st)
    /\ In (Try [] left "ACD" chain_spoiled) (history st)
    /\ chain_spoiled <> chain_domains
    /\ solution chain_puzzle chain_solution.
Proof.
  eexists. split; [vm_compute; reflexivity|].
  split; [in_list|]. split; [in_list|]. split; [in_list|].
  split; [discriminate|].
  split; [|split; [|split]].
  - repeat constructor; simpl; intuition discriminate.
  - intros v I. simpl in I |- *. intuition auto.
  - reflexivity.
  - vm_compute. reflexivity.
Qed.

Lemma in_insert_everywhere {A : Type} (a : A) (l1 l2 : list A) :
  In (l1 ++ a :: l2) (insert_everywhere a (l1 ++ l2)).
Proof.
  induction l1 as [|b l1 IH]; simpl.
  - destruct l2; simpl; auto.
  - right. apply in_map. exact IH.
Qed.

Lemma perms_complete {A : Type} (l l' : list A) :
  Permutation.Permutation l l' -> In l' (perms l).
Proof.
  revert l'. induction l as [|a l IH]; intros l' P.
  - apply Permutation.Permutation_nil in P. subst. left; reflexivity.
  - assert (Ia : In a l').
    { apply (Permutation.Permutation_in a P). left; reflexivity. }
    apply in_split in Ia. destruct Ia as (l1 & l2 & ->).
    apply Permutation.Permutation_cons_app_inv in P.
    simpl. apply in_flat_map. exists (l1 ++ l2). split.
    + apply IH, P.
    + apply in_insert_everywhere.
Qed.

(** The failure of the search on [chain_puzzle] does not depend on the order
    in which the set of slots and the vocabulary are iterated. *)
Lemma chain_puzzle_fails_in_every_order (vs : list Var) (ws : list string) :
  Permutation.Permutation (variables chain_puzzle) vs ->
  Permutation.Permutation (words chain_puzzle) ws ->
  exists st, solve (mkCrossword vs ws chain_overlaps) = Ok (None, st).
Proof.
  intros Pv Pw.
  assert (H : forallb (fun ws' =>
                forallb (fun vs' =>
                           reports_no_solution (mkCrossword vs' ws' chain_overlaps))
                        (perms (variables chain_puzzle)))
                (perms (words chain_puzzle)) = true)
    by (vm_compute; reflexivity).
  rewrite forallb_forall in H.
  specialize (H ws (perms_complete Pw)).
  rewrite forallb_forall in H.
  specialize (H vs (perms_complete Pv)).
  unfold reports_no_solution in H.
  destruct (solve (mkCrossword vs ws chain_overlaps)) as [[[r|] st]| |];
    try discriminate.
  exists st. reflexivity.
Qed.

(** C3. [ac3] returns [True] on domains that hold an empty domain: for a lone
    slot without a word of its length, and for two crossing slots without a
    word of their length.  [solve] then enters the search. *)
Theorem ac3_succeeds_with_empty_domain :
  enforce_node_consistency (init_domains lone_puzzle) = Ok [(lone_slot, [])]
  /\ ac3 lone_puzzle None [(lone_slot, [])] = Ok (true, [(lone_slot, [])])
  /\ (exists st, solve lone_puzzle = Ok (None, st)
                 /\ history st = [Enter [] [(lone_slot, [])]])
  /\ enforce_node_consistency (init_domains short_puzzle)
     = Ok [(top, []); (left, [])]
  /\ ac3 short_puzzle None [(top, []); (left, [])]
     = Ok (true, [(top, []); (left, [])]).
Proof.
  split; [reflexivity|]. split; [reflexivity|].
  split; [eexists; split; reflexivity|].
  split; reflexivity.
Qed.

(** The test [word in assignment] of [order_domain_values] never holds. *)
Lemma word_in_assignment_false (word : string) (a : Assignment) :
  word_in_assignment word a = false.
Proof. unfold word_in_assignment. induction a; simpl; auto. Qed.

(** C5. In the search on [chain_puzzle], with "ABA" assigned to [left] and
    "ACD" to [top], the candidates computed for [bottom] are these two
    words. *)
Theorem order_domain_values_returns_used_words :
  let a := [(left, "ABA"); (top, "ACD")] in
  let d := [(top, ["ACD"]); (left, ["ABA"]); (bottom, ["ABA"; "ACD"])] in
  order_domain_values chain_puzzle bottom a d = Ok ["ACD"; "ABA"]
  /\ dict_get top a = Some "ACD"
  /\ dict_get left a = Some "ABA"
  /\ exists st, solve chain_puzzle = Ok (None, st)
                /\ In (Enter a d) (history st)
                /\ In (Try a bottom "ACD" d) (history st).
Proof.
  cbv zeta. split; [reflexivity|]. split; [reflexivity|]. split; [reflexivity|].
  eexists. split; [vm_compute; reflexivity|].
  split; in_list.
Qed.

(** C6. On [ring_puzzle] the propagation that follows the first tentative
    assignment empties the domain of [south] and [ac3] returns [False]; the
    search makes the recursive call on that assignment all the same. *)
Theorem backtrack_descends_after_failed_ac3 :
  let a := [(north, "AXB")] in
  let d := [ (north, ["AXB"]); (south, []);
             (west, ["AXEXX"]); (east, ["BXGXXX"]) ] in
  (d0 <- enforce_node_consistency (init_domains ring_puzzle) ;;
   ac3 ring_puzzle None d0) = Ok (true, ring_domains)
  /\ ac3 ring_puzzle (Some (get_arcs ring_puzzle north a))
         (dict_set north ["AXB"] ring_domains) = Ok (false, d)
  /\ consistent ring_puzzle a = Ok true
  /\ exists st, solve ring_puzzle = Ok (None, st)
                /\ In (Try [] north "AXB" ring_domains) (history st)
                /\ In (Descend a false) (history st)
                /\ In (Enter a d) (history st).
Proof.
  cbv zeta. split; [vm_compute; reflexivity|].
  split; [vm_compute; reflexivity|]. split; [vm_compute; reflexivity|].
  eexists. split; [vm_compute; reflexivity|].
  split; [in_list|]. split; in_list.
Qed.

(** ** The fuel is never used up *)

Lemma bind_fuel {A B : Type} (m : result A) (k : A -> result B) :
  m <> OutOfFuel -> (forall a, m = Ok a -> k a <> OutOfFuel) ->
  bind m k <> OutOfFuel.
Proof. destruct m; simpl; intros H1 H2; auto; discriminate. Qed.

Lemma dict_item_fuel {V : Type} (k : Var) (d : dict V) : dict_item k d <> OutOfFuel.
Proof. unfold dict_item. destruct (dict_get k d); discriminate. Qed.

Lemma overlaps_item_fuel (c : Crossword) (x y : Var) :
  overlaps_item c x y <> OutOfFuel.
Proof.
  unfold overlaps_item. destruct (overlaps_get (x, y) (overlaps c)); discriminate.
Qed.

Lemma str_index_fuel (w : string) (n : nat) : str_index w n <> OutOfFuel.
Proof. unfold str_index. destruct (String.get n w); discriminate. Qed.

Lemma dict_pop_fuel {V : Type} (k : Var) (d : dict V) : dict_pop k d <> OutOfFuel.
Proof.
  induction d as [|[k' v'] d IH]; simpl; [discriminate|].
  destruct (var_eqb k k'); [discriminate|].
  apply bind_fuel; [exact IH | discriminate].
Qed.

Lemma remove_all_fuel (rw : list string) (s : wordset) : remove_all rw s <> OutOfFuel.
Proof.
  revert s. induction rw as [|w rw IH]; simpl; intros s; [discriminate|].
  apply bind_fuel; auto.
  unfold set_remove. destruct (set_mem w s); discriminate.
Qed.

Create HintDb fuel.
#[local] Hint Resolve dict_item_fuel overlaps_item_fuel str_index_fuel
  dict_pop_fuel remove_all_fuel : fuel.

Lemma revise_scan_fuel (wx : string) (ov : nat * nat) (ys : wordset) (n : nat) :
  revise_scan wx ov ys n <> OutOfFuel.
Proof.
  revert n. induction ys as [|wy ys IH]; simpl; intros n; [discriminate|].
  apply bind_fuel; auto with fuel. intros cx _.
  apply bind_fuel; auto with fuel. intros cy _.
  destruct (Ascii.eqb cx cy); [discriminate | apply IH].
Qed.

Lemma revise_words_fuel (d : Domains) (y : Var) (ov : nat * nat)
      (xs : list string) (rw : wordset) (rv : bool) :
  revise_words d y ov xs rw rv <> OutOfFuel.
Proof.
  revert rw rv. induction xs as [|wx xs IH]; simpl; intros rw rv; [discriminate|].
  apply bind_fuel; auto with fuel. intros dy _.
  apply bind_fuel; [apply revise_scan_fuel|]. intros n _.
  destruct (Nat.eqb n (List.length dy)); apply IH.
Qed.

Lemma revise_fuel (c : Crossword) (x y : Var) (d : Domains) :
  revise c x y d <> OutOfFuel.
Proof.
  unfold revise. apply bind_fuel; auto with fuel. intros [ov|] _; [|discriminate].
  apply bind_fuel; auto with fuel. intros dx _.
  apply bind_fuel; [apply revise_words_fuel|]. intros [rw rv] _.
  destruct rw; [discriminate|].
  apply bind_fuel; auto with fuel. intros dx0 _.
  apply bind_fuel; auto with fuel. discriminate.
Qed.

(** A revision that reports a change removed a word. *)
Lemma revise_words_sub (d : Domains) (y : Var) (ov : nat * nat)
      (xs : list string) (rw rw' : wordset) (rv rv' : bool) :
  revise_words d y ov xs rw rv = Ok (rw', rv') ->
  (forall w, In w rw -> In w rw')
  /\ (forall w, In w rw' -> In w rw \/ In w xs)
  /\ (rv' = true -> rv = true \/ rw' <> []).
Proof.
  revert rw rv. induction xs as [|wx xs IH]; simpl; intros rw rv H.
  - injection H as <- <-. auto.
  - bind_case H. bind_case H.
    destruct (Nat.eqb a0 (List.length a)).
    + apply IH in H. destruct H as (H1 & H2 & H3).
      assert (Iwx : In wx rw') by (apply H1, set_add_In; auto).
      split; [|split].
      * intros w I. apply H1, set_add_In. auto.
      * intros w I. apply H2 in I. destruct I as [I|I]; auto.
        apply set_add_In in I. destruct I as [->|I]; auto.
      * intros _. right. intros Enil. rewrite Enil in Iwx. contradiction.
    + apply IH in H. destruct H as (H1 & H2 & H3).
      split; [exact H1|]. split; [|exact H3].
      intros w I. apply H2 in I. tauto.
Qed.

Lemma filter_length_le {A : Type} (f : A -> bool) (l : list A) :
  List.length (filter f l) <= List.length l.
Proof. induction l as [|a l IH]; simpl; [lia|]. destruct (f a); simpl; lia. Qed.

Lemma filter_length_lt {A : Type} (f : A -> bool) (l : list A) (a : A) :
  In a l -> f a = false -> List.length (filter f l) < List.length l.
Proof.
  induction l as [|b l IH]; simpl; [tauto|]. intros [->|I] F.
  - rewrite F. pose proof (filter_length_le f l). lia.
  - specialize (IH I F). destruct (f b); simpl; lia.
Qed.

Lemma domains_size_set (x : Var) (v v0 : wordset) (d : Domains) :
  dict_get x d = Some v0 ->
  domains_size (dict_set x v d) + List.length v0 = domains_size d + List.length v.
Proof.
  induction d as [|[k w] d IH]; simpl; [discriminate|].
  destruct (var_eqb x k); simpl.
  - intros H; injection H as ->. lia.
  - intros H. specialize (IH H). lia.
Qed.

Lemma revise_shrinks (c : Crossword) (x y : Var) (d d1 : Domains) (revised : bool) :
  revise c x y d = Ok (revised, d1) ->
  domains_size d1 <= domains_size d
  /\ (revised = true -> domains_size d1 < domains_size d).
Proof.
  unfold revise. intros H.
  bind_case H. destruct a as [ov|]; [|injection H as <- <-; split; [lia|discriminate]].
  bind_case H. rename a into dx.
  bind_case H. destruct a as [rw rv].
  apply revise_words_sub in E1. destruct E1 as (_ & S2 & S3).
  destruct rw as [|w0 rw].
  - injection H as <- <-. split; [lia|].
    intros R. destruct (S3 R) as [?|N]; [discriminate | congruence].
  - bind_case H. injection H as <- <-.
    pose proof (remove_all_filter _ _ E1) as F.
    unfold dict_item in E0. destruct (dict_get x d) as [dx0|] eqn:G; [|discriminate].
    injection E0 as ->.
    pose proof (@domains_size_set x a dx d G) as Sz.
    assert (Lt : List.length a < List.length dx).
    { subst a. apply (@filter_length_lt _ _ dx w0).
      - destruct (S2 w0 (or_introl eq_refl)) as [[]|I]; exact I.
      - apply negb_false_iff, set_mem_In. left; reflexivity. }
    split; [lia | intros _; lia].
Qed.

Lemma ac3_loop_fuel (c : Crossword) (fuel : nat) :
  forall queue d,
    List.length queue + List.length (variables c) * domains_size d < fuel ->
    ac3_loop c fuel queue d <> OutOfFuel.
Proof.
  induction fuel as [|fuel IH]; intros queue d L; [lia|].
  destruct queue as [|[x y] q]; simpl; [discriminate|].
  apply bind_fuel; [apply revise_fuel|]. intros [revised d1] Er.
  apply revise_shrinks in Er. destruct Er as [Le Lt].
  simpl in L.
  destruct revised.
  - apply bind_fuel; auto with fuel. intros dx _.
    destruct dx as [|w dx]; [discriminate|].
    apply IH. rewrite length_app, length_map.
    pose proof (filter_length_le (fun n => negb (var_eqb n y)) (neighbors c x)).
    assert (List.length (neighbors c x) <= List.length (variables c))
      by apply filter_length_le.
    specialize (Lt eq_refl). nia.
  - apply IH. nia.
Qed.

Lemma ac3_fuel_enough (c : Crossword) (arcs : option (list arc)) (d : Domains) :
  ac3 c arcs d <> OutOfFuel.
Proof. unfold ac3. apply ac3_loop_fuel. unfold ac3_fuel. lia. Qed.

Lemma enforce_items_fuel (todo d : Domains) : enforce_items todo d <> OutOfFuel.
Proof.
  revert d. induction todo as [|[var domain] todo IH]; simpl; intros d;
    [discriminate|].
  apply bind_fuel; auto with fuel.
Qed.

Lemma consistent_neighbors_fuel (c : Crossword) (a : Assignment) (v1 : Var)
      (ns : list Var) :
  consistent_neighbors c a v1 ns <> OutOfFuel.
Proof.
  induction ns as [|n ns IH]; simpl; [discriminate|].
  destruct (dict_mem n a); [|exact IH].
  apply bind_fuel; auto with fuel. intros o _.
  apply bind_fuel; auto with fuel. intros w1 _.
  destruct o as [ov|]; [|discriminate].
  apply bind_fuel; auto with fuel. intros c1 _.
  apply bind_fuel; auto with fuel. intros w2 _.
  apply bind_fuel; auto with fuel. intros c2 _.
  destruct (Ascii.eqb c1 c2); [exact IH | discriminate].
Qed.

Lemma consistent_fuel (c : Crossword) (a : Assignment) : consistent c a <> OutOfFuel.
Proof.
  unfold consistent.
  destruct (negb _); [discriminate|].
  generalize a at 2. intros items.
  induction items as [|[v1 w] items IH]; simpl; [discriminate|].
  apply bind_fuel; [apply consistent_neighbors_fuel|].
  intros [|] _; [exact IH | discriminate].
Qed.

Lemma select_unassigned_variable_fuel (c : Crossword) (a : Assignment) (d : Domains) :
  select_unassigned_variable c a d <> OutOfFuel.
Proof.
  unfold select_unassigned_variable.
  apply bind_fuel.
  - destruct (filter _ d); discriminate.
  - intros lowest _. destruct (keys _); discriminate.
Qed.

Lemma lcv_conflicts_fuel (word : string) (o : option (nat * nat)) (ws : wordset)
      (n : nat) :
  lcv_conflicts word o ws n <> OutOfFuel.
Proof.
  revert n. induction ws as [|w ws IH]; simpl; intros n; [discriminate|].
  destruct o as [ov|]; [|discriminate].
  apply bind_fuel; auto with fuel. intros ca _.
  apply bind_fuel; auto with fuel.
Qed.

Lemma lcv_neighbors_fuel (c : Crossword) (d : Domains) (var : Var) (word : string)
      (ns : list Var) (n : nat) :
  lcv_neighbors c d var word ns n <> OutOfFuel.
Proof.
  revert n. induction ns as [|nb ns IH]; simpl; intros n; [discriminate|].
  apply bind_fuel; auto with fuel. intros o _.
  apply bind_fuel; auto with fuel. intros dn _.
  apply bind_fuel; [apply lcv_conflicts_fuel | auto].
Qed.

Lemma order_domain_values_fuel (c : Crossword) (var : Var) (a : Assignment)
      (d : Domains) :
  order_domain_values c var a d <> OutOfFuel.
Proof.
  unfold order_domain_values.
  apply bind_fuel; auto with fuel. intros ws _.
  apply bind_fuel; [|discriminate].
  generalize (@nil (string * nat)).
  induction ws as [|w ws IH]; simpl; intros vs; [discriminate|].
  destruct (word_in_assignment w a); [apply IH|].
  apply bind_fuel; [apply lcv_neighbors_fuel | auto].
Qed.

Lemma filter_length_strict {A : Type} (f g : A -> bool) (l : list A) (a : A) :
  (forall x, g x = true -> f x = true) ->
  In a l -> f a = true -> g a = false ->
  List.length (filter g l) < List.length (filter f l).
Proof.
  intros Imp. induction l as [|b l IH]; simpl; [tauto|].
  assert (Le : List.length (filter g l) <= List.length (filter f l)).
  { clear IH. induction l as [|x l IHl]; simpl; [lia|].
    destruct (g x) eqn:G; [rewrite (Imp x G); simpl; lia|].
    destruct (f x); simpl; lia. }
  intros [->|I] Fa Ga.
  - rewrite Fa, Ga. simpl. lia.
  - specialize (IH I Fa Ga).
    destruct (g b) eqn:G; [rewrite (Imp b G); simpl; lia|].
    destruct (f b); simpl; lia.
Qed.

Lemma dict_mem_app {V : Type} (k : Var) (d1 d2 : dict V) :
  dict_mem k (d1 ++ d2) = dict_mem k d1 || dict_mem k d2.
Proof. unfold dict_mem. apply existsb_app. Qed.

Lemma unassigned_extend (c : Crossword) (a : Assignment) (var : Var) (word : string) :
  In var (variables c) -> dict_mem var a = false ->
  unassigned c (a ++ [(var, word)]) < unassigned c a.
Proof.
  intros I Fr. unfold unassigned.
  apply (@filter_length_strict _ _ _ (variables c) var); auto.
  - intros x. rewrite dict_mem_app, negb_orb, andb_true_iff. tauto.
  - rewrite Fr. reflexivity.
  - rewrite dict_mem_app, Fr. simpl. rewrite var_eqb_refl. reflexivity.
Qed.

Lemma try_words_fuel (c : Crossword)
      (rec : State -> Assignment -> result search_result)
      (copy_domains : nat) (var : Var) (var_words : list string) (n : nat) :
  (forall st a,
      heap_ok c st -> NoDup (keys a) -> incl (keys a) (variables c) ->
      consistent c a = Ok true -> unassigned c a < n ->
      rec st a <> OutOfFuel) ->
  (forall st a out,
      heap_ok c st -> NoDup (keys a) -> incl (keys a) (variables c) ->
      consistent c a = Ok true ->
      rec st a = Ok out -> search_post c st a out) ->
  In var (variables c) ->
  forall st a,
    heap_ok c st -> copy_domains < List.length (heap st) ->
    NoDup (keys a) -> incl (keys a) (variables c) ->
    dict_mem var a = false -> unassigned c a <= n ->
    try_words c rec copy_domains var var_words st a <> OutOfFuel.
Proof.
  intros Hfuel Hrec Iv.
  induction var_words as [|word rest IH]; intros st a Hst Hc ND Sub Fr Hn.
  - discriminate.
  - simpl.
    set (st1 := note (Try a var word (deref st)) st).
    set (st2 := store (dict_set var [word] (deref st1)) st1).
    assert (Hst1 : heap_ok c st1) by (apply heap_ok_note; exact Hst).
    assert (K1 : keys (dict_set var [word] (deref st1)) = variables c).
    { rewrite keys_dict_set_mem; [apply heap_ok_deref; exact Hst1|].
      apply dict_mem_keys. rewrite (heap_ok_deref Hst1). exact Iv. }
    assert (Hst2 : heap_ok c st2) by (apply heap_ok_store; auto).
    apply bind_fuel; [apply ac3_fuel_enough|]. intros [ok d] E.
    assert (K2 : keys d = variables c).
    { apply ac3_keys in E. rewrite E. unfold st2.
      rewrite deref_store; [exact K1 | apply Hst1]. }
    set (st3 := store d st2).
    assert (Hst3 : heap_ok c st3) by (apply heap_ok_store; auto).
    assert (L3 : List.length (heap st3) = List.length (heap st)).
    { unfold st3, st2, st1; simpl. rewrite !list_set_length. reflexivity. }
    rewrite dict_set_fresh by exact Fr.
    assert (ND1 : NoDup (keys (a ++ [(var, word)]))).
    { rewrite keys_app. apply NoDup_app; auto.
      - simpl. constructor; [simpl; tauto | constructor].
      - intros k Ik [<-|[]]. apply dict_mem_false_keys in Fr. auto. }
    assert (Sub1 : incl (keys (a ++ [(var, word)])) (variables c)).
    { rewrite keys_app. apply incl_app; auto.
      intros k [<-|[]]. exact Iv. }
    pose proof (@unassigned_extend c a var word Iv Fr) as Lu.
    apply bind_fuel; [apply consistent_fuel|]. intros is_consistent Ec.
    apply bind_fuel.
    + destruct is_consistent; [|discriminate].
      apply Hfuel; auto using heap_ok_note. lia.
    + intros [[r a2] st4] E1.
      assert (P : heap_ok c st4
                  /\ List.length (heap st) <= List.length (heap st4)
                  /\ (r = None -> a2 = a ++ [(var, word)])).
      { destruct is_consistent.
        - apply Hrec in E1; auto using heap_ok_note.
          unfold search_post in E1. destruct E1 as (A & B & C).
          split; [exact A|]. split.
          + change (List.length (heap st3) <= List.length (heap st4)) in B. lia.
          + intros ->. exact C.
        - injection E1 as <- <- <-. split; [exact Hst3|]. split; [lia | reflexivity]. }
      destruct P as (Hst4 & L4 & Pr).
      destruct r as [res|]; [discriminate|].
      rewrite (Pr eq_refl). rewrite dict_pop_fresh by exact Fr. simpl.
      apply IH; auto.
      * apply heap_ok_rebind; [lia | exact Hst4].
      * simpl. lia.
Qed.

Lemma backtrack_fuel (c : Crossword) (fuel : nat) :
  forall st a,
    heap_ok c st -> NoDup (keys a) -> incl (keys a) (variables c) ->
    consistent c a = Ok true -> unassigned c a < fuel ->
    backtrack c fuel st a <> OutOfFuel.
Proof.
  induction fuel as [|fuel IH]; intros st a Hst ND Sub Co Lu; [lia|].
  rewrite backtrack_S.
  destruct (assignment_complete a (deref st)); [discriminate|].
  cbv zeta.
  set (st1 := note (Enter a (deref st)) st).
  assert (Hst1 : heap_ok c st1) by (apply heap_ok_note; exact Hst).
  pose proof (heap_ok_deepcopy Hst1) as Hst2.
  assert (L2 : List.length (heap (snd (deepcopy st1)))
               = S (List.length (heap st))).
  { simpl. rewrite length_app. simpl. lia. }
  assert (Lc : fst (deepcopy st1) = List.length (heap st)) by reflexivity.
  set (st2 := snd (deepcopy st1)) in *.
  set (copy_domains := fst (deepcopy st1)) in *.
  apply bind_fuel; [apply select_unassigned_variable_fuel|]. intros var E.
  apply bind_fuel; [apply order_domain_values_fuel|]. intros var_words _.
  apply select_unassigned_variable_spec in E.
  destruct E as (dv & Iv & Fr & _).
  assert (Iv' : In var (variables c)).
  { rewrite <- (heap_ok_deref Hst2). unfold keys.
    apply in_map_iff. exists (var, dv). auto. }
  apply (@try_words_fuel c (backtrack c fuel) copy_domains var var_words fuel);
    auto; try lia.
  apply backtrack_post.
Qed.

(** [solve] always returns or raises: the bounds on the loop of [ac3] and on
    the depth of the search are never reached. *)
Lemma solve_fuel_enough (c : Crossword) : solve c <> OutOfFuel.
Proof.
  unfold solve.
  apply bind_fuel; [apply enforce_items_fuel|]. intros d1 E.
  apply bind_fuel; [apply ac3_fuel_enough|]. intros [ok d2] E0.
  destruct ok; cbn [negb]; [|discriminate].
  apply bind_fuel; [|intros [[r a] st] _; discriminate].
  apply backtrack_fuel.
  - split; simpl; [|lia]. constructor; [|constructor].
    apply ac3_keys in E0. apply enforce_node_consistency_keys in E.
    rewrite E0, E. unfold init_domains, keys. rewrite map_map. simpl.
    apply map_id.
  - constructor.
  - intros k [].
  - apply consistent_nil.
  - unfold unassigned. pose proof (filter_length_le
      (fun v => negb (dict_mem v ([] : Assignment))) (variables c)). lia.
Qed.

(** * Further properties of the solver *)

(** ** ac3 *)

Lemma revise_incl (c : Crossword) (x y : Var) (d d1 : Domains) (revised : bool) :
  revise c x y d = Ok (revised, d1) ->
  forall v dv1, dict_get v d1 = Some dv1 ->
    exists dv, dict_get v d = Some dv /\ incl dv1 dv.
Proof.
  unfold revise. intros H v dv1 G.
  bind_case H.
  destruct a as [ov|]; [|injection H as _ <-; eauto using incl_refl].
  bind_case H. rename a into dx.
  bind_case H. destruct a as [rw rv].
  destruct rw as [|w0 rw]; [injection H as _ <-; eauto using incl_refl|].
  bind_case H. injection H as _ <-.
  apply remove_all_filter in E2. subst a.
  unfold dict_item in E0.
  destruct (dict_get x d) as [dx0|] eqn:Gx; [|discriminate].
  injection E0 as ->.
  destruct (Var_eq_dec v x) as [->|N].
  - rewrite dict_get_set_same in G. injection G as <-.
    exists dx. split; [exact Gx|]. apply incl_filter.
  - rewrite dict_get_set_other in G by exact N.
    eauto using incl_refl.
Qed.

Lemma ac3_loop_incl (c : Crossword) (fuel : nat) :
  forall queue d d' ok,
    ac3_loop c fuel queue d = Ok (ok, d') ->
    forall v dv', dict_get v d' = Some dv' ->
      exists dv, dict_get v d = Some dv /\ incl dv' dv.
Proof.
  induction fuel as [|fuel IH]; intros queue d d' ok H v dv' G.
  - destruct queue as [|[x y] q]; simpl in H; [|discriminate].
    injection H as _ <-. eauto using incl_refl.
  - destruct queue as [|[x y] q]; simpl in H.
    + injection H as _ <-. eauto using incl_refl.
    + destruct (revise c x y d) as [[revised d1]| |] eqn:Er; simpl in H;
        try discriminate.
      assert (Step : forall dv1, dict_get v d1 = Some dv1 ->
                exists dv, dict_get v d = Some dv /\ incl dv1 dv)
        by (intros dv1; apply (revise_incl _ _ _ _ Er)).
      assert (Chain : forall q', ac3_loop c fuel q' d1 = Ok (ok, d') ->
                exists dv, dict_get v d = Some dv /\ incl dv' dv).
      { intros q' H'. destruct (IH _ _ _ _ H' v dv' G) as (dv1 & G1 & I1).
        destruct (Step dv1 G1) as (dv & G0 & I0).
        exists dv. split; [exact G0|]. eapply incl_tran; eauto. }
      destruct revised.
      * destruct (dict_item x d1) as [dx| |]; simpl in H; try discriminate.
        destruct dx as [|w dx].
        -- injection H as _ <-. apply Step. exact G.
        -- eapply Chain; eauto.
      * eapply Chain; eauto.
Qed.

(** X4. [ac3] only removes words: after a call that returns, the dict has the
    keys it had, and the domain of every slot is included in the domain the
    slot had before. *)
Theorem ac3_only_removes_words (c : Crossword) (arcs : option (list arc))
        (d d' : Domains) (ok : bool) :
  ac3 c arcs d = Ok (ok, d') ->
  keys d' = keys d
  /\ forall v dv', dict_get v d' = Some dv' ->
       exists dv, dict_get v d = Some dv /\ incl dv' dv.
Proof.
  intros H. split.
  - eapply ac3_keys; eauto.
  - unfold ac3 in H. eapply ac3_loop_incl; eauto.
Qed.

Lemma ac3_only_removes_words_witness :
  ac3 chain_puzzle None (init_domains chain_puzzle) = Ok (true, chain_domains)
  /\ keys chain_domains = keys (init_domains chain_puzzle)
  /\ forall v dv', dict_get v chain_domains = Some dv' ->
       exists dv, dict_get v (init_domains chain_puzzle) = Some dv /\ incl dv' dv.
Proof.
  split; [vm_compute; reflexivity|].
  apply (@ac3_only_removes_words chain_puzzle None (init_domains chain_puzzle)
           chain_domains true).
  vm_compute. reflexivity.
Defined.

Lemma ac3_loop_false (c : Crossword) (fuel : nat) :
  forall queue d d',
    ac3_loop c fuel queue d = Ok (false, d') ->
    exists x, dict_get x d' = Some [].
Proof.
  induction fuel as [|fuel IH]; intros queue d d' H.
  - destruct queue as [|[x y] q]; simpl in H; discriminate.
  - destruct queue as [|[x y] q]; simpl in H; [discriminate|].
    destruct (revise c x y d) as [[revised d1]| |] eqn:Er; simpl in H;
      try discriminate.
    destruct revised; [|eauto].
    unfold dict_item in H.
    destruct (dict_get x d1) as [dx|] eqn:G; simpl in H; [|discriminate].
    destruct dx as [|w dx]; [|eauto].
    injection H as <-. eauto.
Qed.

(** X5. When [ac3] returns [False], the domain of some slot is empty. *)
Theorem ac3_failure_leaves_empty_domain (c : Crossword)
        (arcs : option (list arc)) (d d' : Domains) :
  ac3 c arcs d = Ok (false, d') ->
  exists x, dict_get x d' = Some [].
Proof. unfold ac3. apply ac3_loop_false. Qed.

Lemma ac3_failure_leaves_empty_domain_witness :
  exists d',
    ac3 ring_puzzle (Some (get_arcs ring_puzzle north [(north, "AXB")]))
        (dict_set north ["AXB"] ring_domains) = Ok (false, d')
    /\ exists x, dict_get x d' = Some [].
Proof.
  eexists. split.
  - vm_compute. reflexivity.
  - apply (@ac3_failure_leaves_empty_domain ring_puzzle
             (Some (get_arcs ring_puzzle north [(north, "AXB")]))
             (dict_set north ["AXB"] ring_domains)).
    vm_compute. reflexivity.
Defined.


(** X7. Propagation from a seed: when every arc of the puzzle outside [arcs]
    is consistent in the domains [ac3] starts from, and [ac3] returns [True],
    every arc of the puzzle is consistent in the domains it leaves. *)
Theorem ac3_seeded_arc_consistency (c : Crossword) (arcs : list arc)
        (d d' : Domains) :
  well_formed c ->
  incl (variables c) (keys d) ->
  (forall x y, In (x, y) arcs ->
               exists o, overlaps_get (x, y) (overlaps c) = Some o) ->
  (forall x y ov, overlaps_get (x, y) (overlaps c) = Some (Some ov) ->
                  In (x, y) arcs \/ arc_consistent d x y ov) ->
  ac3 c (Some arcs) d = Ok (true, d') ->
  forall x y ov, overlaps_get (x, y) (overlaps c) = Some (Some ov) ->
                 arc_consistent d' x y ov.
Proof.
  intros WF Hk Hq Inv H x y ov O.
  unfold ac3 in H.
  apply ac3_loop_sound in H; auto.
  destruct (H x y ov O) as [[]|C]. exact C.
Qed.

Lemma chain_overlaps_cases (x y : Var) (ov : nat * nat) :
  overlaps_get (x, y) (overlaps chain_puzzle) = Some (Some ov) ->
  (x, y, ov) = (top, left, (0, 0)) \/ (x, y, ov) = (left, top, (0, 0))
  \/ (x, y, ov) = (left, bottom, (2, 0)) \/ (x, y, ov) = (bottom, left, (0, 2)).
Proof.
  intros H. apply overlaps_get_in in H. simpl in H.
  repeat (destruct H as [H|H]; [inversion H; subst; auto|]);
    try discriminate; try contradiction.
  all: tauto.
Qed.

Lemma chain_narrowed_seed :
  forall x y ov,
    overlaps_get (x, y) (overlaps chain_puzzle) = Some (Some ov) ->
    In (x, y) (get_arcs chain_puzzle left [(left, "ABA")])
    \/ arc_consistent (dict_set left ["ABA"] chain_domains) x y ov.
Proof.
  intros x y ov H. apply chain_overlaps_cases in H.
  destruct H as [H|[H|[H|H]]]; injection H as -> -> ->.
  - left. vm_compute. auto.
  - right. exists ["ABA"], ["ABA"; "ACD"; "EFE"; "EGH"].
    split; [reflexivity|]. split; [reflexivity|].
    intros wx [<-|[]]. exists "ABA". split; [left; reflexivity|].
    exists "A"%char. split; reflexivity.
  - right. exists ["ABA"], ["ABA"; "ACD"; "EFE"; "EGH"; "DIJ"].
    split; [reflexivity|]. split; [reflexivity|].
    intros wx [<-|[]]. exists "ABA". split; [left; reflexivity|].
    exists "A"%char. split; reflexivity.
  - left. vm_compute. auto.
Qed.

Lemma ac3_seeded_arc_consistency_witness :
  exists d',
    ac3 chain_puzzle (Some (get_arcs chain_puzzle left [(left, "ABA")]))
        (dict_set left ["ABA"] chain_domains) = Ok (true, d')
    /\ forall x y ov,
        overlaps_get (x, y) (overlaps chain_puzzle) = Some (Some ov) ->
        arc_consistent d' x y ov.
Proof.
  eexists. split.
  - vm_compute. reflexivity.
  - apply (@ac3_seeded_arc_consistency chain_puzzle
             (get_arcs chain_puzzle left [(left, "ABA")])
             (dict_set left ["ABA"] chain_domains)).
    + apply well_formedb_sound. reflexivity.
    + intros v I. exact I.
    + intros x y I. apply in_keys_overlaps_get.
      vm_compute in I. vm_compute. intuition congruence.
    + exact chain_narrowed_seed.
    + vm_compute. reflexivity.
Defined.

(** ** ac3 keeps every solution *)

Lemma revise_reads_y (c : Crossword) (x y : Var) (d d1 : Domains)
      (revised : bool) (ov : nat * nat) (dx : wordset) :
  overlaps_get (x, y) (overlaps c) = Some (Some ov) ->
  dict_get x d = Some dx -> dx <> [] ->
  revise c x y d = Ok (revised, d1) ->
  exists dy, dict_get y d = Some dy.
Proof.
  unfold revise, overlaps_item, dict_item. intros Ho Gx Ne H.
  rewrite Ho, Gx in H. simpl in H.
  destruct dx as [|w dx]; [congruence|]. simpl in H.
  unfold dict_item in H.
  destruct (dict_get y d) as [dy|]; [eauto | discriminate].
Qed.

Lemma ac3_loop_keeps_solutions (c : Crossword) (a : Assignment) (fuel : nat) :
  (forall x y ov wx wy,
      overlaps_get (x, y) (overlaps c) = Some (Some ov) ->
      dict_get x a = Some wx -> dict_get y a = Some wy -> agree ov wx wy) ->
  forall queue d d' ok,
    (forall v dv, dict_get v d = Some dv ->
                  exists w, dict_get v a = Some w /\ In w dv) ->
    ac3_loop c fuel queue d = Ok (ok, d') ->
    ok = true
    /\ forall v dv', dict_get v d' = Some dv' ->
                     exists w, dict_get v a = Some w /\ In w dv'.
Proof.
  intros Sol. induction fuel as [|fuel IH]; intros queue d d' ok J H.
  - destruct queue as [|[x y] q]; simpl in H; [|discriminate].
    injection H as <- <-. auto.
  - destruct queue as [|[x y] q]; simpl in H.
    + injection H as <- <-. auto.
    + destruct (revise c x y d) as [[revised d1]| |] eqn:Er; simpl in H;
        try discriminate.
      assert (J1 : forall v dv, dict_get v d1 = Some dv ->
                     exists w, dict_get v a = Some w /\ In w dv).
      { destruct (overlaps_get (x, y) (overlaps c)) as [[ov|]|] eqn:Ho.
        - destruct (dict_get x d) as [dx|] eqn:Gx.
          2:{ unfold revise, overlaps_item, dict_item in Er.
              rewrite Ho, Gx in Er. discriminate. }
          destruct (J x dx Gx) as (wx & Ax & Ix).
          assert (Ne : dx <> []) by (intros ->; contradiction).
          destruct (@revise_reads_y c x y d d1 revised ov dx Ho Gx Ne Er)
            as [dy Gy].
          destruct (J y dy Gy) as (wy & Ay & Iy).
          pose proof (revise_spec _ _ _ _ Er Gx Gy) as S. rewrite Ho in S.
          cbv zeta in S. destruct S as [_ [[-> _]|[-> _]]]; [exact J|].
          intros v dv G.
          destruct (Var_eq_dec v x) as [->|N].
          + rewrite dict_get_set_same in G. injection G as <-.
            exists wx. split; [exact Ax|].
            apply filter_In. split; [exact Ix|].
            apply supportedb_supported. exists wy. split; [exact Iy|].
            eapply Sol; eauto.
          + rewrite dict_get_set_other in G by exact N. auto.
        - unfold revise, overlaps_item in Er. rewrite Ho in Er. simpl in Er.
          injection Er as _ <-. exact J.
        - unfold revise, overlaps_item in Er. rewrite Ho in Er. discriminate. }
      destruct revised.
      * unfold dict_item in H.
        destruct (dict_get x d1) as [dx1|] eqn:G1; simpl in H; [|discriminate].
        destruct dx1 as [|w dx1].
        -- destruct (J1 x [] G1) as (w & _ & []).
        -- eapply IH; eauto.
      * eapply IH; eauto.
Qed.

(** X8. [ac3] keeps every solution: when an assignment satisfies the overlap
    equality on every arc of the puzzle and gives every slot a word of its
    domain, [ac3] does not return [False] and the word of every slot is
    still in its domain afterwards. *)
Theorem ac3_keeps_solutions (c : Crossword) (arcs : option (list arc))
        (d d' : Domains) (ok : bool) (a : Assignment) :
  (forall x y ov wx wy,
      overlaps_get (x, y) (overlaps c) = Some (Some ov) ->
      dict_get x a = Some wx -> dict_get y a = Some wy -> agree ov wx wy) ->
  (forall v dv, dict_get v d = Some dv ->
                exists w, dict_get v a = Some w /\ In w dv) ->
  ac3 c arcs d = Ok (ok, d') ->
  ok = true
  /\ forall v dv', dict_get v d' = Some dv' ->
                   exists w, dict_get v a = Some w /\ In w dv'.
Proof.
  intros Sol J H. unfold ac3 in H.
  eapply ac3_loop_keeps_solutions; eauto.
Qed.

Lemma chain_solution_agrees :
  forall x y ov wx wy,
    overlaps_get (x, y) (overlaps chain_puzzle) = Some (Some ov) ->
    dict_get x chain_solution = Some wx -> dict_get y chain_solution = Some wy ->
    agree ov wx wy.
Proof.
  intros x y ov wx wy H Gx Gy. apply chain_overlaps_cases in H.
  destruct H as [H|[H|[H|H]]]; injection H as -> -> ->;
    vm_compute in Gx, Gy; injection Gx as <-; injection Gy as <-.
  - exists "A"%char. split; reflexivity.
  - exists "A"%char. split; reflexivity.
  - exists "D"%char. split; reflexivity.
  - exists "D"%char. split; reflexivity.
Qed.

Lemma chain_solution_in_domains :
  forall v dv, dict_get v (init_domains chain_puzzle) = Some dv ->
               exists w, dict_get v chain_solution = Some w /\ In w dv.
Proof.
  intros v dv G. apply dict_get_in in G. simpl in G.
  destruct G as [G|[G|[G|[]]]]; injection G as <- <-.
  - exists "ABA". split; [reflexivity | simpl; auto].
  - exists "ACD". split; [reflexivity | simpl; auto].
  - exists "DIJ". split; [reflexivity | simpl; auto 6].
Qed.

Lemma ac3_keeps_solutions_witness :
  ac3 chain_puzzle None (init_domains chain_puzzle) = Ok (true, chain_domains)
  /\ true = true
  /\ forall v dv', dict_get v chain_domains = Some dv' ->
                   exists w, dict_get v chain_solution = Some w /\ In w dv'.
Proof.
  split; [vm_compute; reflexivity|].
  apply (@ac3_keeps_solutions chain_puzzle None (init_domains chain_puzzle)
           chain_domains true chain_solution).
  - exact chain_solution_agrees.
  - exact chain_solution_in_domains.
  - vm_compute. reflexivity.
Defined.

(** ** revise, applied twice *)

Lemma revise_words_scans (d : Domains) (y : Var) (ov : nat * nat) (dy : wordset)
      (xs : list string) :
  dict_get y d = Some dy ->
  forall rw rv r,
    revise_words d y ov xs rw rv = Ok r ->
    forall wx, In wx xs -> exists m, revise_scan wx ov dy 0 = Ok m.
Proof.
  intros Gy. induction xs as [|w xs IH]; intros rw rv r H wx I; [contradiction|].
  simpl in H. unfold dict_item in H. rewrite Gy in H. simpl in H.
  destruct (revise_scan w ov dy 0) as [m| |] eqn:Es; simpl in H; try discriminate.
  destruct I as [<-|I]; [eauto|].
  destruct (Nat.eqb m (List.length dy)); eapply IH; eauto.
Qed.

Lemma revise_words_all_supported (d : Domains) (y : Var) (ov : nat * nat)
      (dy : wordset) (xs : list string) (rw : wordset) (rv : bool) :
  dict_get y d = Some dy ->
  (forall wx, In wx xs ->
              (exists m, revise_scan wx ov dy 0 = Ok m)
              /\ supportedb ov dy wx = true) ->
  revise_words d y ov xs rw rv = Ok (rw, rv).
Proof.
  intros Gy. induction xs as [|w xs IH]; intros H; [reflexivity|].
  simpl. unfold dict_item. rewrite Gy. simpl.
  destruct (H w (or_introl eq_refl)) as [[m Es] Sup].
  rewrite Es. simpl. rewrite (revise_scan_eqb _ _ _ Es), Sup. simpl.
  apply IH. intros wx I. apply H. right; exact I.
Qed.

(** X2. [revise] is idempotent: after a call of [revise x y] that returns, a
    second call on distinct slots [x], [y] removes nothing and returns
    [False]. *)
Theorem revise_twice (c : Crossword) (x y : Var) (d d1 : Domains) (revised : bool) :
  x <> y ->
  revise c x y d = Ok (revised, d1) ->
  revise c x y d1 = Ok (false, d1).
Proof.
  intros Nxy Er.
  destruct (overlaps_get (x, y) (overlaps c)) as [[ov|]|] eqn:Ho.
  - destruct (dict_get x d) as [dx|] eqn:Gx.
    2:{ unfold revise, overlaps_item, dict_item in Er.
        rewrite Ho, Gx in Er. discriminate. }
    destruct dx as [|w0 dx0].
    + unfold revise, overlaps_item, dict_item in Er |- *.
      rewrite Ho, Gx in Er. simpl in Er. injection Er as _ <-.
      rewrite Ho, Gx. reflexivity.
    + assert (Ne : w0 :: dx0 <> []) by discriminate.
      remember (w0 :: dx0) as dx eqn:Edx. clear Edx.
      destruct (@revise_reads_y c x y d d1 revised ov dx Ho Gx Ne Er) as [dy Gy].
      destruct (@revise_step c x y d d1 revised dx dy ov Gx Gy Ho Er)
        as (Gx1 & Gz & _).
      assert (Gy1 : dict_get y d1 = Some dy).
      { rewrite Gz; auto. }
      assert (Scans : forall wx, In wx dx ->
                        exists m, revise_scan wx ov dy 0 = Ok m).
      { unfold revise, overlaps_item, dict_item in Er.
        rewrite Ho, Gx in Er. simpl in Er.
        destruct (revise_words d y ov dx [] false) as [r| |] eqn:Ew;
          try discriminate.
        exact (@revise_words_scans d y ov dy dx Gy [] false r Ew). }
      unfold revise, overlaps_item, dict_item. rewrite Ho, Gx1. simpl.
      rewrite (@revise_words_all_supported d1 y ov dy
                 (filter (supportedb ov dy) dx) [] false Gy1).
      * reflexivity.
      * intros wx I. apply filter_In in I. destruct I as [I S]. auto.
  - unfold revise, overlaps_item in Er |- *. rewrite Ho in Er |- *.
    simpl in Er. injection Er as _ <-. reflexivity.
  - unfold revise, overlaps_item in Er. rewrite Ho in Er. discriminate.
Qed.

Lemma revise_twice_witness :
  revise chain_puzzle top left chain_narrowed
  = Ok (true, dict_set top ["ABA"; "ACD"] chain_narrowed)
  /\ revise chain_puzzle top left (dict_set top ["ABA"; "ACD"] chain_narrowed)
     = Ok (false, dict_set top ["ABA"; "ACD"] chain_narrowed).
Proof.
  split; [vm_compute; reflexivity|].
  apply (@revise_twice chain_puzzle top left chain_narrowed
           (dict_set top ["ABA"; "ACD"] chain_narrowed) true).
  - discriminate.
  - vm_compute. reflexivity.
Defined.

(** ** select_unassigned_variable, assignment_complete and consistent *)

(** X17. [select_unassigned_variable] raises ValueError exactly when every key
    of the domains is a key of the assignment. *)
Theorem select_unassigned_variable_value_error (c : Crossword)
        (a : Assignment) (d : Domains) :
  select_unassigned_variable c a d = Raise ValueError
  <-> forall v, In v (keys d) -> dict_mem v a = true.
Proof.
  split.
  - intros H v I. destruct (dict_mem v a) eqn:M; [reflexivity|].
    destruct (select_unassigned_variable_returns c a d v I M) as [var E].
    congruence.
  - intros H. unfold select_unassigned_variable.
    assert (E : filter (fun kv : Var * wordset => negb (dict_mem (fst kv) a)) d = []).
    { destruct (filter (fun kv : Var * wordset => negb (dict_mem (fst kv) a)) d)
        as [|[k v] l] eqn:F; [reflexivity|].
      assert (I : In (k, v) ((k, v) :: l)) by (left; reflexivity).
      rewrite <- F in I. apply filter_In in I. destruct I as [I M].
      simpl in M. rewrite (H k) in M; [discriminate|].
      unfold keys. apply in_map_iff. exists (k, v). auto. }
    rewrite E. reflexivity.
Qed.

(** X10. For an assignment whose keys are distinct keys of the domains,
    [assignment_complete] returns [True] exactly when every key of the
    domains has a word. *)
Theorem assignment_complete_iff (a : Assignment) (d : Domains) :
  NoDup (keys a) -> NoDup (keys d) -> incl (keys a) (keys d) ->
  (assignment_complete a d = true
   <-> forall v, In v (keys d) -> dict_mem v a = true).
Proof.
  intros NDa NDd Sub. unfold assignment_complete. rewrite Nat.eqb_eq. split.
  - intros L v I. apply dict_mem_keys.
    apply (@NoDup_length_incl Var (keys a) (keys d)); auto. lia.
  - intros H.
    assert (Sub' : incl (keys d) (keys a)).
    { intros v I. apply dict_mem_keys. auto. }
    pose proof (NoDup_incl_length NDa Sub).
    pose proof (NoDup_incl_length NDd Sub'). lia.
Qed.

Lemma assignment_complete_iff_witness :
  assignment_complete [(top, "CAT"); (left, "COW")] (init_domains cross_puzzle) = true
  <-> forall v, In v (keys (init_domains cross_puzzle)) ->
                dict_mem v [(top, "CAT"); (left, "COW")] = true.
Proof.
  apply (@assignment_complete_iff [(top, "CAT"); (left, "COW")]
           (init_domains cross_puzzle)).
  - repeat constructor; simpl; intuition discriminate.
  - repeat constructor; simpl; intuition discriminate.
  - intros v I. exact I.
Defined.

(** X12. [consistent] returns [False] for an assignment that gives one word to
    two slots, whatever the overlaps. *)
Theorem consistent_rejects_reused_word (c : Crossword) (a : Assignment)
        (v1 v2 : Var) (w : string) :
  v1 <> v2 ->
  dict_get v1 a = Some w -> dict_get v2 a = Some w ->
  consistent c a = Ok false.
Proof.
  intros N G1 G2. unfold consistent.
  destruct (Nat.eqb (List.length (values a))
                    (List.length (nodup string_dec (values a)))) eqn:E;
    [|reflexivity].
  apply Nat.eqb_eq in E. symmetry in E. apply nodup_length_NoDup in E.
  exfalso. apply N.
  eapply NoDup_values_key; eauto using dict_get_in.
Qed.

Lemma consistent_rejects_reused_word_witness :
  consistent cross_puzzle [(top, "CAT"); (left, "CAT")] = Ok false.
Proof.
  apply (@consistent_rejects_reused_word cross_puzzle
           [(top, "CAT"); (left, "CAT")] top left "CAT").
  - discriminate.
  - reflexivity.
  - reflexivity.
Defined.

(** ** backtrack keeps the bindings it is given *)

Lemma try_words_extends (c : Crossword)
      (rec : State -> Assignment -> result search_result)
      (copy_domains : nat) (var : Var) (var_words : list string) :
  (forall st a r a' st',
      rec st a = Ok (r, a', st') ->
      match r with
      | None => a' = a
      | Some res => exists ext, res = a ++ ext
      end) ->
  forall st a r a' st',
    dict_mem var a = false ->
    try_words c rec copy_domains var var_words st a = Ok (r, a', st') ->
    match r with
    | None => a' = a
    | Some res => exists ext, res = a ++ ext
    end.
Proof.
  intros Hrec. induction var_words as [|word rest IH]; intros st a r a' st' Fr H.
  - simpl in H. injection H as <- <- _. reflexivity.
  - simpl in H.
    bind_case H. destruct a0 as [ok d].
    bind_case H.
    bind_case H. destruct a1 as [[r1 a2] st2].
    rewrite dict_set_fresh in E1 by exact Fr.
    assert (P : match r1 with
                | None => a2 = a ++ [(var, word)]
                | Some res => exists ext, res = (a ++ [(var, word)]) ++ ext
                end).
    { destruct a0.
      - apply Hrec in E1. exact E1.
      - injection E1 as <- <- _. reflexivity. }
    destruct r1 as [res|].
    + injection H as <- _ _. destruct P as [ext ->].
      exists ((var, word) :: ext). rewrite <- app_assoc. reflexivity.
    + subst a2. rewrite dict_pop_fresh in H by exact Fr. simpl in H.
      eapply IH; eauto.
Qed.

Lemma backtrack_extends (c : Crossword) (fuel : nat) :
  forall st a r a' st',
    backtrack c fuel st a = Ok (r, a', st') ->
    match r with
    | None => a' = a
    | Some res => exists ext, res = a ++ ext
    end.
Proof.
  induction fuel as [|fuel IH]; intros st a r a' st' H; [discriminate|].
  rewrite backtrack_S in H.
  destruct (assignment_complete a (deref st)).
  - injection H as <- <- _. exists []. rewrite app_nil_r. reflexivity.
  - cbv zeta in H. bind_case H. bind_case H.
    apply select_unassigned_variable_spec in E.
    destruct E as (dv & _ & Fr & _).
    eapply try_words_extends; eauto.
Qed.

(** X18. The assignment returned by [backtrack] holds the entries of the
    assignment it was given, in their order, followed by new entries. *)
Theorem backtrack_extends_assignment (c : Crossword) (fuel : nat)
        (st st' : State) (a a' res : Assignment) :
  backtrack c fuel st a = Ok (Some res, a', st') ->
  exists ext, res = a ++ ext.
Proof. intros H. apply backtrack_extends in H. exact H. Qed.

Lemma backtrack_extends_assignment_witness :
  exists res a' st',
    backtrack cross_puzzle 3 (initial_state (init_domains cross_puzzle))
              [(top, "COW")] = Ok (Some res, a', st')
    /\ exists ext, res = [(top, "COW")] ++ ext.
Proof.
  eexists. eexists. eexists. split.
  - vm_compute. reflexivity.
  - eapply (@backtrack_extends_assignment cross_puzzle 3
              (initial_state (init_domains cross_puzzle))).
    vm_compute. reflexivity.
Defined.

(** ** enforce_node_consistency *)

Lemma remove_wrong_length (var : Var) (domain : wordset) :
  NoDup domain ->
  remove_all (wrong_length var domain) domain
  = Ok (filter (fun w => Nat.eqb (String.length w) (var_length var)) domain).
Proof.
  intros ND.
  destruct (@remove_all_ok (wrong_length var domain) domain) as [s' E].
  - apply NoDup_filter. exact ND.
  - intros w I. apply filter_In in I. apply I.
  - rewrite E. f_equal. apply remove_all_filter in E. subst s'.
    apply filter_ext_in. intros w I.
    destruct (Nat.eqb (String.length w) (var_length var)) eqn:L.
    + apply negb_true_iff, set_mem_false. intros I'.
      unfold wrong_length in I'. apply filter_In in I'.
      rewrite L in I'. destruct I'; discriminate.
    + apply negb_false_iff, set_mem_In.
      unfold wrong_length. apply filter_In. rewrite L. auto.
Qed.

Lemma dict_set_app_notin {V : Type} (k : Var) (v v0 : V) (d1 d2 : dict V) :
  ~ In k (keys d1) ->
  dict_set k v (d1 ++ (k, v0) :: d2) = d1 ++ (k, v) :: d2.
Proof.
  unfold keys. induction d1 as [|[k' v'] d1 IH]; simpl; intros N.
  - rewrite var_eqb_refl. reflexivity.
  - var_cases k k'; [tauto|]. rewrite IH; auto.
Qed.

Lemma enforce_items_app (todo done : Domains) :
  NoDup (keys (done ++ todo)) ->
  (forall v dv, In (v, dv) todo -> NoDup dv) ->
  enforce_items todo (done ++ todo)
  = Ok (done ++ map (fun kv : Var * wordset =>
                       (fst kv,
                        filter (fun w => Nat.eqb (String.length w)
                                                 (var_length (fst kv)))
                               (snd kv)))
                    todo).
Proof.
  revert done. induction todo as [|[var domain] todo IH]; intros done ND Hnd.
  - reflexivity.
  - simpl. rewrite remove_wrong_length by (apply (Hnd var); left; reflexivity).
    simpl. rewrite dict_set_app_notin.
    + change (done ++ (var, filter (fun w => Nat.eqb (String.length w)
                                                    (var_length var)) domain)
                   :: todo)
        with (done ++ [(var, filter (fun w => Nat.eqb (String.length w)
                                                      (var_length var)) domain)]
                   ++ todo).
      rewrite app_assoc. rewrite IH.
      * rewrite <- app_assoc. reflexivity.
      * rewrite <- app_assoc. simpl.
        rewrite keys_app in ND |- *. exact ND.
      * intros v dv I. apply (Hnd v). right; exact I.
    + rewrite keys_app in ND. apply NoDup_remove_2 in ND.
      intros I. apply ND. apply in_or_app. left. exact I.
Qed.

(** X1. Node consistency: on a dict with distinct keys whose domains hold no
    word twice, [enforce_node_consistency] returns, and leaves in the domain
    of every slot exactly the words whose length is the length of the slot,
    in their order. *)
Theorem enforce_node_consistency_keeps_fitting_words (d : Domains) :
  NoDup (keys d) ->
  (forall v dv, In (v, dv) d -> NoDup dv) ->
  enforce_node_consistency d
  = Ok (map (fun kv : Var * wordset =>
               (fst kv,
                filter (fun w => Nat.eqb (String.length w) (var_length (fst kv)))
                       (snd kv)))
            d).
Proof.
  intros ND Hnd. unfold enforce_node_consistency.
  apply (@enforce_items_app d []); auto.
Qed.

Lemma enforce_node_consistency_keeps_fitting_words_witness :
  enforce_node_consistency (init_domains ring_puzzle)
  = Ok (map (fun kv : Var * wordset =>
               (fst kv,
                filter (fun w => Nat.eqb (String.length w) (var_length (fst kv)))
                       (snd kv)))
            (init_domains ring_puzzle)).
Proof.
  apply (@enforce_node_consistency_keeps_fitting_words (init_domains ring_puzzle)).
  - repeat constructor; simpl; intuition discriminate.
  - intros v dv I. simpl in I.
    assert (E : dv = words ring_puzzle).
    { destruct I as [I|[I|[I|[I|[]]]]]; injection I as _ <-; reflexivity. }
    subst dv. repeat constructor; simpl; intuition discriminate.
Defined.

(** ** order_domain_values *)

Lemma values_set_fresh (word : string) (count : nat) (vs : list (string * nat)) :
  ~ In word (map fst vs) -> values_set word count vs = vs ++ [(word, count)].
Proof.
  induction vs as [|[w n] vs IH]; simpl; intros N; [reflexivity|].
  destruct (String.eqb word w) eqn:E.
  - apply String.eqb_eq in E. subst. tauto.
  - rewrite IH; auto.
Qed.

Lemma lcv_words_spec (c : Crossword) (d : Domains) (var : Var) (a : Assignment)
      (ws : list string) :
  NoDup ws ->
  forall vs vs',
    (forall w, In w ws -> ~ In w (map fst vs)) ->
    lcv_words c d var a ws vs = Ok vs' ->
    exists add,
      vs' = vs ++ add /\ map fst add = ws
      /\ Forall (fun wn : string * nat =>
                   lcv_neighbors c d var (fst wn) (neighbors c var) 0
                   = Ok (snd wn)) add.
Proof.
  induction 1 as [|w ws NI ND IH]; intros vs vs' Fresh H.
  - simpl in H. injection H as <-. exists []. rewrite app_nil_r. auto.
  - simpl in H. rewrite word_in_assignment_false in H.
    destruct (lcv_neighbors c d var w (neighbors c var) 0) as [n| |] eqn:En;
      simpl in H; try discriminate.
    rewrite values_set_fresh in H by (apply Fresh; left; reflexivity).
    apply IH in H.
    + destruct H as (add & -> & Ea & Fa).
      exists ((w, n) :: add). rewrite <- app_assoc. simpl.
      split; [reflexivity|]. split; [rewrite Ea; reflexivity|].
      constructor; auto.
    + intros w' I. rewrite map_app, in_app_iff. simpl.
      intros [I'|[<-|[]]]; [|contradiction].
      apply (Fresh w'); [right; exact I | exact I'].
Qed.

Lemma insert_by_cost_perm (x : string * nat) (l : list (string * nat)) :
  Permutation (x :: l) (insert_by_cost x l).
Proof.
  induction l as [|y l IH]; simpl; [reflexivity|].
  destruct (Nat.leb (snd x) (snd y)); [reflexivity|].
  rewrite perm_swap. apply perm_skip. exact IH.
Qed.

Lemma insert_by_cost_sorted (x : string * nat) (l : list (string * nat)) :
  StronglySorted (fun p q : string * nat => snd p <= snd q) l ->
  StronglySorted (fun p q : string * nat => snd p <= snd q) (insert_by_cost x l).
Proof.
  induction 1 as [|y l S IH F]; simpl.
  - repeat constructor.
  - destruct (Nat.leb_spec (snd x) (snd y)) as [L|L].
    + constructor; [constructor; auto|].
      constructor; [exact L|].
      rewrite Forall_forall in F |- *. intros z I. specialize (F z I).
      simpl in *. lia.
    + constructor; [exact IH|].
      rewrite Forall_forall in F |- *. intros z I.
      apply (Permutation_in z (Permutation_sym (insert_by_cost_perm x l))) in I.
      destruct I as [<-|I]; [lia | auto].
Qed.

Lemma sort_by_cost_spec (vs : list (string * nat)) :
  Permutation vs (fold_right insert_by_cost [] vs)
  /\ StronglySorted (fun p q : string * nat => snd p <= snd q)
                    (fold_right insert_by_cost [] vs).
Proof.
  induction vs as [|x vs [P S]]; simpl.
  - split; constructor.
  - split.
    + rewrite <- insert_by_cost_perm. apply perm_skip. exact P.
    + apply insert_by_cost_sorted. exact S.
Qed.

(** X14. [order_domain_values] returns every word of the domain of [var]
    once (words assigned to other slots included), in the order of
    non-decreasing cost, the cost of a word being the count made by the loop
    over the neighbours of [var]. *)
Theorem order_domain_values_sorted_permutation (c : Crossword) (var : Var)
        (a : Assignment) (d : Domains) (dv l : list string) :
  dict_get var d = Some dv -> NoDup dv ->
  order_domain_values c var a d = Ok l ->
  Permutation dv l
  /\ exists vs,
      l = map fst vs
      /\ Forall (fun wn : string * nat =>
                   lcv_neighbors c d var (fst wn) (neighbors c var) 0
                   = Ok (snd wn)) vs
      /\ StronglySorted (fun p q : string * nat => snd p <= snd q) vs.
Proof.
  intros G ND H. unfold order_domain_values, dict_item in H.
  rewrite G in H. simpl in H.
  destruct (lcv_words c d var a dv []) as [vs| |] eqn:E; simpl in H;
    try discriminate.
  injection H as <-.
  apply lcv_words_spec in E; auto.
  destruct E as (add & -> & Ea & Fa). simpl in *.
  destruct (sort_by_cost_spec add) as [P S].
  unfold sorted_by_cost. split.
  - rewrite <- Ea. apply Permutation_map. exact P.
  - exists (fold_right insert_by_cost [] add).
    split; [reflexivity|]. split; [|exact S].
    rewrite Forall_forall in Fa |- *. intros wn I. apply Fa.
    apply (Permutation_in wn (Permutation_sym P)). exact I.
Qed.

Lemma order_domain_values_sorted_permutation_witness :
  exists l,
    order_domain_values chain_puzzle left [] chain_domains = Ok l
    /\ Permutation ["ABA"; "ACD"; "EFE"] l
    /\ exists vs,
        l = map fst vs
        /\ Forall (fun wn : string * nat =>
                     lcv_neighbors chain_puzzle chain_domains left (fst wn)
                                   (neighbors chain_puzzle left) 0
                     = Ok (snd wn)) vs
        /\ StronglySorted (fun p q : string * nat => snd p <= snd q) vs.
Proof.
  eexists. split.
  - vm_compute. reflexivity.
  - apply (@order_domain_values_sorted_permutation chain_puzzle left []
             chain_domains).
    + reflexivity.
    + repeat constructor; simpl; intuition discriminate.
    + vm_compute. reflexivity.
Defined.

Lemma lcv_conflicts_count (word : string) (ov : nat * nat) (ws : wordset)
      (count n : nat) :
  lcv_conflicts word (Some ov) ws count = Ok n ->
  n = count + conflicts ov word ws.
Proof.
  unfold conflicts. revert count.
  induction ws as [|w ws IH]; simpl; intros count H.
  - injection H as <-. lia.
  - unfold str_index, agreeb in *.
    destruct (String.get (fst ov) word) as [ca|]; simpl in H; [|discriminate].
    destruct (String.get (snd ov) w) as [cb|]; simpl in H; [|discriminate].
    apply IH in H. destruct (Ascii.eqb ca cb); simpl; lia.
Qed.

Lemma lcv_neighbors_count (c : Crossword) (d : Domains) (var : Var)
      (word : string) (ns : list Var) (count n : nat) :
  lcv_neighbors c d var word ns count = Ok n ->
  n = count + list_sum (map (neighbor_cost c d var word) ns).
Proof.
  revert count. induction ns as [|nb ns IH]; simpl; intros count H.
  - injection H as <-. lia.
  - unfold overlaps_item, dict_item, neighbor_cost in *.
    destruct (overlaps_get (var, nb) (overlaps c)) as [o|]; simpl in H;
      [|discriminate].
    destruct (dict_get nb d) as [dn|]; simpl in H; [|discriminate].
    destruct (lcv_conflicts word o dn (if set_mem word dn then S count else count))
      as [m| |] eqn:Ec; simpl in H; try discriminate.
    apply IH in H.
    destruct o as [ov|].
    + apply lcv_conflicts_count in Ec. destruct (set_mem word dn); lia.
    + destruct dn as [|w dn]; simpl in Ec; [|discriminate].
      injection Ec as <-. simpl. lia.
Qed.

(** X15. The cost that [order_domain_values] gives a word: the sum, over the
    neighbours of [var], of 1 when the word is in the neighbour's domain plus
    the number of words of that domain that differ from it at the overlap. *)
Theorem order_domain_values_cost (c : Crossword) (d : Domains) (var : Var)
        (word : string) (n : nat) :
  lcv_neighbors c d var word (neighbors c var) 0 = Ok n ->
  n = list_sum (map (neighbor_cost c d var word) (neighbors c var)).
Proof. intros H. apply lcv_neighbors_count in H. exact H. Qed.

Lemma order_domain_values_cost_witness :
  lcv_neighbors chain_puzzle chain_domains left "ACD"
                (neighbors chain_puzzle left) 0 = Ok 8
  /\ 8 = list_sum (map (neighbor_cost chain_puzzle chain_domains left "ACD")
                       (neighbors chain_puzzle left)).
Proof.
  split; [vm_compute; reflexivity|].
  apply (@order_domain_values_cost chain_puzzle chain_domains left "ACD" 8).
  vm_compute. reflexivity.
Defined.

(** ** The words of a returned assignment *)

Lemma in_dict_set {V : Type} (k : Var) (x : V) (d : dict V) (v : Var) (w : V) :
  In (v, w) (dict_set k x d) -> In (v, w) d \/ (v, w) = (k, x).
Proof.
  induction d as [|[k' v'] d IH]; simpl.
  - intros [H|[]]. right. congruence.
  - var_cases k k'; simpl.
    + intros [H|H]; [right; congruence | left; right; exact H].
    + intros [H|H]; [left; left; exact H|].
      destruct (IH H); auto.
Qed.

Lemma dict_pop_incl {V : Type} (k : Var) (d d' : dict V) :
  dict_pop k d = Ok d' -> incl d' d.
Proof.
  revert d'. induction d as [|[k' v'] d IH]; simpl; intros d' H; [discriminate|].
  destruct (var_eqb k k').
  - injection H as <-. intros e I. right; exact I.
  - destruct (dict_pop k d) as [d''| |]; simpl in H; try discriminate.
    injection H as <-. intros e [I|I]; [left; exact I|].
    right. apply (IH d''); auto.
Qed.

Lemma node_consistent_ac3 (c : Crossword) (arcs : option (list arc))
      (d d' : Domains) (ok : bool) :
  node_consistent c d -> ac3 c arcs d = Ok (ok, d') -> node_consistent c d'.
Proof.
  intros N H v dv' G w I.
  unfold ac3 in H.
  destruct (ac3_loop_incl _ _ _ _ H v G) as (dv & G0 & Sub).
  apply (N v dv G0). apply Sub, I.
Qed.

Lemma node_consistent_narrow (c : Crossword) (d : Domains) (var : Var)
      (word : string) :
  node_consistent c d ->
  In word (words c) -> String.length word = var_length var ->
  node_consistent c (dict_set var [word] d).
Proof.
  intros N Iw Lw v dv G w I.
  destruct (Var_eq_dec v var) as [->|Nv].
  - rewrite dict_get_set_same in G. injection G as <-.
    destruct I as [<-|[]]. auto.
  - rewrite dict_get_set_other in G by exact Nv. eapply N; eauto.
Qed.

Lemma values_set_keys (word : string) (n : nat) (vs : list (string * nat))
      (w : string) :
  In w (map fst (values_set word n vs)) -> w = word \/ In w (map fst vs).
Proof.
  induction vs as [|[w0 n0] vs IH]; simpl.
  - intros [H|[]]; auto.
  - destruct (String.eqb word w0); simpl; intros [H|H]; auto.
    destruct (IH H); auto.
Qed.

Lemma lcv_words_keys (c : Crossword) (d : Domains) (var : Var) (a : Assignment)
      (ws : list string) :
  forall vs vs',
    lcv_words c d var a ws vs = Ok vs' ->
    forall w, In w (map fst vs') -> In w (map fst vs) \/ In w ws.
Proof.
  induction ws as [|w0 ws IH]; simpl; intros vs vs' H w I.
  - injection H as <-. auto.
  - destruct (word_in_assignment w0 a).
    + destruct (IH _ _ H w I); auto.
    + destruct (lcv_neighbors c d var w0 (neighbors c var) 0) as [n| |];
        simpl in H; try discriminate.
      destruct (IH _ _ H w I) as [I'|I']; auto.
      apply values_set_keys in I'. destruct I'; auto.
Qed.

Lemma order_domain_values_incl (c : Crossword) (var : Var) (a : Assignment)
      (d : Domains) (dv l : list string) :
  dict_get var d = Some dv ->
  order_domain_values c var a d = Ok l -> incl l dv.
Proof.
  intros G H. unfold order_domain_values, dict_item in H.
  rewrite G in H. simpl in H.
  destruct (lcv_words c d var a dv []) as [vs| |] eqn:E; simpl in H;
    try discriminate.
  injection H as <-. intros w I.
  unfold sorted_by_cost in I.
  destruct (sort_by_cost_spec vs) as [P _].
  apply (Permutation_in w (Permutation_map fst (Permutation_sym P))) in I.
  destruct (lcv_words_keys _ _ _ _ _ _ E w I) as [[]|I']. exact I'.
Qed.

Lemma nth_Forall {A : Type} (P : A -> Prop) (n : nat) (l : list A) (dflt : A) :
  Forall P l -> P dflt -> P (nth n l dflt).
Proof.
  intros F Pd. revert n. induction F as [|a l Pa F IH]; intros [|n]; simpl; auto.
Qed.

Lemma node_consistent_nil (c : Crossword) : node_consistent c [].
Proof. intros v dv G. discriminate. Qed.

Lemma node_consistent_deref (c : Crossword) (st : State) :
  Forall (node_consistent c) (heap st) -> node_consistent c (deref st).
Proof.
  intros F. unfold deref. apply nth_Forall; [exact F | apply node_consistent_nil].
Qed.

Lemma try_words_fits (c : Crossword)
      (rec : State -> Assignment -> result search_result)
      (copy_domains : nat) (var : Var) (var_words : list string) :
  (forall st a r a' st',
      Forall (node_consistent c) (heap st) -> fits c a ->
      rec st a = Ok (r, a', st') ->
      Forall (node_consistent c) (heap st') /\ fits c a'
      /\ forall res, r = Some res -> fits c res) ->
  (forall w, In w var_words ->
             In w (words c) /\ String.length w = var_length var) ->
  forall st a r a' st',
    Forall (node_consistent c) (heap st) -> fits c a ->
    try_words c rec copy_domains var var_words st a = Ok (r, a', st') ->
    Forall (node_consistent c) (heap st') /\ fits c a'
    /\ forall res, r = Some res -> fits c res.
Proof.
  intros Hrec.
  induction var_words as [|word rest IH]; intros Hw st a r a' st' Hst Fa H.
  - simpl in H. injection H as <- <- <-.
    split; [exact Hst|]. split; [exact Fa | discriminate].
  - simpl in H.
    destruct (Hw word (or_introl eq_refl)) as [Iw Lw].
    set (st1 := note (Try a var word (deref st)) st) in *.
    set (st2 := store (dict_set var [word] (deref st1)) st1) in *.
    assert (Hst2 : Forall (node_consistent c) (heap st2)).
    { unfold st2, store; simpl. apply list_set_Forall; [|exact Hst].
      apply node_consistent_narrow; auto.
      apply (@node_consistent_deref c st1). exact Hst. }
    bind_case H. destruct a0 as [ok d].
    assert (Nd : node_consistent c d).
    { eapply node_consistent_ac3; [|exact E].
      apply node_consistent_deref. exact Hst2. }
    set (st3 := store d st2) in *.
    assert (Hst3 : Forall (node_consistent c) (heap st3)).
    { unfold st3, store; simpl. apply list_set_Forall; auto. }
    assert (Fa1 : fits c (dict_set var word a)).
    { intros v w I. apply in_dict_set in I. destruct I as [I|I].
      - apply Fa; exact I.
      - injection I as -> ->. auto. }
    bind_case H. rename a0 into is_consistent.
    bind_case H. destruct a0 as [[r1 a2] st4].
    assert (P : Forall (node_consistent c) (heap st4) /\ fits c a2
                /\ forall res, r1 = Some res -> fits c res).
    { destruct is_consistent.
      - apply Hrec in E1; auto.
      - injection E1 as <- <- <-. split; [exact Hst3|].
        split; [exact Fa1 | discriminate]. }
    destruct P as (Hst4 & Fa2 & Fr).
    destruct r1 as [res|].
    + injection H as <- <- <-. auto.
    + bind_case H. rename a0 into a3.
      apply IH in H; auto.
      * intros w I. apply Hw. right; exact I.
      * intros v w I. apply Fa2. apply (dict_pop_incl _ _ E2). exact I.
Qed.

Lemma backtrack_fits (c : Crossword) (fuel : nat) :
  forall st a r a' st',
    Forall (node_consistent c) (heap st) -> fits c a ->
    backtrack c fuel st a = Ok (r, a', st') ->
    Forall (node_consistent c) (heap st') /\ fits c a'
    /\ forall res, r = Some res -> fits c res.
Proof.
  induction fuel as [|fuel IH]; intros st a r a' st' Hst Fa H; [discriminate|].
  rewrite backtrack_S in H.
  destruct (assignment_complete a (deref st)).
  - injection H as <- <- <-. split; [exact Hst|]. split; [exact Fa|].
    intros res E. injection E as <-. exact Fa.
  - cbv zeta in H.
    set (st1 := note (Enter a (deref st)) st) in *.
    set (st2 := snd (deepcopy st1)) in *.
    assert (Hst2 : Forall (node_consistent c) (heap st2)).
    { unfold st2; simpl. apply Forall_app. split; [exact Hst|].
      constructor; [|constructor].
      apply (@node_consistent_deref c st1). exact Hst. }
    bind_case H. rename a0 into var.
    bind_case H. rename a0 into var_words.
    assert (Hw : forall w, In w var_words ->
                   In w (words c) /\ String.length w = var_length var).
    { intros w I.
      destruct (dict_get var (deref st2)) as [dv|] eqn:G.
      - apply (@node_consistent_deref c st2 Hst2 var dv G).
        apply (@order_domain_values_incl c var a (deref st2) dv var_words G E0).
        exact I.
      - unfold order_domain_values, dict_item in E0. rewrite G in E0.
        discriminate. }
    eapply try_words_fits; eauto.
Qed.

Lemma enforce_items_node (c : Crossword) (todo : Domains) :
  (forall v dv, In (v, dv) todo -> incl dv (words c)) ->
  forall d d',
    enforce_items todo d = Ok d' ->
    forall v dv, dict_get v d' = Some dv ->
      (forall w, In w dv -> In w (words c) /\ String.length w = var_length v)
      \/ (~ In v (keys todo) /\ dict_get v d = Some dv).
Proof.
  induction todo as [|[var domain] todo IH]; intros Hv d d' H v dv G.
  - simpl in H. injection H as <-. right. split; [simpl; tauto | exact G].
  - simpl in H. bind_case H. rename a into domain'.
    apply remove_all_filter in E.
    assert (Hv' : forall v dv, In (v, dv) todo -> incl dv (words c)).
    { intros v0 dv0 I. apply (Hv v0). right; exact I. }
    destruct (IH Hv' _ _ H v dv G) as [Good|[NI G2]]; [left; exact Good|].
    destruct (Var_eq_dec v var) as [->|N].
    + left. rewrite dict_get_set_same in G2. injection G2 as <-.
      subst domain'. intros w I. apply filter_In in I. destruct I as [I M].
      split; [apply (Hv var domain); [left; reflexivity | exact I]|].
      apply negb_true_iff, set_mem_false in M.
      destruct (Nat.eqb (String.length w) (var_length var)) eqn:L;
        [apply Nat.eqb_eq; exact L|].
      exfalso. apply M. unfold wrong_length. apply filter_In.
      rewrite L. auto.
    + right. rewrite dict_get_set_other in G2 by exact N.
      split; [|exact G2]. simpl. intros [E'|I]; [congruence | contradiction].
Qed.

Lemma enforce_node_consistency_node (c : Crossword) (d1 : Domains) :
  enforce_node_consistency (init_domains c) = Ok d1 -> node_consistent c d1.
Proof.
  intros H v dv G.
  pose proof (enforce_node_consistency_keys _ H) as K.
  unfold enforce_node_consistency in H.
  destruct (@enforce_items_node c (init_domains c)) with (d := init_domains c)
    (d' := d1) (v := v) (dv := dv) as [Good|[NI _]]; auto.
  - intros v0 dv0 I. unfold init_domains in I. apply in_map_iff in I.
    destruct I as [x [E _]]. injection E as _ <-. apply incl_refl.
  - exfalso. apply NI. rewrite <- K. apply dict_mem_keys, dict_mem_get. eauto.
Qed.

(** X19. Every word of an assignment returned by [solve] is a word of the
    vocabulary, and its length is the length of the slot it is assigned to. *)
Theorem solve_assigns_fitting_words (c : Crossword) (a : Assignment) (st : State) :
  solve c = Ok (Some a, st) ->
  forall v w, dict_get v a = Some w ->
              In w (words c) /\ String.length w = var_length v.
Proof.
  unfold solve. intros H v w G.
  destruct (enforce_node_consistency (init_domains c)) as [d1| |] eqn:E;
    cbn [bind] in H; try discriminate.
  destruct (ac3 c None d1) as [[ok d2]| |] eqn:E0;
    cbn [bind] in H; try discriminate.
  destruct ok; cbn [negb] in H; [|discriminate].
  destruct (backtrack c (S (List.length (variables c))) (initial_state d2) [])
    as [[[r a'] st']| |] eqn:E1; cbn [bind] in H; try discriminate.
  injection H as -> <-.
  apply backtrack_fits in E1.
  - destruct E1 as (_ & _ & F). apply (F a eq_refl v w).
    apply dict_get_in. exact G.
  - simpl. constructor; [|constructor].
    eapply node_consistent_ac3; [|exact E0].
    apply enforce_node_consistency_node. exact E.
  - intros v0 w0 [].
Qed.

Lemma solve_assigns_fitting_words_witness :
  exists a st,
    solve cross_puzzle = Ok (Some a, st)
    /\ forall v w, dict_get v a = Some w ->
                   In w (words cross_puzzle) /\ String.length w = var_length v.
Proof.
  eexists. eexists. split.
  - vm_compute. reflexivity.
  - eapply (@solve_assigns_fitting_words cross_puzzle).
    vm_compute. reflexivity.
Defined.

(** X20. [solve] terminates on every puzzle: it returns a result or raises. *)
Theorem solve_terminates (c : Crossword) :
  (exists r, solve c = Ok r) \/ (exists e, solve c = Raise e).
Proof.
  pose proof (solve_fuel_enough c) as H.
  destruct (solve c) as [r|e|]; eauto. contradiction.
Qed.

(** ** No exception on a well-formed puzzle *)

Lemma offsets_okb_sound (c : Crossword) : offsets_okb c = true -> offsets_ok c.
Proof.
  unfold offsets_okb, offsets_ok. rewrite forallb_forall. intros H x y ov G.
  apply overlaps_get_in in G. apply H in G.
  apply andb_true_iff in G. destruct G as [G1 G2].
  apply Nat.ltb_lt in G1, G2. auto.
Qed.

Lemma string_get_lt (n : nat) (s : string) :
  n < String.length s -> exists ch, String.get n s = Some ch.
Proof.
  revert n. induction s as [|a s IH]; simpl; intros n L; [lia|].
  destruct n as [|n]; [eauto|]. apply IH. lia.
Qed.

Lemma str_index_lt (n : nat) (s : string) :
  n < String.length s -> exists ch, str_index s n = Ok ch.
Proof.
  intros L. unfold str_index.
  destruct (@string_get_lt n s L) as [ch ->]. eauto.
Qed.

Lemma revise_scan_returns (wx : string) (ov : nat * nat) (ys : wordset) :
  fst ov < String.length wx ->
  (forall wy, In wy ys -> snd ov < String.length wy) ->
  forall n, exists m, revise_scan wx ov ys n = Ok m.
Proof.
  intros Lx. induction ys as [|wy ys IH]; intros Ly n; simpl; [eauto|].
  destruct (@str_index_lt _ _ Lx) as [cx ->]. simpl.
  destruct (@str_index_lt (snd ov) wy) as [cy ->];
    [apply Ly; left; reflexivity|]. simpl.
  destruct (Ascii.eqb cx cy); [eauto|].
  apply IH. intros w I. apply Ly. right; exact I.
Qed.

Lemma revise_words_returns (d : Domains) (y : Var) (ov : nat * nat)
      (dy : wordset) (xs : list string) :
  dict_get y d = Some dy ->
  (forall wx, In wx xs -> fst ov < String.length wx) ->
  (forall wy, In wy dy -> snd ov < String.length wy) ->
  forall rw rv, exists r, revise_words d y ov xs rw rv = Ok r.
Proof.
  intros Gy Lx Ly. induction xs as [|wx xs IH]; intros rw rv; simpl; [eauto|].
  unfold dict_item. rewrite Gy. simpl.
  destruct (@revise_scan_returns wx ov dy) with (n := 0) as [m ->]; auto.
  { apply Lx. left; reflexivity. }
  simpl.
  assert (Lx' : forall w, In w xs -> fst ov < String.length w)
    by (intros w I; apply Lx; right; exact I).
  destruct (Nat.eqb m (List.length dy)); apply IH; exact Lx'.
Qed.

Lemma revise_returns (c : Crossword) (x y : Var) (d : Domains)
      (o : option (nat * nat)) (dx dy : wordset) :
  offsets_ok c ->
  overlaps_get (x, y) (overlaps c) = Some o ->
  dict_get x d = Some dx -> dict_get y d = Some dy ->
  (forall w, In w dx -> String.length w = var_length x) ->
  (forall w, In w dy -> String.length w = var_length y) ->
  exists r, revise c x y d = Ok r.
Proof.
  intros Off Ho Gx Gy Lx Ly.
  unfold revise, overlaps_item. rewrite Ho. simpl.
  destruct o as [ov|]; [|eauto].
  destruct (Off x y ov Ho) as [O1 O2].
  unfold dict_item. rewrite Gx. simpl.
  destruct (@revise_words_returns d y ov dy dx Gy) with (rw := @nil string)
    (rv := false) as [[rw rv] Ew].
  { intros w I. rewrite (Lx w I). exact O1. }
  { intros w I. rewrite (Ly w I). exact O2. }
  rewrite Ew. simpl.
  destruct (revise_words_spec _ _ _ _ _ _ Gy Ew) as (H1 & _ & H3).
  destruct rw as [|w0 rw]; [eauto|].
  destruct (@remove_all_ok (w0 :: rw) dx) as [dx' Er].
  - apply H3. constructor.
  - intros w I. apply H1 in I. destruct I as [[]|[I _]]. exact I.
  - rewrite Er. simpl. eauto.
Qed.

Lemma node_consistent_revise (c : Crossword) (x y : Var) (d d1 : Domains)
      (revised : bool) :
  node_consistent c d -> revise c x y d = Ok (revised, d1) ->
  node_consistent c d1.
Proof.
  intros N H v dv1 G w I.
  destruct (revise_incl _ _ _ _ H v G) as (dv & G0 & Sub).
  apply (N v dv G0). apply Sub, I.
Qed.

Lemma ac3_loop_returns (c : Crossword) :
  well_formed c -> offsets_ok c ->
  forall fuel queue d,
    List.length queue + List.length (variables c) * domains_size d < fuel ->
    keys d = variables c -> node_consistent c d -> queue_ok c queue ->
    exists r, ac3_loop c fuel queue d = Ok r.
Proof.
  intros WF Off.
  induction fuel as [|fuel IH]; intros queue d L K N Hq; [lia|].
  destruct queue as [|[x y] q]; simpl; [eauto|].
  destruct (Hq x y (or_introl eq_refl)) as [o Ho].
  destruct WF as [WF1 WF2].
  destruct (WF1 _ _ _ Ho) as (Vx & Vy & Nxy).
  assert (Gx : exists dx, dict_get x d = Some dx)
    by (apply dict_mem_get, dict_mem_keys; rewrite K; exact Vx).
  assert (Gy : exists dy, dict_get y d = Some dy)
    by (apply dict_mem_get, dict_mem_keys; rewrite K; exact Vy).
  destruct Gx as [dx Gx], Gy as [dy Gy].
  destruct (@revise_returns c x y d o dx dy Off Ho Gx Gy) as [[revised d1] Er].
  { intros w I. apply (N x dx Gx w I). }
  { intros w I. apply (N y dy Gy w I). }
  rewrite Er. simpl.
  pose proof (revise_keys _ _ _ _ Er) as K1.
  pose proof (@node_consistent_revise c x y d d1 revised N Er) as N1.
  pose proof (revise_shrinks _ _ _ _ Er) as [Le Lt].
  assert (Hq' : queue_ok c q) by (intros a b I; apply Hq; right; exact I).
  simpl in L.
  destruct revised.
  - assert (Gx1 : exists dx1, dict_get x d1 = Some dx1)
      by (apply dict_mem_get, dict_mem_keys; rewrite K1, K; exact Vx).
    destruct Gx1 as [dx1 Gx1]. unfold dict_item. rewrite Gx1. simpl.
    destruct dx1 as [|w dx1]; [eauto|].
    apply IH.
    + rewrite length_app, length_map.
      pose proof (filter_length_le (fun n => negb (var_eqb n y)) (neighbors c x)).
      assert (List.length (neighbors c x) <= List.length (variables c))
        by apply filter_length_le.
      specialize (Lt eq_refl). nia.
    + congruence.
    + exact N1.
    + intros a b I. apply in_app_or in I. destruct I as [I|I]; auto.
      apply in_map_iff in I. destruct I as [n [E I]].
      injection E as <- <-. apply filter_In in I. destruct I as [I _].
      apply in_neighbors in I. destruct I as (_ & _ & [ov O]). eauto.
  - assert (List.length (variables c) * domains_size d1
            <= List.length (variables c) * domains_size d)
      by (apply Nat.mul_le_mono_l; exact Le).
    apply IH; auto; [|congruence].
    apply Nat.succ_lt_mono in L.
    eapply Nat.le_lt_trans; [|exact L].
    apply Nat.add_le_mono_l. exact H.
Qed.

Lemma ac3_returns (c : Crossword) (arcs : option (list arc)) (d : Domains) :
  well_formed c -> offsets_ok c ->
  keys d = variables c -> node_consistent c d ->
  match arcs with Some l => queue_ok c l | None => True end ->
  exists r, ac3 c arcs d = Ok r.
Proof.
  intros WF Off K N Hq. unfold ac3.
  apply ac3_loop_returns; auto.
  destruct arcs as [l|]; [exact Hq|].
  intros a b I. apply in_keys_overlaps_get. exact I.
Qed.

Lemma neighbor_overlap (c : Crossword) (v n : Var) :
  well_formed c -> offsets_ok c -> In n (neighbors c v) ->
  In n (variables c)
  /\ exists ov, overlaps_get (v, n) (overlaps c) = Some (Some ov)
                /\ fst ov < var_length v /\ snd ov < var_length n.
Proof.
  intros [_ WF2] Off I. apply in_neighbors in I.
  destruct I as (Vn & _ & [ov' O]). split; [exact Vn|].
  apply WF2 in O. exists (snd ov', fst ov'). split; [exact O|].
  apply (Off _ _ _ O).
Qed.

Lemma consistent_neighbors_returns (c : Crossword) (a : Assignment) (v1 : Var)
      (w1 : string) (ns : list Var) :
  well_formed c -> offsets_ok c -> fits c a ->
  dict_get v1 a = Some w1 ->
  (forall n, In n ns -> In n (neighbors c v1)) ->
  exists b, consistent_neighbors c a v1 ns = Ok b.
Proof.
  intros WF Off Fa G1. induction ns as [|n ns IH]; intros Hn; simpl; [eauto|].
  assert (IH' : exists b, consistent_neighbors c a v1 ns = Ok b)
    by (apply IH; intros m I; apply Hn; right; exact I).
  destruct (dict_mem n a) eqn:M; [|exact IH'].
  apply dict_mem_get in M. destruct M as [w2 G2].
  destruct (@neighbor_overlap c v1 n WF Off) as (_ & ov & O & L1 & L2).
  { apply Hn. left; reflexivity. }
  unfold overlaps_item, dict_item. rewrite O, G1, G2. simpl.
  destruct (Fa v1 w1 (dict_get_in _ _ G1)) as [_ Len1].
  destruct (Fa n w2 (dict_get_in _ _ G2)) as [_ Len2].
  destruct (@str_index_lt (fst ov) w1) as [c1 ->]; [lia|]. simpl.
  destruct (@str_index_lt (snd ov) w2) as [c2 ->]; [lia|]. simpl.
  destruct (Ascii.eqb c1 c2); [exact IH' | eauto].
Qed.

Lemma consistent_returns (c : Crossword) (a : Assignment) :
  well_formed c -> offsets_ok c -> fits c a ->
  exists b, consistent c a = Ok b.
Proof.
  intros WF Off Fa. unfold consistent.
  destruct (negb _); [eauto|].
  assert (H : forall items, incl items a ->
                exists b, consistent_items c a items = Ok b).
  { induction items as [|[v1 w] items IH]; intros Sub; simpl; [eauto|].
    assert (G : exists w1, dict_get v1 a = Some w1).
    { apply dict_mem_get, dict_mem_keys. unfold keys.
      apply in_map_iff. exists (v1, w). split; [reflexivity|].
      apply Sub. left; reflexivity. }
    destruct G as [w1 G].
    destruct (@consistent_neighbors_returns c a v1 w1 (neighbors c v1))
      as [b ->]; auto.
    simpl. destruct b; [|eauto].
    apply IH. intros e I. apply Sub. right; exact I. }
  apply H. apply incl_refl.
Qed.

Lemma lcv_conflicts_returns (word : string) (ov : nat * nat) (ws : wordset) :
  fst ov < String.length word ->
  (forall w, In w ws -> snd ov < String.length w) ->
  forall count, exists n, lcv_conflicts word (Some ov) ws count = Ok n.
Proof.
  intros Lw. induction ws as [|w ws IH]; intros Hws count; simpl; [eauto|].
  destruct (@str_index_lt _ _ Lw) as [ca ->]. simpl.
  destruct (@str_index_lt (snd ov) w) as [cb ->];
    [apply Hws; left; reflexivity|]. simpl.
  apply IH. intros w' I. apply Hws. right; exact I.
Qed.

Lemma lcv_neighbors_returns (c : Crossword) (d : Domains) (var : Var)
      (word : string) (ns : list Var) :
  well_formed c -> offsets_ok c ->
  incl (variables c) (keys d) -> node_consistent c d ->
  String.length word = var_length var ->
  (forall n, In n ns -> In n (neighbors c var)) ->
  forall count, exists n, lcv_neighbors c d var word ns count = Ok n.
Proof.
  intros WF Off K N Lw.
  induction ns as [|nb ns IH]; intros Hn count; simpl; [eauto|].
  destruct (@neighbor_overlap c var nb WF Off) as (Vn & ov & O & L1 & L2).
  { apply Hn. left; reflexivity. }
  assert (G : exists dn, dict_get nb d = Some dn)
    by (apply dict_mem_get, dict_mem_keys, K, Vn).
  destruct G as [dn G].
  unfold overlaps_item, dict_item. rewrite O, G. simpl.
  destruct (@lcv_conflicts_returns word ov dn) with
    (count := if set_mem word dn then S count else count) as [m ->].
  { lia. }
  { intros w I. destruct (N nb dn G w I) as [_ Lw']. lia. }
  simpl. apply IH. intros n I. apply Hn. right; exact I.
Qed.

Lemma order_domain_values_returns (c : Crossword) (var : Var) (a : Assignment)
      (d : Domains) :
  well_formed c -> offsets_ok c ->
  incl (variables c) (keys d) -> node_consistent c d ->
  In var (variables c) ->
  exists l, order_domain_values c var a d = Ok l.
Proof.
  intros WF Off K N Vv. unfold order_domain_values.
  assert (G : exists dv, dict_get var d = Some dv)
    by (apply dict_mem_get, dict_mem_keys, K, Vv).
  destruct G as [dv G]. unfold dict_item. rewrite G. simpl.
  assert (H : forall ws vs, incl ws dv ->
                exists vs', lcv_words c d var a ws vs = Ok vs').
  { induction ws as [|w ws IH]; intros vs Sub; simpl; [eauto|].
    assert (Sub' : incl ws dv) by (intros x I; apply Sub; right; exact I).
    destruct (word_in_assignment w a); [apply IH; exact Sub'|].
    destruct (@lcv_neighbors_returns c d var w (neighbors c var) WF Off K N)
      with (count := 0) as [n ->].
    - apply (N var dv G). apply Sub. left; reflexivity.
    - auto.
    - simpl. apply IH. exact Sub'. }
  destruct (H dv [] (incl_refl dv)) as [vs ->]. simpl. eauto.
Qed.

Lemma forall_or_exists {A : Type} (f : A -> bool) (l : list A) :
  (forall x, In x l -> f x = true) \/ (exists x, In x l /\ f x = false).
Proof.
  induction l as [|a l [IH|[x [I F]]]].
  - left. intros x [].
  - destruct (f a) eqn:Fa.
    + left. intros x [<-|I]; auto.
    + right. exists a. split; [left; reflexivity | exact Fa].
  - right. exists x. split; [right; exact I | exact F].
Qed.

Lemma incomplete_has_unassigned (a : Assignment) (d : Domains) :
  NoDup (keys a) -> NoDup (keys d) -> incl (keys a) (keys d) ->
  assignment_complete a d = false ->
  exists v, In v (keys d) /\ dict_mem v a = false.
Proof.
  intros NDa NDd Sub H.
  destruct (forall_or_exists (fun v => dict_mem v a) (keys d)) as [All|Ex];
    [|exact Ex].
  exfalso. unfold assignment_complete in H. apply Nat.eqb_neq in H. apply H.
  assert (Sub' : incl (keys d) (keys a)).
  { intros v I. apply dict_mem_keys. auto. }
  pose proof (NoDup_incl_length NDa Sub).
  pose proof (NoDup_incl_length NDd Sub'). lia.
Qed.

Lemma get_arcs_queue_ok (c : Crossword) (var : Var) (a : Assignment) :
  queue_ok c (get_arcs c var a).
Proof.
  intros x y I. unfold get_arcs in I. apply in_map_iff in I.
  destruct I as [n [E I]]. injection E as <- <-.
  apply filter_In in I. destruct I as [I _].
  apply in_neighbors in I. destruct I as (_ & _ & [ov O]). eauto.
Qed.

Lemma try_words_returns (c : Crossword)
      (rec : State -> Assignment -> result search_result)
      (copy_domains : nat) (var : Var) (var_words : list string) (n : nat) :
  well_formed c -> offsets_ok c ->
  (forall st a,
      heap_ok c st -> Forall (node_consistent c) (heap st) ->
      NoDup (keys a) -> incl (keys a) (variables c) -> fits c a ->
      consistent c a = Ok true -> unassigned c a < n ->
      exists out, rec st a = Ok out) ->
  (forall st a out,
      heap_ok c st -> NoDup (keys a) -> incl (keys a) (variables c) ->
      consistent c a = Ok true ->
      rec st a = Ok out -> search_post c st a out) ->
  (forall st a r a' st',
      Forall (node_consistent c) (heap st) -> fits c a ->
      rec st a = Ok (r, a', st') ->
      Forall (node_consistent c) (heap st') /\ fits c a'
      /\ forall res, r = Some res -> fits c res) ->
  In var (variables c) ->
  (forall w, In w var_words ->
             In w (words c) /\ String.length w = var_length var) ->
  forall st a,
    heap_ok c st -> Forall (node_consistent c) (heap st) ->
    copy_domains < List.length (heap st) ->
    NoDup (keys a) -> incl (keys a) (variables c) -> fits c a ->
    dict_mem var a = false -> unassigned c a <= n ->
    exists out, try_words c rec copy_domains var var_words st a = Ok out.
Proof.
  intros WF Off Hret Hpost Hfits Iv.
  induction var_words as [|word rest IH];
    intros Hw st a Hst Hnode Hc ND Sub Fa Fr Hn.
  - simpl. eauto.
  - simpl.
    destruct (Hw word (or_introl eq_refl)) as [Iw Lw].
    assert (Hw' : forall w, In w rest ->
                    In w (words c) /\ String.length w = var_length var)
      by (intros w I; apply Hw; right; exact I).
    set (st1 := note (Try a var word (deref st)) st).
    set (st2 := store (dict_set var [word] (deref st1)) st1).
    assert (Hst1 : heap_ok c st1) by (apply heap_ok_note; exact Hst).
    assert (K1 : keys (dict_set var [word] (deref st1)) = variables c).
    { rewrite keys_dict_set_mem; [apply heap_ok_deref; exact Hst1|].
      apply dict_mem_keys. rewrite (heap_ok_deref Hst1). exact Iv. }
    assert (N1 : node_consistent c (dict_set var [word] (deref st1))).
    { apply node_consistent_narrow; auto.
      apply (@node_consistent_deref c st1). exact Hnode. }
    assert (Hst2 : heap_ok c st2) by (apply heap_ok_store; auto).
    assert (D2 : deref st2 = dict_set var [word] (deref st1)).
    { unfold st2. apply deref_store. apply Hst1. }
    destruct (@ac3_returns c (Some (get_arcs c var (dict_set var word a)))
                (deref st2) WF Off) as [[ok d] E].
    { rewrite D2. exact K1. }
    { rewrite D2. exact N1. }
    { apply get_arcs_queue_ok. }
    rewrite E. cbn [bind].
    assert (K2 : keys d = variables c).
    { apply ac3_keys in E. rewrite E, D2. exact K1. }
    assert (N2 : node_consistent c d).
    { eapply node_consistent_ac3; [|exact E]. rewrite D2. exact N1. }
    set (st3 := store d st2).
    assert (Hst3 : heap_ok c st3) by (apply heap_ok_store; auto).
    assert (Hnode3 : Forall (node_consistent c) (heap st3)).
    { unfold st3, st2, store; simpl.
      apply list_set_Forall; [exact N2|].
      apply list_set_Forall; [exact N1 | exact Hnode]. }
    assert (L3 : List.length (heap st3) = List.length (heap st)).
    { unfold st3, st2, st1; simpl. rewrite !list_set_length. reflexivity. }
    rewrite dict_set_fresh by exact Fr.
    assert (ND1 : NoDup (keys (a ++ [(var, word)]))).
    { rewrite keys_app. apply NoDup_app; auto.
      - simpl. constructor; [simpl; tauto | constructor].
      - intros k Ik [<-|[]]. apply dict_mem_false_keys in Fr. auto. }
    assert (Sub1 : incl (keys (a ++ [(var, word)])) (variables c)).
    { rewrite keys_app. apply incl_app; auto.
      intros k [<-|[]]. exact Iv. }
    assert (Fa1 : fits c (a ++ [(var, word)])).
    { intros v w I. apply in_app_or in I. destruct I as [I|[I|[]]].
      - apply Fa; exact I.
      - injection I as <- <-. auto. }
    pose proof (@unassigned_extend c a var word Iv Fr) as Lu.
    destruct (@consistent_returns c (a ++ [(var, word)]) WF Off Fa1)
      as [is_consistent Ec].
    rewrite Ec. cbn [bind].
    match goal with
    | |- exists out, bind ?m _ = _ =>
        assert (Step : exists r a2 st4,
                   m = Ok (r, a2, st4)
                   /\ heap_ok c st4 /\ Forall (node_consistent c) (heap st4)
                   /\ List.length (heap st) <= List.length (heap st4)
                   /\ (r = None -> a2 = a ++ [(var, word)]))
    end.
    { destruct is_consistent.
      - destruct (Hret (note (Descend (a ++ [(var, word)]) ok) st3)
                       (a ++ [(var, word)])) as [[[r a2] st4] E1];
          auto using heap_ok_note; [lia|].
        exists r, a2, st4. split; [exact E1|].
        pose proof (Hpost _ _ _ (heap_ok_note _ Hst3) ND1 Sub1 Ec E1) as P.
        unfold search_post in P. destruct P as (A & B & C).
        destruct (Hfits (note (Descend (a ++ [(var, word)]) ok) st3)
                        _ _ _ _ Hnode3 Fa1 E1) as (F1 & _ & _).
        split; [exact A|]. split; [exact F1|]. split.
        + change (List.length (heap st3) <= List.length (heap st4)) in B. lia.
        + intros ->. exact C.
      - exists None, (a ++ [(var, word)]), st3.
        split; [reflexivity|]. split; [exact Hst3|]. split; [exact Hnode3|].
        split; [lia | reflexivity]. }
    destruct Step as (r & a2 & st4 & E1 & Hst4 & Hnode4 & L4 & Pr).
    rewrite E1. cbn [bind].
    destruct r as [res|]; [eauto|].
    rewrite (Pr eq_refl). rewrite dict_pop_fresh by exact Fr. cbn [bind].
    apply IH; auto.
    + apply heap_ok_rebind; [lia | exact Hst4].
    + simpl. lia.
Qed.

Lemma backtrack_returns (c : Crossword) :
  well_formed c -> offsets_ok c -> NoDup (variables c) ->
  forall fuel st a,
    heap_ok c st -> Forall (node_consistent c) (heap st) ->
    NoDup (keys a) -> incl (keys a) (variables c) -> fits c a ->
    consistent c a = Ok true -> unassigned c a < fuel ->
    exists out, backtrack c fuel st a = Ok out.
Proof.
  intros WF Off NDv.
  induction fuel as [|fuel IH]; intros st a Hst Hnode ND Sub Fa Co Lu; [lia|].
  rewrite backtrack_S.
  destruct (assignment_complete a (deref st)) eqn:Ec; [eauto|].
  cbv zeta.
  set (st1 := note (Enter a (deref st)) st).
  assert (Hst1 : heap_ok c st1) by (apply heap_ok_note; exact Hst).
  pose proof (heap_ok_deepcopy Hst1) as Hst2.
  assert (L2 : List.length (heap (snd (deepcopy st1)))
               = S (List.length (heap st))).
  { simpl. rewrite length_app. simpl. lia. }
  assert (Lc : fst (deepcopy st1) = List.length (heap st)) by reflexivity.
  assert (Hnode2 : Forall (node_consistent c) (heap (snd (deepcopy st1)))).
  { simpl. apply Forall_app. split; [exact Hnode|].
    constructor; [|constructor].
    apply (@node_consistent_deref c st1). exact Hnode. }
  assert (D2 : deref (snd (deepcopy st1)) = deref st).
  { rewrite deref_deepcopy by apply Hst1. reflexivity. }
  set (st2 := snd (deepcopy st1)) in *.
  set (copy_domains := fst (deepcopy st1)) in *.
  pose proof (heap_ok_deref Hst2) as K2.
  destruct (@incomplete_has_unassigned a (deref st2)) as (v & Iv & Mv).
  { exact ND. }
  { rewrite K2. exact NDv. }
  { rewrite K2. exact Sub. }
  { rewrite D2. exact Ec. }
  destruct (select_unassigned_variable_returns c a (deref st2) v Iv Mv)
    as [var E].
  rewrite E. simpl.
  apply select_unassigned_variable_spec in E.
  destruct E as (dv & Ivd & Fr & _).
  assert (Iv' : In var (variables c)).
  { rewrite <- K2. unfold keys. apply in_map_iff. exists (var, dv). auto. }
  pose proof (@node_consistent_deref c st2 Hnode2) as N2.
  destruct (@order_domain_values_returns c var a (deref st2) WF Off)
    as [var_words E0]; auto.
  { rewrite K2. apply incl_refl. }
  rewrite E0. simpl.
  assert (Hw : forall w, In w var_words ->
                 In w (words c) /\ String.length w = var_length var).
  { intros w I.
    destruct (dict_get var (deref st2)) as [dv0|] eqn:G.
    - apply (N2 var dv0 G).
      apply (@order_domain_values_incl c var a (deref st2) dv0 var_words G E0).
      exact I.
    - unfold order_domain_values, dict_item in E0. rewrite G in E0.
      discriminate. }
  apply (@try_words_returns c (backtrack c fuel) copy_domains var var_words fuel);
    auto; try lia.
  - apply backtrack_post.
  - apply backtrack_fits.
Qed.

(** X21. On a well-formed puzzle [solve] raises no exception: when the keys of
    [overlaps] are pairs of distinct slots with symmetric entries, every
    offset lies inside its slot, and the slots and the words are sets,
    [solve] returns an assignment or [None]. *)
Theorem solve_raises_nothing (c : Crossword) :
  well_formed c -> offsets_ok c ->
  NoDup (variables c) -> NoDup (words c) ->
  exists r st, solve c = Ok (r, st).
Proof.
  intros WF Off NDv NDw. unfold solve.
  assert (Ki : keys (init_domains c) = variables c).
  { unfold init_domains, keys. rewrite map_map. simpl. apply map_id. }
  assert (E : exists d1, enforce_node_consistency (init_domains c) = Ok d1).
  { unfold enforce_node_consistency.
    pose proof (@enforce_items_app (init_domains c) []) as A.
    simpl in A. rewrite A; [eauto | rewrite Ki; exact NDv |].
    intros v dv I. unfold init_domains in I. apply in_map_iff in I.
    destruct I as [x [Ex _]]. injection Ex as _ <-. exact NDw. }
  destruct E as [d1 E]. rewrite E. cbn [bind].
  pose proof (enforce_node_consistency_node c E) as N1.
  pose proof (enforce_node_consistency_keys _ E) as K1.
  destruct (@ac3_returns c None d1 WF Off) as [[ok d2] E0]; auto.
  { congruence. }
  rewrite E0. cbn [bind].
  destruct ok; cbn [negb]; [|eauto].
  destruct (@backtrack_returns c WF Off NDv (S (List.length (variables c)))
              (initial_state d2) []) as [[[r a] st] E1].
  - split; simpl; [|lia]. constructor; [|constructor].
    apply ac3_keys in E0. congruence.
  - simpl. constructor; [|constructor].
    eapply node_consistent_ac3; eauto.
  - constructor.
  - intros k [].
  - intros v w [].
  - apply consistent_nil.
  - unfold unassigned. pose proof (filter_length_le
      (fun v => negb (dict_mem v ([] : Assignment))) (variables c)). lia.
  - rewrite E1. cbn [bind]. eauto.
Qed.

Lemma solve_raises_nothing_witness :
  exists r st, solve ring_puzzle = Ok (r, st).
Proof.
  apply (@solve_raises_nothing ring_puzzle).
  - apply well_formedb_sound. reflexivity.
  - apply offsets_okb_sound. reflexivity.
  - repeat constructor; simpl; intuition discriminate.
  - repeat constructor; simpl; intuition discriminate.
Defined.

(** ** letter_grid *)

Lemma nth_error_list_set_same {A : Type} (n : nat) (a : A) (l : list A) :
  n < List.length l -> nth_error (list_set n a l) n = Some a.
Proof.
  revert n. induction l as [|b l IH]; intros [|n]; simpl; intros L;
    try lia; auto. apply IH. lia.
Qed.

Lemma nth_error_list_set_other {A : Type} (n m : nat) (a : A) (l : list A) :
  m <> n -> nth_error (list_set n a l) m = nth_error l m.
Proof.
  revert n m. induction l as [|b l IH]; intros [|n] [|m] N; simpl; auto;
    try congruence.
Qed.

Lemma in_list_set {A : Type} (n : nat) (a x : A) (l : list A) :
  In x (list_set n a l) -> x = a \/ In x l.
Proof.
  revert n. induction l as [|b l IH]; intros [|n]; simpl; auto.
  - intros [H|H]; auto.
  - intros [H|H]; auto. destruct (IH n H); auto.
Qed.

Lemma grid_set_spec (width height : nat) (p : nat * nat) (ch : ascii)
      (g g' : grid) :
  rectangular width height g ->
  grid_set p ch g = Ok g' ->
  rectangular width height g'
  /\ fst p < height /\ snd p < width
  /\ grid_get g' p = Some (Some ch)
  /\ forall q, q <> p -> grid_get g' q = grid_get g q.
Proof.
  intros [Lh Lw] H. unfold grid_set in H.
  destruct (nth_error g (fst p)) as [row|] eqn:Er; [|discriminate].
  destruct (Nat.ltb_spec (snd p) (List.length row)) as [Lt|]; [|discriminate].
  injection H as <-.
  assert (Lr : List.length row = width) by (apply Lw; eapply nth_error_In; eauto).
  assert (Li : fst p < List.length g) by (apply nth_error_Some; congruence).
  split; [|split; [lia|split; [lia|split]]].
  - split; [rewrite list_set_length; exact Lh|].
    intros r I. apply in_list_set in I. destruct I as [->|I]; auto.
    rewrite list_set_length. exact Lr.
  - unfold grid_get. rewrite nth_error_list_set_same by exact Li.
    apply nth_error_list_set_same. exact Lt.
  - intros [qi qj] N. unfold grid_get. simpl.
    destruct (Nat.eq_dec qi (fst p)) as [->|Ni].
    + rewrite nth_error_list_set_same by exact Li. rewrite Er.
      apply nth_error_list_set_other. intros ->. apply N.
      destruct p; reflexivity.
    + rewrite nth_error_list_set_other by exact Ni. reflexivity.
Qed.

Lemma grid_set_returns (width height : nat) (p : nat * nat) (ch : ascii)
      (g : grid) :
  rectangular width height g -> fst p < height -> snd p < width ->
  exists g', grid_set p ch g = Ok g'.
Proof.
  intros [Lh Lw] Li Lj. unfold grid_set.
  destruct (nth_error g (fst p)) as [row|] eqn:Er.
  - assert (Lr : List.length row = width)
      by (apply Lw; eapply nth_error_In; eauto).
    destruct (Nat.ltb_spec (snd p) (List.length row)); [eauto | lia].
  - apply nth_error_None in Er. lia.
Qed.

Lemma string_get_some_lt (k : nat) (s : string) (ch : ascii) :
  String.get k s = Some ch -> k < String.length s.
Proof.
  revert k. induction s as [|a s IH]; simpl; intros k H; [discriminate|].
  destruct k as [|k]; [lia|]. apply IH in H. lia.
Qed.

Lemma painted_ext (g0 g : grid) (S S' : nat * nat -> ascii -> Prop) :
  (forall p ch, S p ch <-> S' p ch) -> painted g0 g S -> painted g0 g S'.
Proof.
  intros E P p. destruct (P p) as [[G N]|[ch [Sp G]]].
  - left. split; [exact G|]. intros ch Sp. apply (N ch), E, Sp.
  - right. exists ch. split; [apply E; exact Sp | exact G].
Qed.

Lemma cell_eq_dec (p q : nat * nat) : {p = q} + {p <> q}.
Proof. decide equality; apply Nat.eq_dec. Qed.

Lemma place_letters_spec (width height : nat) (g0 : grid) (v : Var)
      (word : string) (ks : list nat) :
  forall g g' S,
    rectangular width height g -> painted g0 g S ->
    place_letters v word ks g = Ok g' ->
    rectangular width height g'
    /\ painted g0 g'
         (fun p ch =>
            S p ch
            \/ exists k, In k ks /\ String.get k word = Some ch /\ cell v k = p)
    /\ forall k, In k ks ->
                 fst (cell v k) < height /\ snd (cell v k) < width.
Proof.
  induction ks as [|k ks IH]; intros g g' S R P H.
  - simpl in H. injection H as <-. split; [exact R|]. split.
    + eapply painted_ext; [|exact P]. intros p ch. split; [auto|].
      intros [Sp|[k [[] _]]]. exact Sp.
    + intros k [].
  - simpl in H. unfold str_index in H.
    destruct (String.get k word) as [ch|] eqn:Gk; simpl in H; [|discriminate].
    destruct (grid_set (cell v k) ch g) as [g1| |] eqn:Es; simpl in H;
      try discriminate.
    destruct (@grid_set_spec width height (cell v k) ch g g1 R Es)
      as (R1 & Li & Lj & Gp & Gq).
    set (S1 := fun p c => S p c \/ (p = cell v k /\ c = ch)).
    assert (P1 : painted g0 g1 S1).
    { intros p. destruct (cell_eq_dec p (cell v k)) as [->|N].
      - right. exists ch. split; [right; auto | exact Gp].
      - rewrite (Gq p N). destruct (P p) as [[G Nn]|[c [Sp G]]].
        + left. split; [exact G|]. intros c [Sp|[E _]]; [apply (Nn c Sp) | auto].
        + right. exists c. split; [left; exact Sp | exact G]. }
    destruct (IH g1 g' S1 R1 P1 H) as (R' & P' & B').
    split; [exact R'|]. split.
    + eapply painted_ext; [|exact P']. intros p c. unfold S1. split.
      * intros [[Sp|[-> ->]]|[k' (I & G & E)]].
        -- left; exact Sp.
        -- right. exists k. split; [left; reflexivity | auto].
        -- right. exists k'. split; [right; exact I | auto].
      * intros [Sp|[k' ([<-|I] & G & E)]].
        -- left; left; exact Sp.
        -- left; right. split; [auto | congruence].
        -- right. exists k'. auto.
    + intros k' [<-|I]; [auto | apply B'; exact I].
Qed.

Lemma place_words_spec (width height : nat) (g0 : grid) (items : Assignment) :
  forall g g' S,
    rectangular width height g -> painted g0 g S ->
    place_words items g = Ok g' ->
    rectangular width height g'
    /\ painted g0 g' (fun p ch => S p ch \/ lettered items p ch)
    /\ forall v word k, In (v, word) items -> k < String.length word ->
                        fst (cell v k) < height /\ snd (cell v k) < width.
Proof.
  induction items as [|[v word] items IH]; intros g g' S R P H.
  - simpl in H. injection H as <-. split; [exact R|]. split.
    + eapply painted_ext; [|exact P]. intros p ch. split; [auto|].
      intros [Sp|(v & w & k & [] & _)]. exact Sp.
    + intros v w k [].
  - simpl in H.
    destruct (place_letters v word (seq 0 (String.length word)) g)
      as [g1| |] eqn:El; simpl in H; try discriminate.
    destruct (@place_letters_spec width height g0 v word
                (seq 0 (String.length word)) g g1 S R P El) as (R1 & P1 & B1).
    destruct (IH g1 g' _ R1 P1 H) as (R' & P' & B').
    split; [exact R'|]. split.
    + eapply painted_ext; [|exact P']. intros p ch. split.
      * intros [[Sp|[k (I & G & E)]]|(v' & w' & k' & I & G & E)].
        -- left; exact Sp.
        -- right. exists v, word, k. split; [left; reflexivity | auto].
        -- right. exists v', w', k'. split; [right; exact I | auto].
      * intros [Sp|(v' & w' & k' & [I|I] & G & E)].
        -- left; left; exact Sp.
        -- injection I as <- <-. left; right. exists k'.
           split; [|auto]. apply in_seq.
           apply string_get_some_lt in G. lia.
        -- right. exists v', w', k'. auto.
    + intros v' w' k' [I|I] L.
      * injection I as <- <-. apply B1. apply in_seq. lia.
      * eapply B'; eauto.
Qed.

Lemma rectangular_blank (width height : nat) :
  rectangular width height (blank_grid width height).
Proof.
  unfold blank_grid. split; [apply repeat_length|].
  intros row I. apply repeat_spec in I. subst. apply repeat_length.
Qed.

Lemma nth_error_repeat_lt {A : Type} (a : A) (n k : nat) :
  k < n -> nth_error (repeat a n) k = Some a.
Proof.
  revert k. induction n as [|n IH]; intros [|k] L; simpl; try lia; auto.
  apply IH. lia.
Qed.

Lemma grid_get_blank (width height : nat) (p : nat * nat) :
  fst p < height -> snd p < width ->
  grid_get (blank_grid width height) p = Some None.
Proof.
  intros Li Lj. unfold grid_get, blank_grid.
  rewrite nth_error_repeat_lt by exact Li.
  apply nth_error_repeat_lt. exact Lj.
Qed.

Lemma painted_blank (g0 : grid) : painted g0 g0 (fun _ _ => False).
Proof. intros p. left. split; [reflexivity | auto]. Qed.

Lemma letter_grid_painted (width height : nat) (a : Assignment) (g : grid) :
  letter_grid width height a = Ok g ->
  rectangular width height g
  /\ painted (blank_grid width height) g (lettered a)
  /\ forall v word k, In (v, word) a -> k < String.length word ->
                      fst (cell v k) < height /\ snd (cell v k) < width.
Proof.
  unfold letter_grid. intros H.
  destruct (@place_words_spec width height (blank_grid width height) a
              (blank_grid width height) g (fun _ _ => False)
              (rectangular_blank width height)
              (painted_blank (blank_grid width height)) H) as (R & P & B).
  split; [exact R|]. split; [|exact B].
  eapply painted_ext; [|exact P]. intros p ch. tauto.
Qed.

(** X22. The grid returned by [letter_grid] has [height] rows of [width]
    cells. *)
Theorem letter_grid_shape (width height : nat) (a : Assignment) (g : grid) :
  letter_grid width height a = Ok g ->
  List.length g = height /\ forall row, In row g -> List.length row = width.
Proof. intros H. apply letter_grid_painted in H. apply H. Qed.

Lemma letter_grid_shape_witness :
  exists g,
    letter_grid 3 3 [(top, "CAT"); (left, "COW")] = Ok g
    /\ List.length g = 3 /\ forall row, In row g -> List.length row = 3.
Proof.
  eexists. split.
  - vm_compute. reflexivity.
  - apply (@letter_grid_shape 3 3 [(top, "CAT"); (left, "COW")]).
    vm_compute. reflexivity.
Defined.

(** X23. A cell of the grid returned by [letter_grid] holds [None] exactly
    when no letter of an assigned word falls on it; otherwise it holds a
    letter that some assigned word has at that cell. *)
Theorem letter_grid_cells (width height : nat) (a : Assignment) (g : grid)
        (p : nat * nat) :
  letter_grid width height a = Ok g ->
  fst p < height -> snd p < width ->
  (grid_get g p = Some None /\ forall ch, ~ lettered a p ch)
  \/ (exists ch, lettered a p ch /\ grid_get g p = Some (Some ch)).
Proof.
  intros H Li Lj. apply letter_grid_painted in H. destruct H as (_ & P & _).
  destruct (P p) as [[G N]|R]; [left | right; exact R].
  rewrite G. split; [apply grid_get_blank; assumption | exact N].
Qed.

Lemma letter_grid_cells_witness :
  exists g,
    letter_grid 3 3 [(top, "CAT"); (left, "COW")] = Ok g
    /\ ((grid_get g (1, 1) = Some None
         /\ forall ch, ~ lettered [(top, "CAT"); (left, "COW")] (1, 1) ch)
        \/ (exists ch, lettered [(top, "CAT"); (left, "COW")] (1, 1) ch
                       /\ grid_get g (1, 1) = Some (Some ch))).
Proof.
  eexists. split.
  - vm_compute. reflexivity.
  - apply (@letter_grid_cells 3 3 [(top, "CAT"); (left, "COW")]).
    + vm_compute. reflexivity.
    + simpl. lia.
    + simpl. lia.
Defined.

(** X24. When the assigned words agree wherever two of them meet, the grid
    returned by [letter_grid] shows every letter of every assigned word at
    its cell. *)
Theorem letter_grid_shows_words (width height : nat) (a : Assignment) (g : grid) :
  letter_grid width height a = Ok g ->
  (forall p c1 c2, lettered a p c1 -> lettered a p c2 -> c1 = c2) ->
  forall v word k ch,
    In (v, word) a -> String.get k word = Some ch ->
    grid_get g (cell v k) = Some (Some ch).
Proof.
  intros H Co v word k ch I G.
  apply letter_grid_painted in H. destruct H as (_ & P & _).
  assert (L : lettered a (cell v k) ch) by (exists v, word, k; auto).
  destruct (P (cell v k)) as [[_ N]|[c [Lc Gc]]].
  - exfalso. apply (N ch L).
  - rewrite Gc. rewrite (Co _ _ _ Lc L). reflexivity.
Qed.

Lemma cat_cow_agree :
  forall p c1 c2,
    lettered [(top, "CAT"); (left, "COW")] p c1 ->
    lettered [(top, "CAT"); (left, "COW")] p c2 -> c1 = c2.
Proof.
  intros p c1 c2 (v1 & w1 & k1 & I1 & G1 & E1) (v2 & w2 & k2 & I2 & G2 & E2).
  subst p. simpl in I1, I2.
  destruct I1 as [I1|[I1|[]]]; injection I1 as <- <-;
    destruct I2 as [I2|[I2|[]]]; injection I2 as <- <-;
    destruct k1 as [|[|[|k1]]]; simpl in G1; try discriminate;
    destruct k2 as [|[|[|k2]]]; simpl in G2; try discriminate;
    vm_compute in E2; try discriminate; congruence.
Qed.

Lemma letter_grid_shows_words_witness :
  exists g,
    letter_grid 3 3 [(top, "CAT"); (left, "COW")] = Ok g
    /\ forall v word k ch,
        In (v, word) [(top, "CAT"); (left, "COW")] ->
        String.get k word = Some ch ->
        grid_get g (cell v k) = Some (Some ch).
Proof.
  eexists. split.
  - vm_compute. reflexivity.
  - apply (@letter_grid_shows_words 3 3 [(top, "CAT"); (left, "COW")]).
    + vm_compute. reflexivity.
    + exact cat_cow_agree.
Defined.

Lemma place_letters_returns (width height : nat) (v : Var) (word : string)
      (ks : list nat) :
  (forall k, In k ks ->
             k < String.length word
             /\ fst (cell v k) < height /\ snd (cell v k) < width) ->
  forall g, rectangular width height g ->
            exists g', place_letters v word ks g = Ok g'
                       /\ rectangular width height g'.
Proof.
  induction ks as [|k ks IH]; intros Hk g R; simpl; [eauto|].
  destruct (Hk k (or_introl eq_refl)) as (Lk & Li & Lj).
  destruct (@str_index_lt k word Lk) as [ch ->]. simpl.
  destruct (@grid_set_returns width height (cell v k) ch g R Li Lj) as [g1 Es].
  rewrite Es. simpl.
  apply IH.
  - intros k' I. apply Hk. right; exact I.
  - apply (@grid_set_spec width height (cell v k) ch g g1 R Es).
Qed.

Lemma place_words_returns (width height : nat) (items : Assignment) :
  (forall v word k, In (v, word) items -> k < String.length word ->
                    fst (cell v k) < height /\ snd (cell v k) < width) ->
  forall g, rectangular width height g ->
            exists g', place_words items g = Ok g'.
Proof.
  induction items as [|[v word] items IH]; intros Hk g R; simpl; [eauto|].
  destruct (@place_letters_returns width height v word
              (seq 0 (String.length word))) with (g := g) as (g1 & -> & R1).
  - intros k I. apply in_seq in I. split; [lia|].
    apply (Hk v word k); [left; reflexivity | lia].
  - exact R.
  - simpl. apply IH; [|exact R1].
    intros v' w' k' I L. apply (Hk v' w' k'); [right; exact I | exact L].
Qed.

Lemma letter_grid_outcomes (width height : nat) (a : Assignment) :
  (exists g, letter_grid width height a = Ok g)
  \/ letter_grid width height a = Raise IndexError.
Proof.
  unfold letter_grid. generalize (blank_grid width height).
  induction a as [|[v word] a IH]; intros g; simpl; [eauto|].
  assert (L : forall ks g0,
             (exists g1, place_letters v word ks g0 = Ok g1)
             \/ place_letters v word ks g0 = Raise IndexError).
  { induction ks as [|k ks IHk]; intros g0; simpl; [eauto|].
    unfold str_index. destruct (String.get k word) as [ch|]; simpl; [|auto].
    assert (Gs : (exists g1, grid_set (cell v k) ch g0 = Ok g1)
                 \/ grid_set (cell v k) ch g0 = Raise IndexError).
    { unfold grid_set. destruct (nth_error g0 (fst (cell v k))) as [row|];
        [|auto].
      destruct (Nat.ltb (snd (cell v k)) (List.length row)); eauto. }
    destruct Gs as [[g1 ->]| ->]; simpl; auto. }
  destruct (L (seq 0 (String.length word)) g) as [[g1 ->]| ->]; simpl; auto.
Qed.

(** X25. [letter_grid] returns exactly when every letter of every assigned
    word falls inside the grid; otherwise the write [letters[i][j] = ...]
    raises IndexError. *)
Theorem letter_grid_returns_iff (width height : nat) (a : Assignment) :
  ((exists g, letter_grid width height a = Ok g)
   <-> (forall v word k, In (v, word) a -> k < String.length word ->
                         fst (cell v k) < height /\ snd (cell v k) < width))
  /\ ((exists g, letter_grid width height a = Ok g)
      \/ letter_grid width height a = Raise IndexError).
Proof.
  split; [|apply letter_grid_outcomes].
  split.
  - intros [g H]. apply letter_grid_painted in H. apply H.
  - intros H. unfold letter_grid.
    apply (@place_words_returns width height a H).
    apply rectangular_blank.
Qed.

(** ** No exception from the parts of the solver *)

Lemma chain_node_consistent : node_consistent chain_puzzle (init_domains chain_puzzle).
Proof. apply enforce_node_consistency_node. vm_compute. reflexivity. Qed.

Lemma chain_narrowed_lengths (v : Var) (dv : wordset) :
  dict_get v chain_narrowed = Some dv ->
  forall w, In w dv -> String.length w = var_length v.
Proof.
  intros G w I. apply dict_get_in in G. vm_compute in G.
  destruct G as [G|[G|[G|[]]]]; injection G as <- <-; simpl in I;
    repeat (destruct I as [<-|I]; [reflexivity|]); contradiction.
Qed.

(** X3. [revise x y] raises no exception when [(x, y)] is a key of
    [overlaps] whose offsets lie inside the slots, both slots have a domain,
    and the words of the two domains have the lengths of the slots. *)
Theorem revise_raises_nothing (c : Crossword) (x y : Var) (d : Domains)
        (o : option (nat * nat)) (dx dy : wordset) :
  offsets_ok c ->
  overlaps_get (x, y) (overlaps c) = Some o ->
  dict_get x d = Some dx -> dict_get y d = Some dy ->
  (forall w, In w dx -> String.length w = var_length x) ->
  (forall w, In w dy -> String.length w = var_length y) ->
  exists revised d', revise c x y d = Ok (revised, d').
Proof.
  intros Off Ho Gx Gy Lx Ly.
  destruct (@revise_returns c x y d o dx dy Off Ho Gx Gy Lx Ly) as [[r d'] E].
  eauto.
Qed.

Lemma revise_raises_nothing_witness :
  exists revised d', revise chain_puzzle top left chain_narrowed = Ok (revised, d').
Proof.
  apply (@revise_raises_nothing chain_puzzle top left chain_narrowed
           (Some (0, 0)) ["ABA"; "ACD"; "EFE"; "EGH"; "DIJ"] ["ABA"]).
  - apply offsets_okb_sound. reflexivity.
  - reflexivity.
  - reflexivity.
  - reflexivity.
  - apply (@chain_narrowed_lengths top). reflexivity.
  - apply (@chain_narrowed_lengths left). reflexivity.
Defined.

(** X9. On a well-formed puzzle [ac3] raises no exception when the domains
    have the slots as keys and hold only vocabulary words of the slots'
    lengths, and the arcs given are keys of [overlaps]. *)
Theorem ac3_raises_nothing (c : Crossword) (arcs : option (list arc))
        (d : Domains) :
  well_formed c -> offsets_ok c ->
  keys d = variables c -> node_consistent c d ->
  (forall l, arcs = Some l ->
             forall x y, In (x, y) l ->
                         exists o, overlaps_get (x, y) (overlaps c) = Some o) ->
  exists ok d', ac3 c arcs d = Ok (ok, d').
Proof.
  intros WF Off K N Hq.
  destruct (@ac3_returns c arcs d WF Off K N) as [[ok d'] E]; [|eauto].
  destruct arcs as [l|]; [|exact I].
  intros x y I. apply (Hq l eq_refl x y I).
Qed.

Lemma ac3_raises_nothing_witness :
  exists ok d', ac3 chain_puzzle None (init_domains chain_puzzle) = Ok (ok, d').
Proof.
  apply (@ac3_raises_nothing chain_puzzle None (init_domains chain_puzzle)).
  - apply well_formedb_sound. reflexivity.
  - apply offsets_okb_sound. reflexivity.
  - reflexivity.
  - exact chain_node_consistent.
  - intros l E. discriminate E.
Defined.




(** X16. On a well-formed puzzle [order_domain_values] raises no exception for
    a slot of the puzzle, when the domains have an entry for every slot and
    hold only vocabulary words of the slots' lengths. *)
Theorem order_domain_values_raises_nothing (c : Crossword) (var : Var)
        (a : Assignment) (d : Domains) :
  well_formed c -> offsets_ok c ->
  incl (variables c) (keys d) -> node_consistent c d ->
  In var (variables c) ->
  exists l, order_domain_values c var a d = Ok l.
Proof. apply order_domain_values_returns. Qed.

Lemma order_domain_values_raises_nothing_witness :
  exists l,
    order_domain_values chain_puzzle left [] (init_domains chain_puzzle) = Ok l.
Proof.
  apply (@order_domain_values_raises_nothing chain_puzzle left []
           (init_domains chain_puzzle)).
  - apply well_formedb_sound. reflexivity.
  - apply offsets_okb_sound. reflexivity.
  - intros v I. exact I.
  - exact chain_node_consistent.
  - simpl. auto.
Defined.

(** ** What the assignment checker accepts *)

Lemma consistent_neighbors_accepts (c : Crossword) (a : Assignment) (v1 : Var)
      (ns : list Var) :
  (forall v2, In v2 ns -> dict_mem v2 a = true ->
     exists ov w1 w2,
       overlaps_get (v1, v2) (overlaps c) = Some (Some ov)
       /\ dict_get v1 a = Some w1 /\ dict_get v2 a = Some w2
       /\ agree ov w1 w2) ->
  consistent_neighbors c a v1 ns = Ok true.
Proof.
  induction ns as [|n ns IH]; intros H; simpl; [reflexivity|].
  assert (IH' : consistent_neighbors c a v1 ns = Ok true)
    by (apply IH; intros v2 I; apply H; right; exact I).
  destruct (dict_mem n a) eqn:M; [|exact IH'].
  destruct (H n (or_introl eq_refl) M) as (ov & w1 & w2 & O & G1 & G2 & ch & A1 & A2).
  unfold overlaps_item, dict_item, str_index.
  rewrite O, G1, G2. simpl. rewrite A1. simpl. rewrite A2. simpl.
  rewrite Ascii.eqb_refl. exact IH'.
Qed.

(** X11. [consistent] returns [True] exactly when no word is assigned twice
    and, for every assigned slot and every assigned neighbour of it, the
    two words have the same letter at the offsets of their overlap. *)
Theorem consistent_true_iff (c : Crossword) (a : Assignment) :
  consistent c a = Ok true
  <-> NoDup (values a)
      /\ forall v1 v2, dict_mem v1 a = true -> In v2 (neighbors c v1) ->
           dict_mem v2 a = true ->
           exists ov w1 w2,
             overlaps_get (v1, v2) (overlaps c) = Some (Some ov)
             /\ dict_get v1 a = Some w1 /\ dict_get v2 a = Some w2
             /\ agree ov w1 w2.
Proof.
  split; [apply consistent_spec|].
  intros [ND H]. unfold consistent.
  rewrite (nodup_fixed_point string_dec ND), Nat.eqb_refl. simpl.
  assert (G : forall items, incl items a -> consistent_items c a items = Ok true).
  { induction items as [|[v1 w] items IH]; intros Sub; simpl; [reflexivity|].
    rewrite consistent_neighbors_accepts.
    - simpl. apply IH. intros e I. apply Sub. right; exact I.
    - intros v2 I M. apply H; auto.
      apply dict_mem_keys. unfold keys. apply in_map_iff.
      exists (v1, w). split; [reflexivity|]. apply Sub. left; reflexivity. }
  apply G. apply incl_refl.
Qed.
